(** * Indoor path service: trajectory-to-graph pipeline

    A shallow embedding of the processing pipeline of
    [rtab/path_service] (pose decoding, vertical-passage detection, floor
    clustering, path deduplication, line snapping, graph extraction and
    floor-graph merging) together with the properties its specification
    states about it.

    Numbers.  The service computes on IEEE-754 binary floats.  Every finite
    float is a rational, so coordinates and thresholds are values of [Q] and
    [+], [-], [*], [/] are taken exactly.  A Euclidean norm is a square root
    and in general not rational: a comparison of a norm with a threshold is
    decided on the squares (the lemmas [GeomFacts.norm_lt_spec],
    [norm_le_spec], [norm_gt_spec] and [norm_ge_spec] relate the tests to
    the real norm), and a length that is summed or stored is a real number
    ([Geom.norm], in [R]).  Rounding is not modelled. *)

From Stdlib Require Import List Bool Arith ZArith QArith Qround Qabs.
From Stdlib Require Strings.Byte.
From Stdlib Require Import Reals Qreals Lia Lra Psatz Sorted.
Import ListNotations.

(* ------------------------------------------------------------------ *)
(** ** Points, squared distances and norms                             *)
(* ------------------------------------------------------------------ *)

Module Geom.

Local Open Scope Q_scope.

(** A row of an [N x 3] coordinate array. *)
Record Point : Type := mkPoint { px : Q; py : Q; pz : Q }.

Definition Qlt_bool (a b : Q) : bool := negb (Qle_bool b a).

Definition Qsq (a : Q) : Q := a * a.

(** [|a - b|^2], the radicand of [np.linalg.norm(a - b)]. *)
Definition sqdist (a b : Point) : Q :=
  Qsq (px a - px b) + Qsq (py a - py b) + Qsq (pz a - pz b).

(** Planar variant, for [positions[:, :2]]. *)
Definition sqdist_xy (a b : Point) : Q :=
  Qsq (px a - px b) + Qsq (py a - py b).

(** [np.linalg.norm(a - b)] as a real number. *)
Definition norm (a b : Point) : R := sqrt (Q2R (sqdist a b)).

Definition norm_xy (a b : Point) : R := sqrt (Q2R (sqdist_xy a b)).

(** [np.linalg.norm(a - b) < t]. *)
Definition norm_lt (a b : Point) (t : Q) : bool :=
  Qlt_bool 0 t && Qlt_bool (sqdist a b) (t * t).

(** [np.linalg.norm(a - b) <= t]. *)
Definition norm_le (a b : Point) (t : Q) : bool :=
  Qle_bool 0 t && Qle_bool (sqdist a b) (t * t).

(** [np.linalg.norm(a - b) > t]. *)
Definition norm_gt (a b : Point) (t : Q) : bool := negb (norm_le a b t).

(** [np.linalg.norm(a - b) >= t]. *)
Definition norm_ge (a b : Point) (t : Q) : bool := negb (norm_lt a b t).

End Geom.

(* ------------------------------------------------------------------ *)
(** ** services/deduplication.py                                       *)
(* ------------------------------------------------------------------ *)

Module Dedup.

Import Geom.

(** Index of the first element satisfying [f] ([enumerate] + early [return]). *)
Fixpoint find_index {A : Type} (f : A -> bool) (l : list A) : option nat :=
  match l with
  | [] => None
  | x :: l' => if f x then Some O
               else match find_index f l' with
                    | Some k => Some (S k)
                    | None => None
                    end
  end.

(** [_find_revisit_point]: the scan runs over [path[:-1]]. *)
Definition _find_revisit_point (path : list Point) (point : Point)
    (threshold : Q) : option nat :=
  find_index (fun p => norm_lt p point threshold) (removelast path).

(** [np.min(distances) > threshold] over a non-empty [backward_path]:
    every distance exceeds the threshold. *)
Definition min_dist_gt (backward_path : list Point) (point : Point)
    (threshold : Q) : bool :=
  forallb (fun b => norm_gt b point threshold) backward_path.

(** [_find_divergence_point].  [np.min] raises on an empty array; the only
    caller passes [result[revisit_idx:]] with [revisit_idx < len(result)]
    (lemma [revisit_backward_nonempty]). *)
Definition _find_divergence_point (forward_path backward_path : list Point)
    (threshold : Q) : option nat :=
  find_index (fun point => min_dist_gt backward_path point threshold)
             forward_path.

(** State of the [while] loop of [merge_overlapping_segments]. *)
Record MergeState : Type := mkMS { ms_result : list Point; ms_i : nat }.

(** One iteration of the loop body; [None] when [i < len(positions)] fails. *)
Definition merge_step (positions : list Point) (overlap_threshold : Q)
    (st : MergeState) : option MergeState :=
  match nth_error positions (ms_i st) with
  | None => None
  | Some current =>
    let result := ms_result st in
    let append := mkMS (result ++ [current]) (ms_i st + 1) in
    match _find_revisit_point result current overlap_threshold with
    | Some revisit_idx =>
      if (Z.of_nat revisit_idx <? Z.of_nat (length result) - 2)%Z then
        match _find_divergence_point (skipn (ms_i st) positions)
                (skipn revisit_idx result) overlap_threshold with
        | Some diverge_idx => Some (mkMS result (ms_i st + diverge_idx))
        | None => Some append
        end
      else Some append
    | None => Some append
    end
  end.

(** The loop, bounded by [fuel] iterations; [None] when the bound is hit
    before the loop condition fails. *)
Fixpoint merge_loop (fuel : nat) (positions : list Point)
    (overlap_threshold : Q) (st : MergeState) : option (list Point) :=
  match merge_step positions overlap_threshold st with
  | None => Some (ms_result st)
  | Some st' =>
    match fuel with
    | O => None
    | S fuel' => merge_loop fuel' positions overlap_threshold st'
    end
  end.

(** [merge_overlapping_segments], run with [fuel] loop iterations. *)
Definition merge_overlapping_segments_fuel (fuel : nat)
    (positions : list Point) (overlap_threshold : Q) : option (list Point) :=
  if (length positions <? 3)%nat then Some positions
  else match positions with
       | [] => Some positions
       | p0 :: _ => merge_loop fuel positions overlap_threshold (mkMS [p0] 1)
       end.

(** The loop runs at most [len(positions) - 1] times (shown in
    [DedupFacts]), so this is the function itself. *)
Definition merge_overlapping_segments (positions : list Point)
    (overlap_threshold : Q) : list Point :=
  match merge_overlapping_segments_fuel (length positions) positions
          overlap_threshold with
  | Some r => r
  | None => positions
  end.

(** Indices [j] with [|positions[j] - center| <= r], in ascending order:
    [tree.query_ball_point(center, r)] of a [cKDTree] built over
    [positions] (the closed ball; scipy leaves the order unspecified and
    the caller's result does not depend on it). *)
Definition query_ball_point (positions : list Point) (center : Point)
    (r : Q) : list nat :=
  filter (fun j => match nth_error positions j with
                   | Some q => norm_le center q r
                   | None => false
                   end)
         (seq 0 (length positions)).

(** [mask[j] = v] on a boolean array. *)
Fixpoint set_nth (j : nat) (v : bool) (mask : list bool) : list bool :=
  match mask, j with
  | [], _ => []
  | _ :: m, O => v :: m
  | b :: m, S j' => b :: set_nth j' v m
  end.

(** Loop state of [deduplicate_path]: [keep_mask] and the [visited] set,
    the latter as its characteristic array. *)
Record DedupState : Type :=
  mkDS { keep_mask : list bool; visited : list bool }.

Definition in_visited (st : DedupState) (j : nat) : bool :=
  nth j (visited st) false.

(** The inner [for j in neighbors] body. *)
Definition claim (i : nat) (st : DedupState) (j : nat) : DedupState :=
  if negb (j =? i)%nat && negb (in_visited st j)
  then mkDS (set_nth j false (keep_mask st)) (set_nth j true (visited st))
  else st.

(** The outer [for i in range(len(positions))] body. *)
Definition dedup_visit (positions : list Point) (distance_threshold : Q)
    (st : DedupState) (i : nat) : DedupState :=
  if in_visited st i then st
  else
    match nth_error positions i with
    | None => st
    | Some p =>
      let neighbors := query_ball_point positions p distance_threshold in
      let st' := fold_left (claim i) neighbors st in
      mkDS (keep_mask st') (set_nth i true (visited st'))
    end.

Definition dedup_mask (positions : list Point) (distance_threshold : Q)
    : list bool :=
  let n := length positions in
  keep_mask (fold_left (dedup_visit positions distance_threshold) (seq 0 n)
               (mkDS (repeat true n) (repeat false n))).

(** [positions[keep_mask]]. *)
Fixpoint select {A : Type} (l : list A) (mask : list bool) : list A :=
  match l, mask with
  | x :: l', b :: m' => if b then x :: select l' m' else select l' m'
  | _, _ => []
  end.

(** [deduplicate_path]. *)
Definition deduplicate_path (positions : list Point)
    (distance_threshold : Q) : list Point :=
  if (length positions <? 2)%nat then positions
  else
    let unique_positions :=
      select positions (dedup_mask positions distance_threshold) in
    if (length unique_positions <? 2)%nat then positions
    else unique_positions.

(** Step 4 of [process_path_async] for one floor, after outlier removal:
    [merge_overlapping_segments(.., overlap_threshold=1.0)] followed by
    [deduplicate_path(.., distance_threshold=0.5)]. *)
Definition deduplicate_floor (positions : list Point) : list Point :=
  deduplicate_path (merge_overlapping_segments positions 1) (1 # 2).

End Dedup.

(* ------------------------------------------------------------------ *)
(** ** services/extraction.py                                          *)
(* ------------------------------------------------------------------ *)

Module Extraction.

Import Geom.
Local Open Scope Z_scope.

(** What [struct.unpack] yields for one [f] field: a binary32 datum widened
    to a Python float.  Signed zeros are the rational 0. *)
Inductive float : Type :=
| Finite (q : Q)
| Infinity (negative : bool)
| NaN.

Definition POSE_BLOB_SIZE : nat := 48.
Definition FLOATS_PER_POSE : nat := 12.

Definition byte_val (b : Byte.byte) : Z := Z.of_N (Byte.to_N b).

(** The 32-bit word stored in four bytes, least significant byte first. *)
Definition le32 (b0 b1 b2 b3 : Byte.byte) : Z :=
  Z.lor (byte_val b0)
    (Z.lor (Z.shiftl (byte_val b1) 8)
       (Z.lor (Z.shiftl (byte_val b2) 16) (Z.shiftl (byte_val b3) 24))).

(** IEEE-754 binary32: 1 sign bit, 8 exponent bits (bias 127), 23 fraction
    bits.  The value is kept as a reduced fraction. *)
Definition decode_binary32 (w : Z) : float :=
  let sign := Z.testbit w 31 in
  let e := Z.land (Z.shiftr w 23) 255 in
  let m := Z.land w (2 ^ 23 - 1) in
  if e =? 255 then (if m =? 0 then Infinity sign else NaN)
  else
    let mag : Q :=
      if e =? 0 then (inject_Z m * Qpower 2 (-149))%Q
      else (inject_Z (2 ^ 23 + m) * Qpower 2 (e - 150))%Q in
    Finite (Qred (if sign then (- mag)%Q else mag)).

(** [struct.unpack] of consecutive [f] fields; a trailing group of fewer
    than four bytes is a size mismatch ([struct.error]). *)
Fixpoint unpack_floats (blob : list Byte.byte) : option (list float) :=
  match blob with
  | [] => Some []
  | b0 :: b1 :: b2 :: b3 :: rest =>
    match unpack_floats rest with
    | Some vs => Some (decode_binary32 (le32 b0 b1 b2 b3) :: vs)
    | None => None
    end
  | _ => None
  end.

(** [struct.unpack('12f', blob)]: [None] stands for [struct.error].  The
    format carries no byte-order mark, so Python uses the byte order of the
    machine; the embedding fixes little-endian, as the comment in the
    source and the specification do. *)
Definition unpack_12f (blob : list Byte.byte) : option (list float) :=
  if (length blob =? 4 * FLOATS_PER_POSE)%nat then unpack_floats blob
  else None.

(** [extract_pose]: the twelve entries of the 3x4 matrix in row-major
    order, or [None]. *)
Definition extract_pose (pose_blob : option (list Byte.byte))
    : option (list float) :=
  match pose_blob with
  | None => None
  | Some blob =>
    if (length blob =? 0)%nat then None
    else if negb (length blob =? POSE_BLOB_SIZE)%nat then None
    else match unpack_12f blob with
         | Some values => Some values
         | None => None
         end
  end.

(** [matrix[:, 3]] of a row-major 3x4 matrix. *)
Definition get_position_from_matrix (matrix : option (list float))
    : option (float * float * float) :=
  match matrix with
  | None => None
  | Some m => Some (nth 3 m NaN, nth 7 m NaN, nth 11 m NaN)
  end.

Definition isfinite (v : float) : bool :=
  match v with Finite _ => true | _ => false end.

(** One component of [np.allclose(position, [0, 0, 0], atol=1e-6)]:
    [|a - 0| <= atol + rtol * |0|]. *)
Definition isclose_zero (atol : Q) (v : float) : bool :=
  match v with
  | Finite q => Qle_bool (Qabs q) atol
  | _ => false
  end.

Definition atol_origin : Q := 1 # 1000000.

(** [is_valid_position]. *)
Definition is_valid_position (position : option (float * float * float))
    : bool :=
  match position with
  | None => false
  | Some (x, y, z) =>
    if negb (isfinite x && isfinite y && isfinite z) then false
    else if isclose_zero atol_origin x && isclose_zero atol_origin y
            && isclose_zero atol_origin z then false
    else true
  end.

(** A fetched row of [SELECT id, pose FROM Node ORDER BY id]; a NULL pose
    is [None]. *)
Definition Row : Type := (Z * option (list Byte.byte))%type.

Inductive Error : Type := EmptyTrajectory.

(** The [for node_id, pose_blob in rows] loop: the accumulated
    [positions] and [node_ids]. *)
Fixpoint collect (rows : list Row)
    : list (float * float * float) * list Z :=
  match rows with
  | [] => ([], [])
  | (node_id, pose_blob) :: rest =>
    let (positions, node_ids) := collect rest in
    match extract_pose pose_blob with
    | None => (positions, node_ids)
    | Some matrix =>
      match get_position_from_matrix (Some matrix) with
      | Some position =>
        if is_valid_position (Some position)
        then (position :: positions, node_id :: node_ids)
        else (positions, node_ids)
      | None => (positions, node_ids)
      end
    end
  end.

(** [extract_trajectory_from_db] on the fetched rows; the [ValueError] is
    [inl EmptyTrajectory]. *)
Definition extract_trajectory (rows : list Row)
    : Error + (list (float * float * float) * list Z) :=
  let (positions, node_ids) := collect rows in
  if (length positions =? 0)%nat then inl EmptyTrajectory
  else inr (positions, node_ids).

(** The rational coordinates of a valid position. *)
Definition to_point (position : float * float * float) : option Point :=
  match position with
  | (Finite x, Finite y, Finite z) => Some (mkPoint x y z)
  | _ => None
  end.

End Extraction.

(* ------------------------------------------------------------------ *)
(** ** services/vertical_detector.py                                   *)
(* ------------------------------------------------------------------ *)

Module Vertical.

Import Geom.
Local Open Scope Q_scope.

Definition Z_CHANGE_THRESHOLD : Q := 5 # 100.
Definition WINDOW_SIZE : nat := 10.
Definition MIN_TOTAL_Z_CHANGE : Q := 3 # 2.
Definition MIN_STAIR_POINTS : nat := 5.
Definition ELEVATOR_XY_Z_RATIO : R := 1%R.
Definition DEFAULT_FLOOR_HEIGHT : Q := 3.
Definition MIN_POINTS_PER_FLOOR : nat := 10.
Definition GAP_THRESHOLD : Z := 10.

Inductive PassageType : Type := STAIRCASE | ELEVATOR.
Inductive Direction : Type := UP | DOWN.

(** [total_xy_dist / z_disp], or [float('inf')]. *)
Inductive Ratio : Type :=
| Fin (r : R)
| Inf.

(** A passage dictionary.  The detector writes the first nine keys,
    [assign_floors_to_stairs] adds [from_floor] and [to_floor]; the keys
    [entry_point] and [exit_point] are read by [merge_floor_graphs] through
    [dict.get] and are [None] when absent. *)
Record Passage : Type := mkPassage {
  p_type : PassageType;
  start_idx : nat;
  end_idx : nat;
  p_positions : list Point;
  z_start : Q;
  z_end : Q;
  z_displacement : Q;
  xy_z_ratio : Ratio;
  direction : Direction;
  from_floor : option Z;
  to_floor : option Z;
  entry_point : option Point;
  exit_point : option Point
}.

Definition nq (n : nat) : Q := inject_Z (Z.of_nat n).

Definition z_at (positions : list Point) (i : nat) : Q :=
  match nth_error positions i with
  | Some p => pz p
  | None => 0
  end.

(** [z_diff[i] = z[i + 1] - z[i]]. *)
Definition z_diff (positions : list Point) (i : nat) : Q :=
  z_at positions (i + 1) - z_at positions i.

Definition count_if (f : nat -> bool) (l : list nat) : nat :=
  length (filter f l).

(** The test made for the window starting at [i] in Step 1. *)
Definition window_marked (positions : list Point)
    (z_change_threshold : Q) (window_size : nat) (min_total_z_change : Q)
    (i : nat) : bool :=
  let window_z_change := z_at positions (i + window_size) - z_at positions i in
  if Qlt_bool (min_total_z_change * (nq window_size / 20))
              (Qabs window_z_change)
  then
    let window := seq i window_size in
    if Qlt_bool 0 window_z_change
    then Qlt_bool (nq window_size * (1 # 2))
           (nq (count_if (fun k => Qlt_bool (z_change_threshold / 2)
                                           (z_diff positions k)) window))
    else Qlt_bool (nq window_size * (1 # 2))
           (nq (count_if (fun k => Qlt_bool (z_diff positions k)
                                           (- z_change_threshold / 2)) window))
  else false.

(** [mask[a:b] = True] (the slice is clipped at the end of the array). *)
Fixpoint set_range (a b : nat) (mask : list bool) : list bool :=
  match mask with
  | [] => []
  | x :: m =>
    match a, b with
    | _, O => x :: m
    | O, S b' => true :: set_range O b' m
    | S a', S b' => x :: set_range a' b' m
    end
  end.

(** Step 1: the [changing_z] mask. *)
Definition changing_z (positions : list Point) (z_change_threshold : Q)
    (window_size : nat) (min_total_z_change : Q) : list bool :=
  let n := length positions in
  fold_left
    (fun mask i =>
       if window_marked positions z_change_threshold window_size
            min_total_z_change i
       then set_range i (i + window_size + 1) mask
       else mask)
    (seq 0 (n - window_size)) (repeat false n).

(** Step 2, grouping: the maximal runs [[start_idx, end_idx)] of [True] in
    the mask, in order.  [i] is the scan index and [open] the start of the
    run being read by the inner [while]. *)
Fixpoint runs_from (mask : list bool) (i : nat) (open : option nat)
    : list (nat * nat) :=
  match mask with
  | [] => match open with
          | Some s => [(s, i)]
          | None => []
          end
  | true :: m =>
    runs_from m (S i) (Some (match open with Some s => s | None => i end))
  | false :: m =>
    match open with
    | Some s => (s, i) :: runs_from m (S i) None
    | None => runs_from m (S i) None
    end
  end.

Definition vertical_runs (mask : list bool) : list (nat * nat) :=
  runs_from mask 0 None.

(** [np.sum(np.sqrt(np.sum(np.diff(seg[:, :2], axis=0)**2, axis=1)))]. *)
Fixpoint xy_length (seg : list Point) : R :=
  match seg with
  | p :: (q :: _) as rest => (norm_xy q p + xy_length rest)%R
  | _ => 0%R
  end.

Definition ratio_of (total_xy_dist : R) (z_disp : Q) : Ratio :=
  if Qlt_bool 0 z_disp then Fin (total_xy_dist / Q2R z_disp)%R else Inf.

(** ["ELEVATOR" if xy_z_ratio < ELEVATOR_XY_Z_RATIO else "STAIRCASE"]. *)
Definition classify (ratio : Ratio) : PassageType :=
  match ratio with
  | Fin r => if Rlt_dec r ELEVATOR_XY_Z_RATIO then ELEVATOR else STAIRCASE
  | Inf => STAIRCASE
  end.

Definition direction_of (z_start z_end : Q) : Direction :=
  if Qlt_bool z_start z_end then UP else DOWN.

(** [positions[a:b]]. *)
Definition segment (positions : list Point) (a b : nat) : list Point :=
  firstn (b - a) (skipn a positions).

Definition seg_z_start (positions : list Point) (run : nat * nat) : Q :=
  z_at positions (fst run).

(** [segment_positions[-1, 2]]. *)
Definition seg_z_end (positions : list Point) (run : nat * nat) : Q :=
  z_at positions (snd run - 1).

(** The guard [z_disp >= min_total_z_change and (end_idx - start_idx) >=
    min_stair_points]. *)
Definition run_kept (positions : list Point) (min_total_z_change : Q)
    (min_stair_points : nat) (run : nat * nat) : bool :=
  Qle_bool min_total_z_change
    (Qabs (seg_z_end positions run - seg_z_start positions run))
  && (min_stair_points <=? snd run - fst run)%nat.

(** The dictionary appended for a run that passes the guard. *)
Definition make_passage (positions : list Point) (run : nat * nat) : Passage :=
  let seg := segment positions (fst run) (snd run) in
  let zs := seg_z_start positions run in
  let ze := seg_z_end positions run in
  let z_disp := Qabs (ze - zs) in
  let ratio := ratio_of (xy_length seg) z_disp in
  mkPassage (classify ratio) (fst run) (snd run) seg zs ze z_disp ratio
            (direction_of zs ze) None None None None.

Definition analyse_run (positions : list Point) (min_total_z_change : Q)
    (min_stair_points : nat) (run : nat * nat) : option Passage :=
  if run_kept positions min_total_z_change min_stair_points run
  then Some (make_passage positions run)
  else None.

(** Step 2: the passages of the runs that pass the guard, in order. *)
Fixpoint group_segments (positions : list Point) (min_total_z_change : Q)
    (min_stair_points : nat) (runs : list (nat * nat)) : list Passage :=
  match runs with
  | [] => []
  | run :: rest =>
    match analyse_run positions min_total_z_change min_stair_points run with
    | Some p => p :: group_segments positions min_total_z_change
                       min_stair_points rest
    | None => group_segments positions min_total_z_change
                min_stair_points rest
    end
  end.

(** Step 2: the [is_stair] mask. *)
Definition stair_mask (n : nat) (segments : list Passage) : list bool :=
  fold_left (fun mask p => set_range (start_idx p) (end_idx p) mask)
            segments (repeat false n).

Definition direction_eqb (a b : Direction) : bool :=
  match a, b with
  | UP, UP | DOWN, DOWN => true
  | _, _ => false
  end.

(** The update of [current] when [seg] is merged into it. *)
Definition absorb (positions : list Point) (current seg : Passage) : Passage :=
  let e := end_idx seg in
  let ps := segment positions (start_idx current) e in
  let ze := z_end seg in
  let z_disp := Qabs (ze - z_start current) in
  let ratio := ratio_of (xy_length ps) z_disp in
  mkPassage (classify ratio) (start_idx current) e ps (z_start current) ze
            z_disp ratio (direction current)
            (from_floor current) (to_floor current)
            (entry_point current) (exit_point current).

(** The [for seg in segments[1:]] loop of [_merge_stair_segments]. *)
Fixpoint merge_from (positions : list Point) (gap_threshold : Z)
    (current : Passage) (rest : list Passage) : list Passage :=
  match rest with
  | [] => [current]
  | seg :: rest' =>
    let same_direction := direction_eqb (direction current) (direction seg) in
    let close_enough :=
      (Z.of_nat (start_idx seg) - Z.of_nat (end_idx current) <? gap_threshold)%Z in
    if same_direction && close_enough
    then merge_from positions gap_threshold (absorb positions current seg) rest'
    else current :: merge_from positions gap_threshold seg rest'
  end.

(** [_merge_stair_segments]. *)
Definition _merge_stair_segments (segments : list Passage)
    (positions : list Point) (gap_threshold : Z) : list Passage :=
  match segments with
  | [] => segments
  | [_] => segments
  | current :: rest => merge_from positions gap_threshold current rest
  end.

(** [detect_stairs_first]: the passages and the [is_stair] mask. *)
Definition detect_stairs_first (positions : list Point)
    (z_change_threshold : Q) (window_size : nat) (min_total_z_change : Q)
    (min_stair_points : nat) : list Passage * list bool :=
  let mask := changing_z positions z_change_threshold window_size
                min_total_z_change in
  let stair_segments :=
    group_segments positions min_total_z_change min_stair_points
      (vertical_runs mask) in
  (_merge_stair_segments stair_segments positions GAP_THRESHOLD,
   stair_mask (length positions) stair_segments).

(** [detect_stairs_first(positions)] with the default parameters. *)
Definition detect_stairs_default (positions : list Point)
    : list Passage * list bool :=
  detect_stairs_first positions Z_CHANGE_THRESHOLD WINDOW_SIZE
    MIN_TOTAL_Z_CHANGE MIN_STAIR_POINTS.

(** *** Floor assignment *)

(** [floors_data] restricted to what the assignment reads: the floor
    numbers with their [z_mean], in dictionary order. *)
Definition FloorsData : Type := list (Z * Q).

(** [_find_nearest_floor]. *)
Definition _find_nearest_floor (z_value : Q) (floors_data : FloorsData) : Z :=
  match floors_data with
  | [] => 0%Z
  | _ =>
    fst (fold_left
           (fun (best : Z * option Q) (entry : Z * Q) =>
              let dist := Qabs (snd entry - z_value) in
              match snd best with
              | None => (fst entry, Some dist)         (* best_dist = inf *)
              | Some best_dist =>
                if Qlt_bool dist best_dist then (fst entry, Some dist)
                else best
              end)
           floors_data (0%Z, None))
  end.

Definition assign_floor (floors_data : FloorsData) (seg : Passage) : Passage :=
  mkPassage (p_type seg) (start_idx seg) (end_idx seg) (p_positions seg)
            (z_start seg) (z_end seg) (z_displacement seg) (xy_z_ratio seg)
            (direction seg)
            (Some (_find_nearest_floor (z_start seg) floors_data))
            (Some (_find_nearest_floor (z_end seg) floors_data))
            (entry_point seg) (exit_point seg).

(** [assign_floors_to_stairs]. *)
Definition assign_floors_to_stairs (stair_segments : list Passage)
    (floors_data : FloorsData) : list Passage :=
  map (assign_floor floors_data) stair_segments.

(** *** Floor separation: [_cluster_z_values] *)

Definition qmin (a b : Q) : Q := if Qle_bool a b then a else b.
Definition qmax (a b : Q) : Q := if Qle_bool a b then b else a.

(** [z_values.min()], [z_values.max()] (the caller passes a non-empty
    array). *)
Definition list_min (l : list Q) : Q :=
  match l with
  | [] => 0
  | x :: l' => fold_left qmin l' x
  end.

Definition list_max (l : list Q) : Q :=
  match l with
  | [] => 0
  | x :: l' => fold_left qmax l' x
  end.

(** [int(x)]: truncation towards zero. *)
Definition int_of (x : Q) : Z :=
  if Qlt_bool x 0 then Qceiling x else Qfloor x.

(** Bin of [v] in [np.histogram(.., bins)] over [[lo, hi]] with [lo < hi]:
    equal-width bins, closed on the left, the last one closed on both
    sides. *)
Definition bin_index (lo hi : Q) (bins : nat) (v : Q) : Z :=
  let idx := Qfloor ((v - lo) * nq bins / (hi - lo)) in
  if (idx =? Z.of_nat bins)%Z then (idx - 1)%Z else idx.

(** [hist] of [np.histogram(z_values, bins=num_bins)], as floats. *)
Definition histogram (z_values : list Q) (lo hi : Q) (bins : nat) : list Q :=
  map (fun k =>
         nq (length (filter (fun v => (bin_index lo hi bins v =? Z.of_nat k)%Z)
                            z_values)))
      (seq 0 bins).

(** [bin_edges[k]]. *)
Definition bin_edge (lo hi : Q) (bins : nat) (k : nat) : Q :=
  lo + nq k * (hi - lo) / nq bins.

(** Index read by a [mode='reflect'] filter at position [idx] of an array
    of length [n] (d c b a | a b c d | d c b a). *)
Definition reflect (n : nat) (idx : Z) : nat :=
  let m := (idx mod (2 * Z.of_nat n))%Z in
  if (m <? Z.of_nat n)%Z then Z.to_nat m
  else Z.to_nat (2 * Z.of_nat n - 1 - m).

(** [scipy.ndimage.gaussian_filter1d(input, sigma)] is a library routine: a
    correlation with a symmetric kernel that sums to 1, the array extended
    by reflection.  [kernel] lists the weights [w_0; w_1; ..; w_r] of the
    offsets [0, +-1, .., +-r]. *)
Definition gaussian_filter1d (kernel : list Q) (input : list Q) : list Q :=
  let n := length input in
  let at_ (idx : Z) : Q := nth (reflect n idx) input 0 in
  map (fun i =>
         match kernel with
         | [] => 0
         | w0 :: ws =>
           fold_left
             (fun acc kw =>
                let k := Z.of_nat (fst kw) in
                acc + snd kw * (at_ (Z.of_nat i - k)%Z + at_ (Z.of_nat i + k)%Z))
             (combine (seq 1 (length ws)) ws)
             (w0 * at_ (Z.of_nat i))
         end)
      (seq 0 n).

(** The kernel of [sigma = 1.5]: [exp(-k^2 / 4.5)] for [k = 0 .. 6]
    ([truncate = 4.0] gives radius 6) to six decimals, divided by the sum
    over the thirteen offsets. *)
Definition gauss_weights_1_5 : list Q :=
  map (fun u => inject_Z u / 3759902)
      [1000000; 800737; 411112; 135335; 28566; 3866; 335]%Z.

(** Grouping of the significant bins into regions (gap <= 2); [current] is
    [current_region], most recent bin first. *)
Fixpoint group_regions (current : list nat) (last_bin : nat)
    (rest : list nat) : list (list nat) :=
  match rest with
  | [] => [rev current]
  | b :: rest' =>
    if (b - last_bin <=? 2)%nat
    then group_regions (b :: current) b rest'
    else rev current :: group_regions [b] b rest'
  end.

Definition qsum (l : list Q) : Q := fold_left Qplus l 0.

(** The loop over [regions] of [_find_histogram_peaks]. *)
Fixpoint region_peaks (smoothed_hist : list Q) (edge : nat -> Q)
    (threshold : Q) (regions : list (list nat)) (peaks : list Q) : list Q :=
  match regions with
  | [] => peaks
  | region :: rest =>
    let region_z_values :=
      map (fun i => (edge i + edge (i + 1)%nat) / 2) region in
    let region_counts := map (fun i => nth i smoothed_hist 0) region in
    if Qlt_bool 0 (qsum region_counts) then
      let peak_z :=
        qsum (map (fun zc => fst zc * snd zc)
                  (combine region_z_values region_counts))
        / qsum region_counts in
      let is_new_peak :=
        forallb (fun existing_peak =>
                   negb (Qlt_bool (Qabs (peak_z - existing_peak))
                                  (threshold * (7 # 10))))
                peaks in
      region_peaks smoothed_hist edge threshold rest
        (if is_new_peak then peaks ++ [peak_z] else peaks)
    else region_peaks smoothed_hist edge threshold rest peaks
  end.

(** [_find_histogram_peaks]. *)
Definition _find_histogram_peaks (smoothed_hist : list Q) (edge : nat -> Q)
    (min_count threshold : Q) : list Q :=
  let significant_bins :=
    filter (fun i => Qle_bool min_count (nth i smoothed_hist 0))
           (seq 0 (length smoothed_hist)) in
  match significant_bins with
  | [] => []
  | b0 :: rest =>
    region_peaks smoothed_hist edge threshold (group_regions [b0] b0 rest) []
  end.

(** The peaks found on the smoothed histogram (Steps 1 to 3 of
    [_cluster_z_values]). *)
Definition histogram_peaks (kernel : list Q) (z_values : list Q)
    (threshold : Q) : list Q :=
  let z_min := list_min z_values in
  let z_max := list_max z_values in
  let z_range := z_max - z_min in
  let num_bins := Nat.max (Z.to_nat (int_of (z_range / (1 # 2)))) 20 in
  let hist := histogram z_values z_min z_max num_bins in
  let smoothed_hist := gaussian_filter1d kernel hist in
  let min_count := nq (length z_values) * (3 # 100) in
  _find_histogram_peaks smoothed_hist (bin_edge z_min z_max num_bins)
    min_count threshold.

(** [num_floors] of the fallback. *)
Definition fallback_floors (z_range threshold : Q) : nat :=
  Z.to_nat (Z.max 1 (int_of (z_range / threshold) + 1)).

(** [[z_min + (i + 0.5) * (z_range / num_floors) for i in
    range(num_floors)]]. *)
Definition uniform_peaks (z_min z_range : Q) (num_floors : nat) : list Q :=
  map (fun i => z_min + (nq i + (1 # 2)) * (z_range / nq num_floors))
      (seq 0 num_floors).

Fixpoint insert_sorted (x : Q) (l : list Q) : list Q :=
  match l with
  | [] => [x]
  | y :: l' => if Qle_bool x y then x :: l else y :: insert_sorted x l'
  end.

(** [sorted(peaks)]. *)
Definition sorted (l : list Q) : list Q := fold_right insert_sorted [] l.

(** The array [peaks] after the fallback and the sort. *)
Definition cluster_peaks (kernel : list Q) (z_values : list Q)
    (threshold : Q) : list Q :=
  let z_min := list_min z_values in
  let z_range := list_max z_values - z_min in
  let peaks := histogram_peaks kernel z_values threshold in
  sorted (match peaks with
          | [] => uniform_peaks z_min z_range (fallback_floors z_range threshold)
          | _ => peaks
          end).

(** [np.argmin(np.abs(peaks_array - z))]: the first index of the least
    distance. *)
Definition argmin_dist (peaks : list Q) (z : Q) : nat :=
  match peaks with
  | [] => O
  | p0 :: rest =>
    fst (fst (fold_left
           (fun (acc : nat * Q * nat) p =>
              let '(best, best_d, i) := acc in
              let d := Qabs (p - z) in
              if Qlt_bool d best_d then (i, d, S i) else (best, best_d, S i))
           rest (O, Qabs (p0 - z), 1%nat)))
  end.

(** [_cluster_z_values] for a positive [threshold]. *)
Definition _cluster_z_values (kernel : list Q) (z_values : list Q)
    (threshold : Q) : list nat :=
  let z_range := list_max z_values - list_min z_values in
  if Qlt_bool z_range threshold then repeat O (length z_values)
  else
    let peaks := cluster_peaks kernel z_values threshold in
    map (argmin_dist peaks) z_values.

End Vertical.

(* ------------------------------------------------------------------ *)
(** ** services/smoothing.py (gap splitting),
       services/deduplication.py (RDP),
       services/path_flattening.py (snap_to_lines)                     *)
(* ------------------------------------------------------------------ *)

Module Flatten.

Import Geom.
Local Open Scope Q_scope.

(** Exceptions that leave [snap_to_lines]. *)
Inductive Exn : Type :=
| ConcatenateEmpty   (* np.concatenate([]) : ValueError *)
| RecursionDepth     (* _rdp_recursive does not return *)
| CeilOverflow.      (* int(np.ceil(inf)) : OverflowError *)

Inductive Result (A : Type) : Type :=
| Ok (a : A)
| Raise (e : Exn).
Arguments Ok {A} a.
Arguments Raise {A} e.

Definition bind {A B : Type} (r : Result A) (k : A -> Result B) : Result B :=
  match r with
  | Ok a => k a
  | Raise e => Raise e
  end.

Notation "x <- r ;; k" := (bind r (fun x => k))
  (at level 61, r at next level, right associativity).

(** [positions[a:b]]. *)
Definition slice {A : Type} (l : list A) (a b : nat) : list A :=
  firstn (b - a) (skipn a l).

(** [np.linalg.norm(np.diff(positions, axis=0), axis=1) > gap_threshold]. *)
Fixpoint gap_flags (positions : list Point) (gap_threshold : Q) : list bool :=
  match positions with
  | p :: (q :: _) as rest => norm_gt q p gap_threshold :: gap_flags rest gap_threshold
  | _ => []
  end.

(** [np.where(flags)[0] + 1], the flags starting at index [i]. *)
Fixpoint where_plus_one (flags : list bool) (i : nat) : list nat :=
  match flags with
  | [] => []
  | b :: flags' =>
    if b then (i + 1)%nat :: where_plus_one flags' (S i)
    else where_plus_one flags' (S i)
  end.

Definition split_indices (positions : list Point) (gap_threshold : Q)
    : list nat :=
  where_plus_one (gap_flags positions gap_threshold) 0.

(** The [for idx in split_indices] loop: [(segments, prev)]. *)
Definition split_step (positions : list Point)
    (st : list (list Point) * nat) (idx : nat) : list (list Point) * nat :=
  let (segments, prev) := st in
  if (2 <=? idx - prev)%nat
  then (segments ++ [slice positions prev idx], idx)
  else (segments, idx).

(** [split_at_gaps]. *)
Definition split_at_gaps (positions : list Point) (gap_threshold : Q)
    : list (list Point) :=
  if (length positions <? 2)%nat then [positions]
  else
    let idxs := split_indices positions gap_threshold in
    if (length idxs =? 0)%nat then [positions]
    else
      let (segments, prev) :=
        fold_left (split_step positions) idxs ([], O) in
      if (2 <=? length positions - prev)%nat
      then segments ++ [skipn prev positions]
      else segments.

(** [sqrt s > t] for [s >= 0]. *)
Definition sqrt_gt (s t : Q) : bool := Qlt_bool t 0 || Qlt_bool (t * t) s.

Definition dot (ax ay az bx b_y bz : Q) : Q := ax * bx + ay * b_y + az * bz.

(** Square of [_point_to_line_distance(point, line_start, line_unit)] where
    [line_unit = line_vec / |line_vec|]: by Pythagoras
    [|v|^2 - (v . line_vec)^2 / |line_vec|^2] with [v = point - line_start]. *)
Definition sq_point_to_line_distance (point line_start line_end : Point) : Q :=
  let d := dot (px point - px line_start) (py point - py line_start)
               (pz point - pz line_start)
               (px line_end - px line_start) (py line_end - py line_start)
               (pz line_end - pz line_start) in
  sqdist point line_start - d * d / sqdist line_end line_start.

(** The scan for the farthest interior point: [(max_dist^2, max_idx)]. *)
Definition farthest (points : list Point) (start_ end_ : Point) : Q * nat :=
  fold_left
    (fun (acc : Q * nat) (i : nat) =>
       match nth_error points i with
       | Some p =>
         let dist2 := sq_point_to_line_distance p start_ end_ in
         if Qlt_bool (fst acc) dist2 then (dist2, i) else acc
       | None => acc
       end)
    (seq 1 (length points - 2)) (0, O).

Definition origin : Point := mkPoint 0 0 0.

Definition tiny_sq : Q := 1 # 100000000000000000000.

(** [_rdp_recursive]; [fuel] bounds the recursion depth. *)
Fixpoint _rdp_recursive (fuel : nat) (points : list Point) (epsilon : Q)
    : Result (list nat) :=
  match fuel with
  | O => Raise RecursionDepth
  | S fuel' =>
    let len := length points in
    if (len <? 3)%nat then Ok (seq 0 len)
    else
      let start_ := hd origin points in
      let end_ := last points origin in
      if Qlt_bool (sqdist end_ start_) tiny_sq then Ok [O; (len - 1)%nat]
      else
        let (max_dist2, max_idx) := farthest points start_ end_ in
        if sqrt_gt max_dist2 epsilon then
          left_indices <- _rdp_recursive fuel' (firstn (max_idx + 1) points) epsilon ;;
          right_indices <- _rdp_recursive fuel' (skipn max_idx points) epsilon ;;
          Ok (removelast left_indices
              ++ map (fun idx => (idx + max_idx)%nat) right_indices)
        else Ok [O; (len - 1)%nat]
  end.

(** [positions[indices]]. *)
Definition take_indices (positions : list Point) (indices : list nat)
    : list Point :=
  map (fun i => nth i positions origin) indices.

(** [simplify_path_rdp]; a recursion on [n] points is at most [n] deep
    when it returns at all. *)
Definition simplify_path_rdp (positions : list Point) (epsilon : Q)
    : Result (list Point) :=
  if (length positions <? 3)%nat then Ok positions
  else
    indices <- _rdp_recursive (length positions) positions epsilon ;;
    Ok (take_indices positions indices).

(** [start + t * (end - start)]. *)
Definition lerp (start_ end_ : Point) (t : Q) : Point :=
  mkPoint (px start_ + t * (px end_ - px start_))
          (py start_ + t * (py end_ - py start_))
          (pz start_ + t * (pz end_ - pz start_)).

(** [max(1, int(np.ceil(seg_length / spacing)))] for [seg_length > 0]:
    the least [n >= 1] with [n * spacing >= seg_length] when
    [spacing > 0]; 1 when [spacing < 0]; the quotient is infinite and
    [int] raises when [spacing = 0]. *)
Definition n_points (seg_sq spacing : Q) : Result nat :=
  if Qeq_bool spacing 0 then Raise CeilOverflow
  else if Qlt_bool spacing 0 then Ok 1%nat
  else Ok (Nat.max 1
             (Z.to_nat (Z.sqrt_up (Qceiling (seg_sq / (spacing * spacing)))))).

(** The body of the [for i in range(len(vertices) - 1)] loop. *)
Definition interpolate_segment (start_ end_ : Point) (spacing : Q)
    : Result (list Point) :=
  let seg_sq := sqdist end_ start_ in
  if Qlt_bool seg_sq tiny_sq then Ok []
  else
    n <- n_points seg_sq spacing ;;
    Ok (map (fun j => lerp start_ end_ (inject_Z (Z.of_nat j) / inject_Z (Z.of_nat n)))
            (seq 1 n)).

Fixpoint interpolate_from (start_ : Point) (rest : list Point) (spacing : Q)
    : Result (list Point) :=
  match rest with
  | [] => Ok []
  | end_ :: rest' =>
    pts <- interpolate_segment start_ end_ spacing ;;
    more <- interpolate_from end_ rest' spacing ;;
    Ok (pts ++ more)
  end.

(** [_interpolate_between_vertices] (called with at least one vertex). *)
Definition _interpolate_between_vertices (vertices : list Point) (spacing : Q)
    : Result (list Point) :=
  match vertices with
  | [] => Ok []
  | v0 :: rest =>
    pts <- interpolate_from v0 rest spacing ;;
    Ok (v0 :: pts)
  end.

(** The [for seg in segments] loop of [snap_to_lines]. *)
Fixpoint snap_segments (segments : list (list Point))
    (epsilon point_spacing : Q) : Result (list (list Point)) :=
  match segments with
  | [] => Ok []
  | seg :: rest =>
    r <- (if (length seg <? 2)%nat then Ok seg
          else
            vertices <- simplify_path_rdp seg epsilon ;;
            if (length vertices <? 2)%nat then Ok vertices
            else _interpolate_between_vertices vertices point_spacing) ;;
    rs <- snap_segments rest epsilon point_spacing ;;
    Ok (r :: rs)
  end.

(** [np.concatenate(arrays, axis=0)]. *)
Definition np_concatenate (arrays : list (list Point)) : Result (list Point) :=
  match arrays with
  | [] => Raise ConcatenateEmpty
  | _ => Ok (concat arrays)
  end.

(** [snap_to_lines]. *)
Definition snap_to_lines (positions : list Point)
    (epsilon point_spacing gap_threshold : Q) : Result (list Point) :=
  if (length positions <? 3)%nat then Ok positions
  else
    let segments := split_at_gaps positions gap_threshold in
    result_segments <- snap_segments segments epsilon point_spacing ;;
    np_concatenate result_segments.

End Flatten.

(* ------------------------------------------------------------------ *)
(** ** services/junction_detection.py                                  *)
(* ------------------------------------------------------------------ *)

Module Graph.

Import Geom Vertical.
Local Open Scope Q_scope.

Inductive NodeType : Type :=
| WAYPOINT | JUNCTION | ENDPOINT | POI_CANDIDATE | PASSAGE_ENTRY | PASSAGE_EXIT.

Inductive EdgeType : Type :=
| HORIZONTAL | VERTICAL_STAIRCASE | VERTICAL_ELEVATOR.

(** [PathNode] and its dictionary.  The [uuid4] identifiers are drawn from
    a counter that is threaded through the functions creating nodes and
    edges. *)
Record PathNode : Type := mkNode {
  node_id : nat;
  node_x : Q;
  node_y : Q;
  node_z : Q;
  node_type : NodeType;
  original_index : nat;
  floor_level : option Z
}.

(** [PathEdge] and its dictionary; [distance] is a length in metres. *)
Record PathEdge : Type := mkEdge {
  edge_id : nat;
  from_node_id : nat;
  to_node_id : nat;
  distance : R;
  is_bidirectional : bool;
  edge_type : EdgeType
}.

Definition NODE_SPACING : Q := 1.
Definition JUNCTION_MERGE_RADIUS : Q := 3 # 2.
Definition MIN_BRANCH_LENGTH : nat := 3.
Definition EDGE_CONNECTION_RADIUS : R := 3%R.

Definition node_point (n : PathNode) : Point :=
  mkPoint (node_x n) (node_y n) (node_z n).

Definition point_at (positions : list Point) (i : nat) : Point :=
  nth i positions (mkPoint 0 0 0).

(** *** Junction detection *)

(** [_angle_between_vectors(v1, v2) >= 45.0] for [v1 = b - a] and
    [v2 = c - b].  The angle is 0 when either vector is shorter than 1e-10;
    otherwise it is at least 45 degrees exactly when the cosine
    [v1.v2 / (|v1| |v2|)] is at most [sqrt 2 / 2], that is when [v1.v2 <= 0]
    or [2 (v1.v2)^2 <= |v1|^2 |v2|^2]. *)
Definition turn_at_least_45 (a b c : Point) : bool :=
  let tiny := 1 # 100000000000000000000 in
  let len1 := sqdist b a in
  let len2 := sqdist c b in
  if Qlt_bool len1 tiny || Qlt_bool len2 tiny then false
  else
    let d := (px b - px a) * (px c - px b) + (py b - py a) * (py c - py b)
             + (pz b - pz a) * (pz c - pz b) in
    Qle_bool d 0 || Qle_bool (2 * d * d) (len1 * len2).

(** A junction dictionary, restricted to the keys that are read again
    ([angle_change] and the direction vectors are only stored). *)
Record Junction : Type := mkJunction {
  j_index : nat;
  j_position : Point
}.

(** Step 2 of [detect_junctions] with [angle_threshold = 45.0]. *)
Definition junction_candidates (positions : list Point)
    (min_branch_points : nat) : list Junction :=
  let n := length positions in
  flat_map
    (fun i =>
       if turn_at_least_45 (point_at positions (i - 1)) (point_at positions i)
            (point_at positions (i + 1))
          && (min_branch_points <=? i)%nat
          && (min_branch_points <=? n - i - 1)%nat
       then [mkJunction i (point_at positions i)]
       else [])
    (seq 1 (n - 1 - 2)).

(** Loop state of [_merge_nearby_junctions]: the [used] set as an array and
    the [merged] list. *)
Definition mean_position (group : list Junction) : Point :=
  let k := nq (length group) in
  mkPoint (qsum (map (fun g => px (j_position g)) group) / k)
          (qsum (map (fun g => py (j_position g)) group) / k)
          (qsum (map (fun g => pz (j_position g)) group) / k).

(** The inner [for k, j2 in enumerate(junctions)] loop: [(used, group)]. *)
Definition gather (junctions : list Junction) (merge_radius : Q)
    (pos1 : Point) (used : list bool) (group : list Junction)
    : list bool * list Junction :=
  fold_left
    (fun (st : list bool * list Junction) (kj : nat * Junction) =>
       let (used, group) := st in
       if nth (fst kj) used false then st
       else if norm_lt pos1 (j_position (snd kj)) merge_radius
            then (Dedup.set_nth (fst kj) true used, group ++ [snd kj])
            else st)
    (combine (seq 0 (length junctions)) junctions) (used, group).

(** [_merge_nearby_junctions]. *)
Definition _merge_nearby_junctions (junctions : list Junction)
    (merge_radius : Q) : list Junction :=
  if (length junctions <? 2)%nat then junctions
  else
    snd (fold_left
      (fun (st : list bool * list Junction) (ij : nat * Junction) =>
         let (used, merged) := st in
         if nth (fst ij) used false then st
         else
           let j1 := snd ij in
           let (used', group) :=
             gather junctions merge_radius (j_position j1)
                    (Dedup.set_nth (fst ij) true used) [j1] in
           match group with
           | [g] => (used', merged ++ [g])
           | _ => (used', merged ++ [mkJunction (j_index (hd j1 group))
                                                (mean_position group)])
           end)
      (combine (seq 0 (length junctions)) junctions)
      (repeat false (length junctions), [])).

(** [detect_junctions(positions)] with the default parameters. *)
Definition detect_junctions (positions : list Point) : list Junction :=
  if (length positions <? 5)%nat then []
  else _merge_nearby_junctions
         (junction_candidates positions MIN_BRANCH_LENGTH)
         JUNCTION_MERGE_RADIUS.

(** *** Node extraction *)

Definition make_node (id : nat) (pos : Point) (t : NodeType) (i : nat)
    (floor : option Z) : PathNode :=
  mkNode id (px pos) (py pos) (pz pos) t i floor.

(** The [for i in range(1, len(positions) - 1)] loop over the interior
    points [pts], the first of which has index [i]. *)
Fixpoint interior_nodes (pts : list Point) (i : nat)
    (junction_indices : list nat) (node_spacing : Q) (floor : option Z)
    (last_node_pos : Point) (next_id : nat) : list PathNode * nat :=
  match pts with
  | [] => ([], next_id)
  | pos :: rest =>
    if existsb (Nat.eqb i) junction_indices then
      let (nodes, next') :=
        interior_nodes rest (S i) junction_indices node_spacing floor pos
          (S next_id) in
      (make_node next_id pos JUNCTION i floor :: nodes, next')
    else if norm_ge pos last_node_pos node_spacing then
      let (nodes, next') :=
        interior_nodes rest (S i) junction_indices node_spacing floor pos
          (S next_id) in
      (make_node next_id pos WAYPOINT i floor :: nodes, next')
    else
      interior_nodes rest (S i) junction_indices node_spacing floor
        last_node_pos next_id
  end.

(** [extract_path_nodes] with the junctions given. *)
Definition extract_path_nodes (positions : list Point)
    (junctions : list Junction) (node_spacing : Q) (floor : option Z)
    (next_id : nat) : list PathNode * nat :=
  if (length positions <? 2)%nat then ([], next_id)
  else
    let junction_indices := map j_index junctions in
    let first := point_at positions 0 in
    let end_idx := (length positions - 1)%nat in
    let (middle, next') :=
      interior_nodes (removelast (tl positions)) 1 junction_indices
        node_spacing floor first (S next_id) in
    (make_node next_id first ENDPOINT 0 floor
       :: middle
       ++ [make_node next' (point_at positions end_idx) ENDPOINT end_idx floor],
     S next').

(** *** Edge extraction *)

(** The sum of the [len] segment lengths from index [start_]; [None] is the
    [IndexError] of reading past the end of [positions]. *)
Fixpoint path_sum (positions : list Point) (start_ len : nat) : option R :=
  match len with
  | O => Some 0%R
  | S len' =>
    match nth_error positions start_, nth_error positions (S start_),
          path_sum positions (S start_) len' with
    | Some p, Some q, Some d => Some (norm q p + d)%R
    | _, _, _ => None
    end
  end.

(** [_calculate_path_distance]. *)
Definition _calculate_path_distance (positions : list Point)
    (start_idx end_idx : nat) : option R :=
  if (end_idx <=? start_idx)%nat then Some 0%R
  else path_sum positions start_idx (end_idx - start_idx).

Fixpoint insert_node (n : PathNode) (l : list PathNode) : list PathNode :=
  match l with
  | [] => [n]
  | m :: l' =>
    if (original_index m <=? original_index n)%nat
    then m :: insert_node n l'
    else n :: l
  end.

(** [sorted(nodes, key=lambda n: n.original_index)] (stable). *)
Definition sort_nodes (nodes : list PathNode) : list PathNode :=
  fold_left (fun acc n => insert_node n acc) nodes [].

Definition Rle_bool (x y : R) : bool :=
  if Rle_dec x y then true else false.

(** The [for i in range(len(sorted_nodes) - 1)] loop. *)
Fixpoint connect (sorted_nodes : list PathNode) (positions : list Point)
    (max_distance : R) (next_id : nat) : option (list PathEdge * nat) :=
  match sorted_nodes with
  | node1 :: ((node2 :: _) as rest) =>
    match _calculate_path_distance positions (original_index node1)
            (original_index node2) with
    | None => None
    | Some path_distance =>
      if Rle_bool path_distance max_distance then
        match connect rest positions max_distance (S next_id) with
        | Some (edges, next') =>
          Some (mkEdge next_id (node_id node1) (node_id node2) path_distance
                       true HORIZONTAL :: edges, next')
        | None => None
        end
      else connect rest positions max_distance next_id
    end
  | _ => Some ([], next_id)
  end.

(** [extract_path_edges]. *)
Definition extract_path_edges (nodes : list PathNode)
    (positions : list Point) (max_distance : R) (next_id : nat)
    : option (list PathEdge * nat) :=
  if (length nodes <? 2)%nat then Some ([], next_id)
  else connect (sort_nodes nodes) positions max_distance next_id.

(** [build_path_graph(positions, floor_level)]. *)
Definition build_path_graph (positions : list Point) (floor : option Z)
    (next_id : nat) : option (list PathNode * list PathEdge * nat) :=
  let junctions := detect_junctions positions in
  let (nodes, next1) :=
    extract_path_nodes positions junctions NODE_SPACING floor next_id in
  match extract_path_edges nodes positions EDGE_CONNECTION_RADIUS next1 with
  | Some (edges, next2) => Some (nodes, edges, next2)
  | None => None
  end.

(** *** Statistics and floor merging *)

Definition Rsum (l : list R) : R := fold_right Rplus 0%R l.

Record GraphStats : Type := mkStats {
  total_nodes : nat;
  total_edges : nat;
  total_path_distance : R;
  average_edge_length : R;
  junction_count : nat;
  endpoint_count : nat
}.



Definition option_Z_eqb (a b : option Z) : bool :=
  match a, b with
  | Some x, Some y => (x =? y)%Z
  | None, None => true
  | _, _ => false
  end.

(** [_find_nearest_node_to_position]: the first node of least distance
    among those passing the floor filter. *)
Definition _find_nearest_node_to_position (nodes : list PathNode)
    (position : option Point) (floor : option Z) : option PathNode :=
  match position, nodes with
  | None, _ => None
  | _, [] => None
  | Some target, _ =>
    fst (fold_left
      (fun (st : option PathNode * option Q) node =>
         if (match floor with Some _ => true | None => false end)
            && negb (option_Z_eqb (floor_level node) floor)
         then st
         else
           let dist2 := sqdist target (node_point node) in
           match snd st with
           | None => (Some node, Some dist2)          (* min_dist = inf *)
           | Some min_dist2 =>
             if Qlt_bool dist2 min_dist2 then (Some node, Some dist2) else st
           end)
      nodes (None, None))
  end.

Definition vertical_edge_type (t : PassageType) : EdgeType :=
  match t with
  | STAIRCASE => VERTICAL_STAIRCASE
  | ELEVATOR => VERTICAL_ELEVATOR
  end.

(** A floor graph: level, nodes, edges. *)
Definition FloorGraph : Type := (Z * (list PathNode * list PathEdge))%type.

(** The [for passage in vertical_passages] loop of [merge_floor_graphs]. *)
Fixpoint connect_passages (all_nodes : list PathNode)
    (passages : list Passage) (next_id : nat) : list PathEdge * nat :=
  match passages with
  | [] => ([], next_id)
  | passage :: rest =>
    let entry_node :=
      _find_nearest_node_to_position all_nodes (entry_point passage)
        (from_floor passage) in
    let exit_node :=
      _find_nearest_node_to_position all_nodes (exit_point passage)
        (to_floor passage) in
    match entry_node, exit_node with
    | Some en, Some ex =>
      let (edges, next') := connect_passages all_nodes rest (S next_id) in
      (mkEdge next_id (node_id en) (node_id ex)
              (Q2R (z_displacement passage)) true
              (vertical_edge_type (p_type passage)) :: edges, next')
    | _, _ => connect_passages all_nodes rest next_id
    end
  end.

(** [merge_floor_graphs]. *)
Definition merge_floor_graphs (floor_graphs : list FloorGraph)
    (vertical_passages : list Passage) (next_id : nat)
    : list PathNode * list PathEdge * nat :=
  let all_nodes := flat_map (fun fg => fst (snd fg)) floor_graphs in
  let floor_edges := flat_map (fun fg => snd (snd fg)) floor_graphs in
  let (vertical_edges, next') :=
    connect_passages all_nodes vertical_passages next_id in
  (all_nodes, floor_edges ++ vertical_edges, next').

End Graph.

(* ------------------------------------------------------------------ *)
(** ** main.py: graph stage and result document                        *)
(* ------------------------------------------------------------------ *)

Module Main.

Import Geom Vertical Graph.
Local Open Scope Q_scope.

Record Segment : Type := mkSegment {
  sequence_order : nat;
  start_point : Point;
  end_point : Point;
  seg_length : R
}.

Record Bounds : Type := mkBounds {
  min_x : Q; max_x : Q; min_y : Q; max_y : Q
}.

(** The floor label: the level followed by the storey sign for positive
    levels, storey 1 for level 0, and "B" with the absolute value below
    ground. *)
Inductive FloorName : Type :=
| Storey (n : Z)
| Basement (n : Z).

Record FloorPath : Type := mkFloorPath {
  fp_floor_level : Z;
  fp_floor_name : FloorName;
  fp_segments : list Segment;
  fp_bounds : Bounds;
  fp_total_distance : R
}.

Record PassageResult : Type := mkPassageResult {
  pr_type : PassageType;
  pr_from_floor_level : Z;
  pr_to_floor_level : Z;
  pr_segments : list Segment;
  pr_entry_point : Point;
  pr_exit_point : Point
}.

(** The result document, without the job identifier, the preview paths and
    the trajectory statistics. *)
Record ProcessingResult : Type := mkResult {
  r_total_nodes : nat;
  r_total_distance : R;
  r_floor_paths : list FloorPath;
  r_vertical_passages : list PassageResult;
  r_path_nodes : list PathNode;
  r_path_edges : list PathEdge;
  r_stats : GraphStats
}.

(** The [for i in range(len(positions) - 1)] loop building [segments],
    from index [i]. *)
Fixpoint segments_from (positions : list Point) (i : nat) : list Segment :=
  match positions with
  | start_ :: ((end_ :: _) as rest) =>
    mkSegment i start_ end_ (norm end_ start_) :: segments_from rest (S i)
  | _ => []
  end.

Definition floor_name_of (floor_level : Z) : FloorName :=
  if (0 <=? floor_level)%Z
  then Storey (if (0 <? floor_level)%Z then floor_level else 1%Z)
  else Basement (Z.abs floor_level).

(** [positions[:, 0].min()] and the like; an empty array raises. *)
Definition bounds_of (positions : list Point) : option Bounds :=
  match positions with
  | [] => None
  | _ =>
    Some (mkBounds (list_min (map px positions)) (list_max (map px positions))
                   (list_min (map py positions)) (list_max (map py positions)))
  end.

(** The loop over [smoothed_floors.items()]: the floor entries and the
    running [total_distance]. *)
Fixpoint floor_paths_of (smoothed_floors : list (Z * list Point))
    (total_distance : R) : option (list FloorPath * R) :=
  match smoothed_floors with
  | [] => Some ([], total_distance)
  | (floor_level, positions) :: rest =>
    let segments := segments_from positions 0 in
    let total' := fold_left (fun acc s => (acc + seg_length s)%R) segments
                    total_distance in
    match bounds_of positions with
    | None => None
    | Some bounds =>
      let floor_distance := Rsum (map seg_length segments) in
      match floor_paths_of rest total' with
      | None => None
      | Some (paths, total) =>
        Some (mkFloorPath floor_level (floor_name_of floor_level) segments
                          bounds floor_distance :: paths, total)
      end
    end
  end.

Definition from_floor_or_0 (o : option Z) : Z :=
  match o with Some l => l | None => 0%Z end.

(** The loop over [vertical_passages]; [positions[0]] of an empty array
    raises. *)
Fixpoint passage_results_of (vertical_passages : list Passage)
    : option (list PassageResult) :=
  match vertical_passages with
  | [] => Some []
  | passage :: rest =>
    match p_positions passage with
    | [] => None
    | first :: _ =>
      match passage_results_of rest with
      | None => None
      | Some results =>
        Some (mkPassageResult (p_type passage)
                (from_floor_or_0 (from_floor passage))
                (from_floor_or_0 (to_floor passage))
                (segments_from (p_positions passage) 0)
                first (last (p_positions passage) first) :: results)
      end
    end
  end.

(** [_build_processing_result]; [None] stands for the exception raised on
    an empty floor or passage. *)
Definition _build_processing_result (raw_positions : list Point)
    (smoothed_floors : list (Z * list Point))
    (vertical_passages : list Passage)
    (all_nodes : list PathNode) (all_edges : list PathEdge)
    (graph_stats : GraphStats) : option ProcessingResult :=
  match floor_paths_of smoothed_floors 0%R with
  | None => None
  | Some (floor_paths, total_distance) =>
    match passage_results_of vertical_passages with
    | None => None
    | Some passage_results =>
      Some (mkResult (length raw_positions) total_distance floor_paths
                     passage_results all_nodes all_edges graph_stats)
    end
  end.

(** The loop [for floor_level, positions in smoothed_floors.items()] of the
    graph stage of [process_path_async]. *)
Fixpoint build_floor_graphs (smoothed_floors : list (Z * list Point))
    (next_id : nat) : option (list FloorGraph * nat) :=
  match smoothed_floors with
  | [] => Some ([], next_id)
  | (floor_level, positions) :: rest =>
    match build_path_graph positions (Some floor_level) next_id with
    | None => None
    | Some (nodes, edges, next1) =>
      match build_floor_graphs rest next1 with
      | None => None
      | Some (graphs, next2) =>
        Some ((floor_level, (nodes, edges)) :: graphs, next2)
      end
    end
  end.


End Main.

(* ------------------------------------------------------------------ *)
(** ** junction_detection.py: queries on a graph *)

Module GraphQueries.

Import Geom Graph.

(** [connection_count]: a dictionary from node identifiers to counts. *)
Definition Counts : Type := nat -> option nat.

Definition counts_set (cc : Counts) (k v : nat) : Counts :=
  fun k' => if (k' =? k)%nat then Some v else cc k'.

(** [{node['id']: 0 for node in nodes}]. *)
Definition zero_counts (nodes : list PathNode) : Counts :=
  fold_left (fun cc n => counts_set cc (node_id n) 0) nodes (fun _ => None).

(** [connection_count[k] += 1]; [None] is the [KeyError] of a missing
    key. *)
Definition increment (cc : Counts) (k : nat) : option Counts :=
  match cc k with
  | Some c => Some (counts_set cc k (S c))
  | None => None
  end.

(** The body of [for edge in edges]. *)
Definition count_edge (st : option Counts) (e : PathEdge) : option Counts :=
  match st with
  | None => None
  | Some cc =>
    match increment cc (from_node_id e) with
    | None => None
    | Some cc1 =>
      if is_bidirectional e then increment cc1 (to_node_id e) else Some cc1
    end
  end.

(** The loop [for node in nodes] collecting the nodes counted once. *)
Fixpoint collect_single (cc : Counts) (nodes : list PathNode)
    : option (list PathNode) :=
  match nodes with
  | [] => Some []
  | node :: rest =>
    match cc (node_id node), collect_single cc rest with
    | Some c, Some dead_ends =>
      Some (if (c =? 1)%nat then node :: dead_ends else dead_ends)
    | _, _ => None
    end
  end.

(** [find_dead_ends]. *)
Definition find_dead_ends (nodes : list PathNode) (edges : list PathEdge)
    : option (list PathNode) :=
  match fold_left count_edge edges (Some (zero_counts nodes)) with
  | None => None
  | Some connection_count => collect_single connection_count nodes
  end.

End GraphQueries.

(* ------------------------------------------------------------------ *)
(** ** vertical_detector.py: floor separation *)

Module Floors.

Import Geom Dedup Vertical.
Local Open Scope Q_scope.

(** A value of the dictionary returned by [separate_floors]. *)
Record FloorCluster : Type := mkCluster {
  fc_positions : list Point;
  fc_node_ids : list Z;
  fc_indices : list nat;
  fc_z_mean : Q;
  fc_z_min : Q;
  fc_z_max : Q;
  fc_point_count : nat
}.

(** [a[mask]] for a boolean array [mask]: the lengths must agree, or numpy
    raises an [IndexError] ([None]). *)
Definition bool_index {A : Type} (a : list A) (mask : list bool)
    : option (list A) :=
  if (length mask =? length a)%nat then Some (select a mask) else None.

(** [[l[i] for i in range(len(l)) if mask[i]]]: reading [mask[i]] past the
    end of [mask] is an [IndexError]. *)
Definition list_where {A : Type} (l : list A) (mask : list bool)
    : option (list A) :=
  if (length l <=? length mask)%nat then Some (select l mask) else None.

(** [np.where(mask)[0]]. *)
Definition where_true (mask : list bool) : list nat :=
  select (seq 0 (length mask)) mask.

(** [np.unique(levels)]: the values present, in ascending order. *)
Definition unique (levels : list nat) : list nat :=
  filter (fun l => existsb (Nat.eqb l) levels)
         (seq 0 (S (fold_right Nat.max 0%nat levels))).

(** [np.mean]. *)
Definition np_mean (l : list Q) : Q := qsum l / nq (length l).

(** The body of [for level in unique_levels]; [Some None] is the
    [continue] of a level with too few points. *)
Definition level_cluster (floor_positions : list Point)
    (floor_node_ids : list Z) (original_indices : list nat)
    (floor_levels : list nat) (min_points_per_floor : nat) (level : nat)
    : option (option FloorCluster) :=
  let mask := map (fun l => (l =? level)%nat) floor_levels in
  match bool_index floor_positions mask with
  | None => None
  | Some level_positions =>
    if (length level_positions <? min_points_per_floor)%nat then Some None
    else
      match list_where floor_node_ids mask,
            bool_index original_indices mask with
      | Some level_node_ids, Some level_indices =>
        let zs := map pz level_positions in
        Some (Some (mkCluster level_positions level_node_ids level_indices
                              (np_mean zs) (list_min zs) (list_max zs)
                              (length level_positions)))
      | _, _ => None
      end
  end.

(** The loop [for level in unique_levels] collecting [valid_clusters]. *)
Fixpoint valid_clusters_of (floor_positions : list Point)
    (floor_node_ids : list Z) (original_indices : list nat)
    (floor_levels : list nat) (min_points_per_floor : nat)
    (levels : list nat) : option (list FloorCluster) :=
  match levels with
  | [] => Some []
  | level :: rest =>
    match level_cluster floor_positions floor_node_ids original_indices
            floor_levels min_points_per_floor level with
    | None => None
    | Some cluster =>
      match valid_clusters_of floor_positions floor_node_ids
              original_indices floor_levels min_points_per_floor rest with
      | None => None
      | Some clusters =>
        Some (match cluster with
              | Some c => c :: clusters
              | None => clusters
              end)
      end
    end
  end.

Fixpoint insert_cluster (c : FloorCluster) (l : list FloorCluster)
    : list FloorCluster :=
  match l with
  | [] => [c]
  | d :: l' =>
    if Qle_bool (fc_z_mean d) (fc_z_mean c)
    then d :: insert_cluster c l'
    else c :: l
  end.

(** [valid_clusters.sort(key=lambda c: c['z_mean'])] (stable). *)
Definition sort_clusters (clusters : list FloorCluster)
    : list FloorCluster :=
  fold_left (fun acc c => insert_cluster c acc) clusters [].

(** Step 1 of [separate_floors]: the positions, node identifiers and
    original indices outside the vertical passages. *)
Definition floor_points (positions : list Point) (node_ids : list Z)
    (stair_mask : option (list bool))
    : option (list Point * list Z * list nat) :=
  match stair_mask with
  | Some mask =>
    let floor_mask := map negb mask in
    match bool_index positions floor_mask,
          list_where node_ids floor_mask with
    | Some floor_positions, Some floor_node_ids =>
      Some (floor_positions, floor_node_ids, where_true floor_mask)
    | _, _ => None
    end
  | None => Some (positions, node_ids, seq 0 (length positions))
  end.

(** [separate_floors] for a positive [height_threshold]; the dictionary is
    listed in the order of its keys, which is the order of insertion.
    [kernel] holds the weights of the Gaussian filter. *)
Definition separate_floors (kernel : list Q) (positions : list Point)
    (node_ids : list Z) (height_threshold : Q)
    (min_points_per_floor : nat) (stair_mask : option (list bool))
    : option (list (Z * FloorCluster)) :=
  match floor_points positions node_ids stair_mask with
  | None => None
  | Some (floor_positions, floor_node_ids, original_indices) =>
    if (length floor_positions =? 0)%nat then Some []
    else
      let z_values := map pz floor_positions in
      let floor_levels :=
        _cluster_z_values kernel z_values height_threshold in
      match valid_clusters_of floor_positions floor_node_ids
              original_indices floor_levels min_points_per_floor
              (unique floor_levels) with
      | None => None
      | Some valid_clusters =>
        let sorted_clusters := sort_clusters valid_clusters in
        Some (combine (map (fun i => Z.of_nat (i + 1))
                           (seq 0 (length sorted_clusters)))
                      sorted_clusters)
      end
  end.

(** What [assign_floors_to_stairs] reads of the result. *)
Definition floors_data_of (floors : list (Z * FloorCluster)) : FloorsData :=
  map (fun f => (fst f, fc_z_mean (snd f))) floors.

End Floors.

(* ------------------------------------------------------------------ *)
(** ** smoothing.py: outlier removal *)

Module Smoothing.

Import Geom Graph.
Local Open Scope R_scope.


(** [np.linalg.norm(np.diff(positions, axis=0), axis=1)]. *)
Fixpoint step_lengths (positions : list Point) : list R :=
  match positions with
  | a :: ((b :: _) as rest) => norm b a :: step_lengths rest
  | _ => []
  end.

(** [np.mean]. *)
Definition mean (l : list R) : R := Rsum l / INR (length l).

(** [np.std]: the root of the mean squared deviation from the mean. *)
Definition std (l : list R) : R :=
  sqrt (mean (map (fun d => (d - mean l) * (d - mean l)) l)).

Definition Rgt_bool (x y : R) : bool :=
  if Rlt_dec y x then true else false.

(** [(a + c) / 2]. *)
Definition midpoint (a c : Point) : Point :=
  mkPoint ((px a + px c) / 2)%Q ((py a + py c) / 2)%Q ((pz a + pz c) / 2)%Q.

(** The loop [for i in range(1, len(positions) - 1)] over the points that
    follow [prev] in [positions]; the neighbours are read from
    [positions], not from [result]. *)
Fixpoint replace_outliers (threshold : R) (prev : Point) (rest : list Point)
    : list Point :=
  match rest with
  | cur :: ((next :: _) as rest') =>
    (if Rgt_bool (norm cur prev) threshold
        || Rgt_bool (norm next cur) threshold
     then midpoint prev next
     else cur) :: replace_outliers threshold cur rest'
  | _ => rest
  end.

(** [remove_outliers]. *)
Definition remove_outliers (positions : list Point) (threshold_std : R)
    : list Point :=
  if (length positions <? 5)%nat then positions
  else
    let distances := step_lengths positions in
    let mean_dist := mean distances in
    let std_dist := std distances in
    let threshold := mean_dist + threshold_std * std_dist in
    match positions with
    | first :: rest => first :: replace_outliers threshold first rest
    | [] => []
    end.

(** [_calculate_path_length]. *)
Definition _calculate_path_length (positions : list Point) : R :=
  if (length positions <? 2)%nat then 0
  else Rsum (step_lengths positions).

End Smoothing.

(* ------------------------------------------------------------------ *)
(** ** extraction.py: trajectory statistics *)

Module TrajectoryStats.

Import Geom Vertical Graph Smoothing.
Local Open Scope R_scope.



End TrajectoryStats.

(* ====================================================================== *)
(** * Vocabulary of the properties                                       *)
(* ====================================================================== *)

(** The predicates in which the properties of the second part are stated,
    and the sample inputs on which they are evaluated.  None of these is
    part of the program. *)

Module DedupSpec.
Import Geom Dedup.

(** [j] lies in the closed ball of radius [t] around [positions[i]]. *)
Definition nb (positions : list Point) (t : Q) (i j : nat) : bool :=
  match nth_error positions i, nth_error positions j with
  | Some p, Some q => norm_le p q t
  | _, _ => false
  end.

(** Invariant of the outer loop of [deduplicate_path] after the indices
    below [k] were visited. *)
Record Inv (positions : list Point) (t : Q) (k : nat) (st : DedupState)
    : Prop := mkInv {
  inv_lk : length (keep_mask st) = length positions;
  inv_lv : length (visited st) = length positions;
  inv_lt : forall j, (j < k)%nat -> nth j (visited st) false = true;
  inv_ge : forall j, (k <= j)%nat -> (j < length positions)%nat ->
           nth j (visited st) false = negb (nth j (keep_mask st) true);
  inv_sep : forall i j, (i < k)%nat -> (j < length positions)%nat -> i <> j ->
            nth i (keep_mask st) true = true -> nb positions t i j = true ->
            nth j (keep_mask st) true = false
}.

(** Points at distinct indices are farther apart than [t]. *)
Definition separated (t : Q) (u : list Point) : Prop :=
  forall i j p q, i <> j ->
    nth_error u i = Some p -> nth_error u j = Some q ->
    norm_le p q t = false.

Local Open Scope Q_scope.

(** Six points of a floor: from (4, 0.75) out to (0.25, 1), back past
    (2.25, 0.5) to (4.5, 0.25), and on to (3, 0).  No two of them are at
    distance 0.5 or 1 from each other, or near it. *)
Definition floor6 : list Point :=
  map (fun xy => mkPoint (fst xy) (snd xy) 0)
    [ (4, 3 # 4); (2, 3 # 4); (1 # 4, 1); (9 # 4, 1 # 2); (9 # 2, 1 # 4);
      (3, 0) ].

(** Four points on a line, a metre and a half apart. *)
Definition line4 : list Point :=
  map (fun x => mkPoint x 0 0) [0; 3 # 2; 3; 9 # 2].

(** Eight metres out in steps of 2 m, back to x = 0.5 and on to x = 20. *)
Definition out_and_back : list Point :=
  map (fun x => mkPoint x 0 0) [0; 2; 4; 6; 8; 1 # 2; 20].

End DedupSpec.

Module ExtractionSpec.
Import Geom Extraction.

(** The translation column of the decoded pose of a row. *)
Definition translation (row : Row) : option (float * float * float) :=
  get_position_from_matrix (extract_pose (snd row)).

(** The reader's decision for one row, as the loop body takes it. *)
Definition keeps (row : Row) : bool := is_valid_position (translation row).


(** Sample blobs. *)
Definition f32_one : list Byte.byte := [Byte.x00; Byte.x00; Byte.x80; Byte.x3f].
Definition f32_zero : list Byte.byte := [Byte.x00; Byte.x00; Byte.x00; Byte.x00].
Definition f32_nan : list Byte.byte := [Byte.x00; Byte.x00; Byte.xc0; Byte.x7f].
Definition f32_inf : list Byte.byte := [Byte.x00; Byte.x00; Byte.x80; Byte.x7f].
(** 2^-20, just under 1e-6. *)
Definition f32_tiny : list Byte.byte := [Byte.x00; Byte.x00; Byte.x80; Byte.x35].

(** A pose with rotation entries [r] and translation [(tx, ty, tz)]. *)
Definition pose_blob (r tx ty tz : list Byte.byte) : list Byte.byte :=
  r ++ r ++ r ++ tx ++ r ++ r ++ r ++ ty ++ r ++ r ++ r ++ tz.

End ExtractionSpec.

Module FlattenSpec.
Import Geom Flatten.

Local Open Scope Q_scope.

(** The gap-separated runs: the slices of [positions] between consecutive
    split indices, starting at [prev]. *)
Fixpoint runs_between (positions : list Point) (prev : nat)
    (idxs : list nat) : list (list Point) :=
  match idxs with
  | [] => [skipn prev positions]
  | idx :: rest => slice positions prev idx :: runs_between positions idx rest
  end.

Definition gap_runs (positions : list Point) (gap_threshold : Q)
    : list (list Point) :=
  runs_between positions 0 (split_indices positions gap_threshold).

Definition long_enough (run : list Point) : bool := (2 <=? length run)%nat.

(** Every consecutive pair of points is farther apart than the threshold. *)
Definition all_gaps (positions : list Point) (gap_threshold : Q) : Prop :=
  forall i p q,
    nth_error positions i = Some p ->
    nth_error positions (S i) = Some q ->
    norm_gt q p gap_threshold = true.

(** Three points, ten metres apart. *)
Definition far3 : list Point :=
  [mkPoint 0 0 0; mkPoint 10 0 0; mkPoint 20 0 0].

End FlattenSpec.

Module VerticalSpec.
Import Geom Vertical.

Local Open Scope Q_scope.


(** Step 1 with the default parameters: the mask of vertical points. *)
Definition default_mask (positions : list Point) : list bool :=
  changing_z positions Z_CHANGE_THRESHOLD WINDOW_SIZE MIN_TOTAL_Z_CHANGE.

(** The grouping of Step 2: the contiguous vertical runs of a
    trajectory. *)
Definition default_runs (positions : list Point) : list (nat * nat) :=
  vertical_runs (default_mask positions).




Definition well_classified (p : Passage) : Prop :=
  p_type p = classify (xy_z_ratio p).

(** Two rises of 2 m, the second 12 m below the first, four and five
    samples of standstill around the drop (31 points). *)
Definition two_rises : list Point :=
  map (fun z => mkPoint 0 0 z)
    (map (fun k => (2 # 10) * nq k) (seq 0 11)
     ++ repeat 2 4 ++ repeat (-10) 5
     ++ map (fun k => -10 + (2 # 10) * nq k) (seq 0 11)).

(** [n] points half a metre apart along x at height [z]. *)
Definition flat (n : nat) (x0 z : Q) : list Point :=
  map (fun k => mkPoint (x0 + (1 # 2) * nq k) 0 z) (seq 0 n).

(** [n] points climbing by [dz] and advancing by [dx] per step. *)
Definition climb (n : nat) (x0 dx z0 dz : Q) : list Point :=
  map (fun k => mkPoint (x0 + dx * nq (S k)) 0 (z0 + dz * nq (S k)))
      (seq 0 n).

(** 50 points on z = 0, 10 points climbing to z = 3 over 3 m, 50 points on
    z = 3. *)
Definition two_floors_and_stairs : list Point :=
  flat 50 0 0 ++ climb 10 (49 # 2) (3 # 10) 0 (3 # 10) ++ flat 50 28 3.

End VerticalSpec.

Module ClusterSpec.
Import Geom Vertical.

Local Open Scope Q_scope.

Definition z_range (z_values : list Q) : Q :=
  list_max z_values - list_min z_values.



End ClusterSpec.

Module GraphSpec.
Import Geom Vertical Graph.

Local Open Scope Q_scope.

(** [(b - a) . (c - b)]. *)
Definition turn_dot (a b c : Point) : Q :=
  (px b - px a) * (px c - px b) + (py b - py a) * (py c - py b)
  + (pz b - pz a) * (pz c - pz b).


(** The last node of the list whose index is below [idx]: for the output of
    [extract_path_nodes], the node emitted last before index [idx]. *)
Fixpoint last_before (nodes : list PathNode) (idx : nat) : option PathNode :=
  match nodes with
  | [] => None
  | nd :: rest =>
    match last_before rest idx with
    | Some m => Some m
    | None => if (original_index nd <? idx)%nat then Some nd else None
    end
  end.

Definition emitted_at (nodes : list PathNode) (i : nat) : Prop :=
  exists nd, In nd nodes /\ original_index nd = i.

Definition interior_type (junction_indices : list nat) (i : nat) : NodeType :=
  if existsb (Nat.eqb i) junction_indices then JUNCTION else WAYPOINT.

(** An L-shaped corridor: 3 m along x, then 2.5 m along y, a point every
    half metre. *)
Definition corridor : list Point :=
  map (fun xy => mkPoint (fst xy) (snd xy) 0)
      [ (0, 0); (1 # 2, 0); (1, 0); (3 # 2, 0); (2, 0); (5 # 2, 0); (3, 0);
        (3, 1 # 2); (3, 1); (3, 3 # 2); (3, 2); (3, 5 # 2) ].

(** The length of the [len] segments from index [start_], read with a
    default point. *)
Fixpoint plen (positions : list Point) (start_ len : nat) : R :=
  match len with
  | O => 0%R
  | S len' =>
    (norm (point_at positions (S start_)) (point_at positions start_)
     + plen positions (S start_) len')%R
  end.

(** Later in the list: larger index and larger identifier. *)
Definition lt_node (a b : PathNode) : Prop :=
  (original_index a < original_index b)%nat /\ (node_id a < node_id b)%nat.

(** An edge joins two nodes of the list along the polyline. *)
Definition joins (positions : list Point) (nodes : list PathNode)
    (e : PathEdge) : Prop :=
  edge_type e = HORIZONTAL
  /\ exists n1 n2,
       In n1 nodes /\ In n2 nodes
       /\ from_node_id e = node_id n1 /\ to_node_id e = node_id n2
       /\ (original_index n1 < original_index n2)%nat
       /\ distance e = plen positions (original_index n1)
                         (original_index n2 - original_index n1).

Definition no_passage_points (p : Passage) : Prop :=
  entry_point p = None /\ exit_point p = None.

(** Three points one metre apart. *)
Definition three_points : list Point :=
  [mkPoint 0 0 0; mkPoint 1 0 0; mkPoint 2 0 0].

(** The floor filter of [_find_nearest_node_to_position]. *)
Definition on_floor (floor : option Z) (nd : PathNode) : bool :=
  match floor with
  | Some _ => option_Z_eqb (floor_level nd) floor
  | None => true
  end.

(** The state of the nearest-node scan after the nodes [seen]. *)
Definition nearest_so_far (target : Point) (floor : option Z)
    (seen : list PathNode) (st : option PathNode * option Q) : Prop :=
  match st with
  | (Some best, Some d) =>
    In best seen /\ on_floor floor best = true
    /\ d = sqdist target (node_point best)
    /\ forall nd, In nd seen -> on_floor floor nd = true ->
                   d <= sqdist target (node_point nd)
  | (None, None) => forall nd, In nd seen -> on_floor floor nd = false
  | _ => False
  end.

End GraphSpec.

Module MainSpec.
Import Geom Vertical Graph Main GraphSpec.

Local Open Scope R_scope.

(** The length of a polyline: the sum of the distances between consecutive
    points. *)
Definition polyline_length (positions : list Point) : R :=
  plen positions 0 (length positions - 1).




Definition two_points : list Point := [mkPoint 0 0 0; mkPoint 4 0 0].

End MainSpec.

Module ListSpec.

(** [l1] is [l2] with some elements left out, the order kept. *)
Inductive Subseq {A : Type} : list A -> list A -> Prop :=
| Subseq_nil : Subseq [] []
| Subseq_keep (x : A) (l1 l2 : list A) :
    Subseq l1 l2 -> Subseq (x :: l1) (x :: l2)
| Subseq_drop (x : A) (l1 l2 : list A) :
    Subseq l1 l2 -> Subseq l1 (x :: l2).

End ListSpec.

Module RdpSpec.
Import Geom Flatten.
Local Open Scope Q_scope.

(** The pairs of neighbours of a list of indices. *)
Fixpoint adjacent_pairs (l : list nat) : list (nat * nat) :=
  match l with
  | a :: ((b :: _) as rest) => (a, b) :: adjacent_pairs rest
  | _ => []
  end.

(** The points strictly between the indices [a] and [b] lie within
    [epsilon] of the line through [points[a]] and [points[b]], or these two
    are less than 1e-10 apart. *)
Definition within_eps (points : list Point) (epsilon : Q) (ab : nat * nat)
    : Prop :=
  let a := nth (fst ab) points origin in
  let b := nth (snd ab) points origin in
  sqdist b a < tiny_sq
  \/ forall k, (fst ab < k < snd ab)%nat ->
       sq_point_to_line_distance (nth k points origin) a b
       <= epsilon * epsilon.

(** Indices kept of an array of [n >= 2] points: from 0 to [n - 1],
    strictly increasing. *)
Definition rdp_indices (n : nat) (idxs : list nat) : Prop :=
  hd_error idxs = Some O /\ last idxs O = (n - 1)%nat
  /\ StronglySorted lt idxs.

(** An L-shaped walk with a small wobble on the first leg. *)
Definition wobbly_corner : list Point :=
  map (fun xy => mkPoint (fst xy) (snd xy) 0)
    [ (0, 0); (1, 1 # 10); (2, 0); (3, - (1 # 10)); (4, 0);
      (4, 1); (4, 2); (4, 3) ].

End RdpSpec.

Module GapSpec.
Import Geom Flatten.
Local Open Scope Q_scope.

(** No two consecutive points of the run are farther apart than the
    threshold. *)
Definition gap_free (run : list Point) (gap_threshold : Q) : Prop :=
  forall j p q,
    nth_error run j = Some p -> nth_error run (S j) = Some q ->
    norm_gt q p gap_threshold = false.

(** Two stretches of three points, 10 m apart. *)
Definition two_stretches : list Point :=
  map (fun x => mkPoint x 0 0) [0; 1; 2; 12; 13; 14].

End GapSpec.

Module InterpSpec.
Import Geom Flatten.
Local Open Scope Q_scope.

(** Equal coordinates (fractions are compared by value). *)
Definition same_point (p q : Point) : Prop :=
  px p == px q /\ py p == py q /\ pz p == pz q.

(** Walking from [prev] through [pts], no step is longer than
    [spacing]. *)
Fixpoint steps_within (spacing : Q) (prev : Point) (pts : list Point)
    : Prop :=
  match pts with
  | [] => True
  | p :: rest =>
    sqdist p prev <= spacing * spacing /\ steps_within spacing p rest
  end.

(** Consecutive vertices are at least 1e-10 apart. *)
Fixpoint distinct_steps (prev : Point) (rest : list Point) : Prop :=
  match rest with
  | [] => True
  | v :: rest' => tiny_sq <= sqdist v prev /\ distinct_steps v rest'
  end.

End InterpSpec.

Module PassageSpec.
Import Geom Vertical.
Local Open Scope Q_scope.

(** The test of [_merge_stair_segments]: same direction and fewer than
    [gap_threshold] points between the end of [a] and the start of [b]. *)
Definition mergeable (gap_threshold : Z) (a b : Passage) : bool :=
  direction_eqb (direction a) (direction b)
  && (Z.of_nat (start_idx b) - Z.of_nat (end_idx a) <? gap_threshold)%Z.

(** No passage of the list can be merged into its predecessor. *)
Fixpoint unmergeable (gap_threshold : Z) (prev : Passage)
    (l : list Passage) : Prop :=
  match l with
  | [] => True
  | b :: l' =>
    mergeable gap_threshold prev b = false /\ unmergeable gap_threshold b l'
  end.

(** A ramp of twelve points rising 5 cm per step. *)
Definition gentle_ramp : list Point :=
  map (fun k => mkPoint (nq k) 0 ((5 # 100) * nq k)) (seq 0 12).

(** [k] is the first index at which [peaks] is nearest to [z]. *)
Definition is_argmin (peaks : list Q) (z : Q) (k : nat) : Prop :=
  (k < length peaks)%nat
  /\ (forall j, (j < k)%nat ->
        Qabs (nth k peaks 0 - z) < Qabs (nth j peaks 0 - z))
  /\ (forall j, (k <= j < length peaks)%nat ->
        Qabs (nth k peaks 0 - z) <= Qabs (nth j peaks 0 - z)).

End PassageSpec.

Module NetworkSpec.
Import Geom Vertical Graph GraphQueries Main GraphSpec.
Local Open Scope Q_scope.

(** [best] is the first node of [nodes], among those passing the floor
    filter, at the least distance from [target]. *)
Definition first_nearest (target : Point) (floor : option Z)
    (nodes : list PathNode) (best : PathNode) : Prop :=
  on_floor floor best = true
  /\ exists l1 l2,
       nodes = l1 ++ best :: l2
       /\ (forall nd, In nd l1 -> on_floor floor nd = true ->
             (norm target (node_point best)
              < norm target (node_point nd))%R)
       /\ (forall nd, In nd l2 -> on_floor floor nd = true ->
             (norm target (node_point best)
              <= norm target (node_point nd))%R).

(** The state of the nearest-node scan after the nodes [seen], with the
    position of the node held. *)
Definition first_so_far (target : Point) (floor : option Z)
    (seen : list PathNode) (st : option PathNode * option Q) : Prop :=
  match st with
  | (Some best, Some d) =>
    d = sqdist target (node_point best) /\ on_floor floor best = true
    /\ exists l1 l2,
         seen = l1 ++ best :: l2
         /\ (forall nd, In nd l1 -> on_floor floor nd = true ->
               d < sqdist target (node_point nd))
         /\ (forall nd, In nd l2 -> on_floor floor nd = true ->
               d <= sqdist target (node_point nd))
  | (None, None) => forall nd, In nd seen -> on_floor floor nd = false
  | _ => False
  end.

(** The pairs of neighbours of a list. *)
Fixpoint consecutive {A : Type} (l : list A) : list (A * A) :=
  match l with
  | a :: ((b :: _) as rest) => (a, b) :: consecutive rest
  | _ => []
  end.

(** The length of the polyline between two nodes. *)
Definition path_between (positions : list Point) (ab : PathNode * PathNode)
    : R :=
  plen positions (original_index (fst ab))
       (original_index (snd ab) - original_index (fst ab)).

Definition within_radius (positions : list Point) (max_distance : R)
    (ab : PathNode * PathNode) : bool :=
  Rle_bool (path_between positions ab) max_distance.

(** What an edge connects, and its length. *)
Definition edge_ends (e : PathEdge) : nat * nat * R :=
  (from_node_id e, to_node_id e, distance e).

(** Two junction candidates that [_merge_nearby_junctions] keeps apart:
    the second is not within the merge radius of the first. *)
Definition apart (merge_radius : Q) (a b : Junction) : Prop :=
  norm_lt (j_position a) (j_position b) merge_radius = false.

Definition no_junction : Junction := mkJunction 0 (mkPoint 0 0 0).

(** The test of [detect_junctions] at index [i]. *)
Definition sharp_turn_at (positions : list Point) (i : nat) : bool :=
  turn_at_least_45 (point_at positions (i - 1)) (point_at positions i)
    (point_at positions (i + 1)).

(** A node with this identifier is in the list. *)
Definition known (nodes : list PathNode) (id : nat) : bool :=
  existsb (fun n => (node_id n =? id)%nat) nodes.

(** An edge one of whose counted ends is not a node of the list. *)
Definition dangling (nodes : list PathNode) (e : PathEdge) : bool :=
  negb (known nodes (from_node_id e))
  || (is_bidirectional e && negb (known nodes (to_node_id e))).

(** The number of edge ends counted at a node: the edges leaving it, and
    the bidirectional edges arriving at it. *)
Definition degree (edges : list PathEdge) (id : nat) : nat :=
  (length (filter (fun e => (from_node_id e =? id)%nat) edges)
   + length (filter (fun e => is_bidirectional e
                              && (to_node_id e =? id)%nat) edges))%nat.

(** The counts held by the dictionary are [c] on the known identifiers. *)
Definition holds (nodes : list PathNode) (cc : Counts) (c : nat -> nat)
    : Prop :=
  forall id, cc id = if known nodes id then Some (c id) else None.

(** The edge joins two nodes of the list. *)
Definition joins_nodes (nodes : list PathNode) (e : PathEdge) : Prop :=
  exists n1 n2,
    In n1 nodes /\ In n2 nodes
    /\ from_node_id e = node_id n1 /\ to_node_id e = node_id n2
    /\ (edge_type e = HORIZONTAL -> floor_level n1 = floor_level n2).

(** The edge that [merge_floor_graphs] adds for a passage: from a node
    on the floor the passage leaves to a node on the floor it reaches. *)
Definition passage_edge (nodes : list PathNode) (passages : list Passage)
    (e : PathEdge) : Prop :=
  exists p en ex,
    In p passages /\ In en nodes /\ In ex nodes
    /\ on_floor (from_floor p) en = true
    /\ on_floor (to_floor p) ex = true
    /\ from_node_id e = node_id en /\ to_node_id e = node_id ex
    /\ distance e = Q2R (z_displacement p)
    /\ is_bidirectional e = true
    /\ edge_type e = vertical_edge_type (p_type p).

End NetworkSpec.

Module FloorsSpec.
Import Geom Dedup Vertical Floors.
Local Open Scope Q_scope.

Definition on_stairs (stair_mask : option (list bool)) (i : nat) : bool :=
  match stair_mask with
  | Some mask => nth i mask false
  | None => false
  end.

(** The cluster holds the points of [positions] at its indices, which
    ascend and avoid the vertical passages, with their node identifiers. *)
Definition taken_from (positions : list Point) (node_ids : list Z)
    (stair_mask : option (list bool)) (c : FloorCluster) : Prop :=
  StronglySorted lt (fc_indices c)
  /\ Forall (fun i => (i < length positions)%nat
                      /\ on_stairs stair_mask i = false) (fc_indices c)
  /\ fc_positions c = map (fun i => nth i positions (mkPoint 0 0 0))
                          (fc_indices c)
  /\ fc_node_ids c = map (fun i => nth i node_ids 0%Z) (fc_indices c)
  /\ fc_point_count c = length (fc_indices c).

(** The heights of the cluster lie between its [z_min] and [z_max], and so
    does its [z_mean]. *)
Definition z_summary (c : FloorCluster) : Prop :=
  Forall (fun p => fc_z_min c <= pz p <= fc_z_max c) (fc_positions c)
  /\ fc_z_min c <= fc_z_mean c <= fc_z_max c.

(** The input is consistent: as many node identifiers as positions, and a
    mask, when given, of the same length. *)
Definition consistent (positions : list Point) (node_ids : list Z)
    (stair_mask : option (list bool)) : Prop :=
  length node_ids = length positions
  /\ match stair_mask with
     | Some mask => length mask = length positions
     | None => True
     end.

(** The indices among [original_indices] whose point has the level
    [level], and the cluster built from them. *)
Definition level_indices (positions : list Point) (level_of : Q -> nat)
    (original_indices : list nat) (level : nat) : list nat :=
  filter (fun i => (level_of (pz (nth i positions (mkPoint 0 0 0)))
                    =? level)%nat)
         original_indices.

Definition cluster_at (positions : list Point) (node_ids : list Z)
    (level_of : Q -> nat) (original_indices : list nat) (level : nat)
    : FloorCluster :=
  let indices := level_indices positions level_of original_indices level in
  let level_positions :=
    map (fun i => nth i positions (mkPoint 0 0 0)) indices in
  let zs := map pz level_positions in
  mkCluster level_positions (map (fun i => nth i node_ids 0%Z) indices)
            indices (np_mean zs) (list_min zs) (list_max zs)
            (length level_positions).

(** Three points on the ground, two on the stairs, three points 4 m
    up. *)
Definition two_storeys : list Point :=
  map (fun xz => mkPoint (fst xz) 0 (snd xz))
    [ (0, 0); (1, 0); (2, 1 # 10); (3, 1); (3, 3); (3, 4); (2, 4);
      (1, 41 # 10) ].

Definition two_storeys_mask : list bool :=
  [false; false; false; true; true; false; false; false].

End FloorsSpec.

Module SmoothingSpec.
Import Geom Graph Smoothing.
Local Open Scope Q_scope.


(** Point [i] of the output is the input point, or the middle of the two
    input neighbours of an interior point. *)
Definition kept_or_averaged (positions out : list Point) (i : nat) : Prop :=
  nth i out (mkPoint 0 0 0) = nth i positions (mkPoint 0 0 0)
  \/ ((0 < i)%nat /\ (i + 1 < length positions)%nat
      /\ nth i out (mkPoint 0 0 0)
         = midpoint (nth (i - 1) positions (mkPoint 0 0 0))
                    (nth (i + 1) positions (mkPoint 0 0 0))).

End SmoothingSpec.

Module ResultSpec.
Import Geom Vertical Graph Main Smoothing TrajectoryStats GraphSpec MainSpec.
Local Open Scope Q_scope.

(** The segment from point [k] to point [k + 1] of a floor. *)
Definition nth_segment (positions : list Point) (k : nat) : Segment :=
  mkSegment k (point_at positions k) (point_at positions (S k))
            (norm (point_at positions (S k)) (point_at positions k)).

(** The entry of [floor_paths] for a floor: its segments join the
    consecutive points in order, its distance is the length of the
    polyline, and its bounds enclose every point. *)
Definition floor_path_of (floor : Z * list Point) (fp : FloorPath) : Prop :=
  let positions := snd floor in
  fp_floor_level fp = fst floor
  /\ fp_floor_name fp = floor_name_of (fst floor)
  /\ fp_segments fp
     = map (nth_segment positions) (seq 0 (length positions - 1))
  /\ fp_total_distance fp = polyline_length positions
  /\ Forall (fun p => min_x (fp_bounds fp) <= px p <= max_x (fp_bounds fp)
                      /\ min_y (fp_bounds fp) <= py p
                         <= max_y (fp_bounds fp)) positions.



End ResultSpec.

(* ================================================================== *)
(** * Properties                                                       *)
(* ================================================================== *)

Module ListFacts.

Lemma existsb_eqb_In (x : nat) (l : list nat) :
  existsb (Nat.eqb x) l = true <-> In x l.
Proof.
  rewrite existsb_exists. split.
  - intros [y [Hy E]]. apply Nat.eqb_eq in E. subst. assumption.
  - intro H. exists x. split; [assumption|apply Nat.eqb_refl].
Qed.

Lemma nth_error_tl {A : Type} (l : list A) (k : nat) :
  nth_error (tl l) k = nth_error l (S k).
Proof. destruct l; [destruct k|]; reflexivity. Qed.

Lemma nth_error_removelast_lt {A : Type} (l : list A) (k : nat) :
  (S k < length l)%nat -> nth_error (removelast l) k = nth_error l k.
Proof.
  revert k. induction l as [|a l IH]; intros k H; [simpl in H; lia|].
  destruct l as [|b l']; [simpl in H; lia|].
  destruct k as [|k]; [reflexivity|].
  change (removelast (a :: b :: l')) with (a :: removelast (b :: l')).
  simpl nth_error. apply IH. simpl in *. lia.
Qed.

Lemma nth_error_nth_default {A : Type} (l : list A) (k : nat) (d : A) :
  (k < length l)%nat -> nth_error l k = Some (nth k l d).
Proof.
  revert k. induction l as [|a l IH]; intros k H; [simpl in H; lia|].
  destruct k; [reflexivity|]. simpl. apply IH. simpl in H. lia.
Qed.

End ListFacts.

Module GeomFacts.
Import Geom.
Local Open Scope Q_scope.

Lemma Qlt_bool_iff (a b : Q) : Qlt_bool a b = true <-> a < b.
Proof.
  unfold Qlt_bool. rewrite negb_true_iff.
  split; intro H.
  - apply Qnot_le_lt. intro Hle. apply Qle_bool_iff in Hle. congruence.
  - destruct (Qle_bool b a) eqn:E; [|reflexivity].
    apply Qle_bool_iff in E. exfalso. exact (Qlt_not_le _ _ H E).
Qed.

Lemma norm_lt_le (a b : Point) (t : Q) :
  norm_lt a b t = true -> norm_le a b t = true.
Proof.
  unfold norm_lt, norm_le. rewrite !andb_true_iff, !Qlt_bool_iff, !Qle_bool_iff.
  intros [H1 H2]. split; apply Qlt_le_weak; assumption.
Qed.

Lemma norm_lt_not_gt (a b : Point) (t : Q) :
  norm_lt a b t = true -> norm_gt a b t = false.
Proof.
  intro H. unfold norm_gt. rewrite (norm_lt_le _ _ _ H). reflexivity.
Qed.

Lemma Qsq_opp (a b : Q) : Qsq (a - b) == Qsq (b - a).
Proof. unfold Qsq. ring. Qed.

Lemma sqdist_sym (a b : Point) : sqdist a b == sqdist b a.
Proof.
  unfold sqdist.
  rewrite (Qsq_opp (px a)), (Qsq_opp (py a)), (Qsq_opp (pz a)). reflexivity.
Qed.

Lemma norm_le_sym (a b : Point) (t : Q) : norm_le a b t = norm_le b a t.
Proof. unfold norm_le. rewrite (sqdist_sym a b). reflexivity. Qed.

(** *** Squared comparisons and real norms *)

Lemma Q2R_sq_nonneg (a : Q) : (0 <= Q2R (Qsq a))%R.
Proof. unfold Qsq. rewrite Q2R_mult. nra. Qed.

Lemma Q2R_sqdist_nonneg (a b : Point) : (0 <= Q2R (sqdist a b))%R.
Proof.
  unfold sqdist. rewrite !Q2R_plus.
  pose proof (Q2R_sq_nonneg (px a - px b)).
  pose proof (Q2R_sq_nonneg (py a - py b)).
  pose proof (Q2R_sq_nonneg (pz a - pz b)). lra.
Qed.

Lemma norm_nonneg (a b : Point) : (0 <= norm a b)%R.
Proof. unfold norm. apply sqrt_pos. Qed.


(** [norm_lt] decides [|a - b| < t]. *)
Lemma norm_lt_spec (a b : Point) (t : Q) :
  norm_lt a b t = true <-> (norm a b < Q2R t)%R.
Proof.
  unfold norm_lt, norm. rewrite andb_true_iff, !Qlt_bool_iff.
  pose proof (Q2R_sqdist_nonneg a b) as Hs.
  split.
  - intros [Ht Hlt]. apply Qlt_Rlt in Ht, Hlt.
    rewrite Q2R_mult in Hlt. rewrite RMicromega.Q2R_0 in Ht.
    rewrite <- (sqrt_square (Q2R t)) by lra.
    apply sqrt_lt_1; [exact Hs | nra | exact Hlt].
  - intro H.
    pose proof (sqrt_pos (Q2R (sqdist a b))) as Hp.
    assert (Ht : (0 < Q2R t)%R) by lra.
    split.
    + apply Rlt_Qlt. rewrite RMicromega.Q2R_0. exact Ht.
    + apply Rlt_Qlt. rewrite Q2R_mult.
      rewrite <- (sqrt_sqrt (Q2R (sqdist a b))) by exact Hs. nra.
Qed.

(** [norm_ge] decides [|a - b| >= t]. *)
Lemma norm_ge_spec (a b : Point) (t : Q) :
  norm_ge a b t = true <-> (Q2R t <= norm a b)%R.
Proof.
  unfold norm_ge. rewrite negb_true_iff.
  pose proof (norm_lt_spec a b t) as L.
  destruct (norm_lt a b t).
  - split; [discriminate|]. intro H.
    assert (norm a b < Q2R t)%R by (apply L; reflexivity). lra.
  - split; [|reflexivity]. intros _.
    destruct (Rle_dec (Q2R t) (norm a b)) as [|N]; [assumption|].
    assert (norm a b < Q2R t)%R by lra.
    assert (false = true) by (apply L; assumption). discriminate.
Qed.

(** [norm_le] decides [|a - b| <= t]. *)
Lemma norm_le_spec (a b : Point) (t : Q) :
  norm_le a b t = true <-> (norm a b <= Q2R t)%R.
Proof.
  unfold norm_le, norm. rewrite andb_true_iff, !Qle_bool_iff.
  pose proof (Q2R_sqdist_nonneg a b) as Hs.
  split.
  - intros [Ht Hle]. apply Qle_Rle in Ht, Hle.
    rewrite Q2R_mult in Hle. rewrite RMicromega.Q2R_0 in Ht.
    rewrite <- (sqrt_square (Q2R t)) by lra.
    apply sqrt_le_1_alt. exact Hle.
  - intro H.
    pose proof (sqrt_pos (Q2R (sqdist a b))) as Hp.
    assert (Ht : (0 <= Q2R t)%R) by lra.
    split.
    + apply Rle_Qle. rewrite RMicromega.Q2R_0. exact Ht.
    + apply Rle_Qle. rewrite Q2R_mult.
      rewrite <- (sqrt_sqrt (Q2R (sqdist a b))) by exact Hs. nra.
Qed.

(** [norm_gt] decides [|a - b| > t]. *)
Lemma norm_gt_spec (a b : Point) (t : Q) :
  norm_gt a b t = true <-> (Q2R t < norm a b)%R.
Proof.
  unfold norm_gt. rewrite negb_true_iff.
  pose proof (norm_le_spec a b t) as L.
  destruct (norm_le a b t).
  - split; [discriminate|]. intro H.
    assert (norm a b <= Q2R t)%R by (apply L; reflexivity). lra.
  - split; [|reflexivity]. intros _.
    destruct (Rlt_dec (Q2R t) (norm a b)) as [|N]; [assumption|].
    assert (norm a b <= Q2R t)%R by lra.
    assert (false = true) by (apply L; assumption). discriminate.
Qed.

End GeomFacts.

Module DedupFacts.
Import Geom Dedup GeomFacts ListFacts DedupSpec.

Lemma find_index_Some {A : Type} (f : A -> bool) (l : list A) (k : nat) :
  find_index f l = Some k ->
  exists x, nth_error l k = Some x /\ f x = true.
Proof.
  revert k. induction l as [|a l IH]; intros k H; simpl in H; [discriminate|].
  destruct (f a) eqn:Fa.
  - injection H as <-. exists a. auto.
  - destruct (find_index f l) as [k'|]; [|discriminate].
    injection H as <-. destruct (IH k' eq_refl) as [x [Hx Hf]].
    exists x. auto.
Qed.

Lemma nth_error_removelast {A : Type} (l : list A) (k : nat) (x : A) :
  nth_error (removelast l) k = Some x -> nth_error l k = Some x.
Proof.
  revert k. induction l as [|a l IH]; intros k H; simpl in H.
  - destruct k; discriminate.
  - destruct l as [|b l'].
    + destruct k; discriminate.
    + destruct k as [|k]; simpl in *; [assumption|]. apply IH. assumption.
Qed.

Lemma skipn_nth_error_cons {A : Type} (l : list A) (k : nat) (x : A) :
  nth_error l k = Some x -> exists tl, skipn k l = x :: tl.
Proof.
  revert k. induction l as [|a l IH]; intros k H.
  - destruct k; discriminate.
  - destruct k as [|k]; simpl in *.
    + injection H as ->. eauto.
    + apply IH. assumption.
Qed.

(** The point found by [_find_revisit_point] heads [result[revisit_idx:]]
    and lies strictly within the threshold of the current point. *)
Lemma revisit_backward_nonempty (path : list Point) (point : Point)
    (t : Q) (r : nat) :
  _find_revisit_point path point t = Some r ->
  exists p tl, skipn r path = p :: tl /\ norm_lt p point t = true.
Proof.
  unfold _find_revisit_point. intro H.
  destruct (find_index_Some _ _ _ H) as [p [Hn Hp]].
  apply nth_error_removelast in Hn.
  destruct (skipn_nth_error_cons _ _ _ Hn) as [tl Htl].
  exists p, tl. auto.
Qed.

(** A divergence search started at a point that revisits the backward path
    cannot stop at offset 0. *)
Lemma divergence_after_revisit (positions result : list Point) (i r d : nat)
    (current : Point) (t : Q) :
  nth_error positions i = Some current ->
  _find_revisit_point result current t = Some r ->
  _find_divergence_point (skipn i positions) (skipn r result) t = Some d ->
  (1 <= d)%nat.
Proof.
  intros Hcur Hrev Hdiv.
  destruct (revisit_backward_nonempty _ _ _ _ Hrev) as [p [tl [Hb Hp]]].
  destruct (skipn_nth_error_cons _ _ _ Hcur) as [fw Hfw].
  unfold _find_divergence_point in Hdiv. rewrite Hfw, Hb in Hdiv.
  simpl in Hdiv. rewrite (norm_lt_not_gt _ _ _ Hp) in Hdiv. simpl in Hdiv.
  destruct (find_index _ fw); [|discriminate].
  injection Hdiv as <-. lia.
Qed.

Lemma merge_step_progress (positions : list Point) (t : Q)
    (st st' : MergeState) :
  merge_step positions t st = Some st' ->
  (ms_i st < ms_i st')%nat /\ (ms_i st < length positions)%nat.
Proof.
  unfold merge_step. intro H.
  destruct (nth_error positions (ms_i st)) as [cur|] eqn:Hc; [|discriminate].
  assert (Hlt : (ms_i st < length positions)%nat).
  { apply nth_error_Some. congruence. }
  split; [|exact Hlt].
  destruct (_find_revisit_point (ms_result st) cur t) as [r|] eqn:Hr.
  - destruct (Z.of_nat r <? Z.of_nat (length (ms_result st)) - 2)%Z.
    + destruct (_find_divergence_point _ _ t) as [d|] eqn:Hd.
      * pose proof (divergence_after_revisit _ _ _ _ _ _ _ Hc Hr Hd).
        injection H as <-. simpl. lia.
      * injection H as <-. simpl. lia.
    + injection H as <-. simpl. lia.
  - injection H as <-. simpl. lia.
Qed.

Lemma merge_loop_fuel (positions : list Point) (t : Q) (fuel : nat) :
  forall st, (length positions <= ms_i st + fuel)%nat ->
  exists r, merge_loop fuel positions t st = Some r.
Proof.
  induction fuel as [|fuel IH]; intros st Hf; simpl.
  - destruct (merge_step positions t st) as [st'|] eqn:E; [|eauto].
    apply merge_step_progress in E. lia.
  - destruct (merge_step positions t st) as [st'|] eqn:E; [|eauto].
    apply merge_step_progress in E. apply IH. lia.
Qed.

(** C9.  The back-and-forth merger terminates on every input: after a
    detected revisit the divergence offset is at least 1, so every loop
    iteration strictly increases the scan index, and [len(positions)]
    iterations always suffice for the loop to return. *)
Theorem merge_terminates :
  forall (positions : list Point) (overlap_threshold : Q),
    (forall result i current r d,
        nth_error positions i = Some current ->
        _find_revisit_point result current overlap_threshold = Some r ->
        _find_divergence_point (skipn i positions) (skipn r result)
          overlap_threshold = Some d ->
        (1 <= d)%nat)
    /\ (forall st st',
        merge_step positions overlap_threshold st = Some st' ->
        (ms_i st < ms_i st')%nat)
    /\ (exists r,
        merge_overlapping_segments_fuel (length positions) positions
          overlap_threshold = Some r
        /\ merge_overlapping_segments positions overlap_threshold = r).
Proof.
  intros positions t. split; [|split].
  - intros result i current r d. apply divergence_after_revisit.
  - intros st st' H. apply (merge_step_progress _ _ _ _ H).
  - unfold merge_overlapping_segments, merge_overlapping_segments_fuel.
    destruct (length positions <? 3)%nat; [eauto|].
    destruct positions as [|p0 tl]; [eauto|].
    destruct (merge_loop_fuel (p0 :: tl) t (length (p0 :: tl))
                (mkMS [p0] 1)) as [r Hr]; [simpl; lia|].
    rewrite Hr. eauto.
Qed.

(** On [out_and_back] the sixth point comes back to the first: the revisit
    is found at index 0, the divergence offset is 1, and the step moves the
    scan index from 5 to 6 without appending. *)
Lemma merge_step_out_and_back :
  let result := firstn 5 out_and_back in
  (nth_error out_and_back 5 = Some (mkPoint (1 # 2) 0 0)
   /\ _find_revisit_point result (mkPoint (1 # 2) 0 0) 1 = Some 0%nat
   /\ _find_divergence_point (skipn 5 out_and_back) (skipn 0 result) 1
      = Some 1%nat
   /\ merge_step out_and_back 1 (mkMS result 5) = Some (mkMS result 6))
  /\ (1 <= 1)%nat
  /\ (ms_i (mkMS result 5) < ms_i (mkMS result 6))%nat.
Proof.
  intro result.
  assert (H1 : nth_error out_and_back 5 = Some (mkPoint (1 # 2) 0 0))
    by reflexivity.
  assert (H2 : _find_revisit_point result (mkPoint (1 # 2) 0 0) 1
               = Some 0%nat) by (vm_compute; reflexivity).
  assert (H3 : _find_divergence_point (skipn 5 out_and_back)
                 (skipn 0 result) 1 = Some 1%nat)
    by (vm_compute; reflexivity).
  assert (H4 : merge_step out_and_back 1 (mkMS result 5)
               = Some (mkMS result 6)) by (vm_compute; reflexivity).
  split; [repeat split; assumption|]. split.
  - exact (proj1 (merge_terminates out_and_back 1) result 5%nat
             (mkPoint (1 # 2) 0 0) 0%nat 1%nat H1 H2 H3).
  - exact (proj1 (proj2 (merge_terminates out_and_back 1))
             (mkMS result 5) (mkMS result 6) H4).
Defined.

(** *** Stage 2: the greedy claiming loop *)

Lemma set_nth_length (j : nat) (v : bool) (m : list bool) :
  length (set_nth j v m) = length m.
Proof.
  revert j. induction m as [|b m IH]; intros [|j]; simpl; auto.
Qed.

Lemma nth_set_nth (x j : nat) (v d : bool) (m : list bool) :
  nth x (set_nth j v m) d =
  if (x =? j)%nat && (x <? length m)%nat then v else nth x m d.
Proof.
  revert x j. induction m as [|b m IH]; intros x j.
  - simpl. destruct j, x; simpl; try reflexivity;
      rewrite ?andb_false_r; reflexivity.
  - destruct j as [|j], x as [|x]; simpl; try reflexivity.
    rewrite IH. reflexivity.
Qed.

Section Stage2.

Variable positions : list Point.
Variable t : Q.

Let n := length positions.

Lemma nb_sym (i j : nat) : nb positions t i j = nb positions t j i.
Proof.
  unfold nb. destruct (nth_error positions i), (nth_error positions j);
    try reflexivity. apply norm_le_sym.
Qed.

Lemma query_ball_point_In (p : Point) (j : nat) :
  In j (query_ball_point positions p t) <->
  exists q, nth_error positions j = Some q /\ norm_le p q t = true.
Proof.
  unfold query_ball_point. rewrite filter_In, in_seq. split.
  - intros [_ H]. destruct (nth_error positions j) as [q|]; [eauto|discriminate].
  - intros [q [Hq Hle]]. rewrite Hq. split; [|assumption].
    assert (j < length positions)%nat by (apply nth_error_Some; congruence).
    lia.
Qed.

(** Pointwise effect of the inner loop. *)
Lemma fold_claim_spec (i : nat) (nbs : list nat) :
  forall st,
    let st' := fold_left (claim i) nbs st in
    length (keep_mask st') = length (keep_mask st)
    /\ length (visited st') = length (visited st)
    /\ forall x, (x < length (visited st))%nat ->
                 (x < length (keep_mask st))%nat ->
         nth x (visited st') false =
           nth x (visited st) false
           || (existsb (Nat.eqb x) nbs && negb (x =? i)%nat)
         /\ nth x (keep_mask st') true =
           nth x (keep_mask st) true
           && negb (existsb (Nat.eqb x) nbs && negb (x =? i)%nat
                    && negb (nth x (visited st) false)).
Proof.
  induction nbs as [|j nbs IH]; intros st; simpl.
  - repeat split; try reflexivity.
    + rewrite orb_false_r. reflexivity.
    + rewrite andb_true_r. reflexivity.
  - destruct (IH (claim i st j)) as [Hk [Hv Hx]]. clear IH.
    assert (Lk : length (keep_mask (claim i st j)) = length (keep_mask st)).
    { unfold claim. destruct (_ && _); simpl; [apply set_nth_length|reflexivity]. }
    assert (Lv : length (visited (claim i st j)) = length (visited st)).
    { unfold claim. destruct (_ && _); simpl; [apply set_nth_length|reflexivity]. }
    split; [congruence|]. split; [congruence|].
    intros x Hxv Hxk.
    destruct (Hx x) as [Ev Ek]; [lia|lia|]. rewrite Ev, Ek. clear Ev Ek Hx.
    unfold claim, in_visited.
    assert (Hv1 : (x <? length (visited st))%nat = true) by (apply Nat.ltb_lt; exact Hxv).
    assert (Hk1 : (x <? length (keep_mask st))%nat = true) by (apply Nat.ltb_lt; exact Hxk).
    destruct (Nat.eqb_spec x j) as [->|Hne].
    + destruct (j =? i)%nat eqn:Eji;
        destruct (nth j (visited st) false) eqn:Evj; simpl;
        rewrite ?nth_set_nth, ?Nat.eqb_refl, ?Hv1, ?Hk1, ?Evj; simpl;
        destruct (existsb (Nat.eqb j) nbs);
        destruct (nth j (keep_mask st) true); split; reflexivity.
    + assert (Exj : (x =? j)%nat = false) by (apply Nat.eqb_neq; exact Hne).
      simpl.
      destruct (negb (j =? i)%nat && negb (nth j (visited st) false)); simpl;
        rewrite ?nth_set_nth, ?Exj; simpl; split; reflexivity.
Qed.

Lemma existsb_query_ball (k : nat) (p : Point) (x : nat) :
  nth_error positions k = Some p ->
  existsb (Nat.eqb x) (query_ball_point positions p t) = nb positions t k x.
Proof.
  intro Hp. apply eq_true_iff_eq.
  rewrite existsb_eqb_In, query_ball_point_In. unfold nb. rewrite Hp.
  destruct (nth_error positions x) as [q|].
  - split; [intros [q' [E H]]; congruence | eauto].
  - split; [intros [q' [E H]]; discriminate | discriminate].
Qed.

Lemma inv_init : Inv positions t 0 (mkDS (repeat true n) (repeat false n)).
Proof.
  constructor; simpl.
  - apply repeat_length.
  - apply repeat_length.
  - intros j Hj. lia.
  - intros j _ _. rewrite !nth_repeat. reflexivity.
  - intros i j Hi. lia.
Qed.

Lemma inv_step (k : nat) (st : DedupState) :
  Inv positions t k st -> (k < n)%nat ->
  Inv positions t (S k) (dedup_visit positions t st k).
Proof.
  intros [Lk Lv Hlt Hge Hsep] Hk. unfold dedup_visit, in_visited.
  destruct (nth k (visited st) false) eqn:Evk.
  - (* already claimed: skipped *)
    assert (Kk : nth k (keep_mask st) true = false).
    { specialize (Hge k (Nat.le_refl k) Hk). rewrite Evk in Hge.
      destruct (nth k (keep_mask st) true); [discriminate|reflexivity]. }
    constructor; auto.
    + intros j Hj. destruct (Nat.eq_dec j k) as [->|]; [assumption|].
      apply Hlt. lia.
    + intros j Hj1 Hj2. apply Hge; lia.
    + intros i j Hi Hj Hij Ki Hn.
      destruct (Nat.eq_dec i k) as [->|]; [congruence|].
      apply (Hsep i j); auto. lia.
  - assert (Kk : nth k (keep_mask st) true = true).
    { specialize (Hge k (Nat.le_refl k) Hk). rewrite Evk in Hge.
      destruct (nth k (keep_mask st) true); [reflexivity|discriminate]. }
    destruct (nth_error positions k) as [p|] eqn:Hp.
    2:{ apply nth_error_None in Hp. unfold n in Hk. lia. }
    destruct (fold_claim_spec k (query_ball_point positions p t) st)
      as [Fk [Fv Fx]].
    set (st' := fold_left (claim k) (query_ball_point positions p t) st) in *.
    assert (V : forall x, (x < n)%nat ->
              nth x (set_nth k true (visited st')) false =
              (x =? k)%nat || nth x (visited st) false
              || (nb positions t k x && negb (x =? k)%nat)).
    { intros x Hx. rewrite nth_set_nth.
      destruct (Fx x) as [E _]; [lia|lia|]. rewrite E, (existsb_query_ball _ _ x Hp).
      assert (L : (x <? length (visited st'))%nat = true)
        by (apply Nat.ltb_lt; lia).
      rewrite L. destruct (x =? k)%nat; reflexivity. }
    assert (K : forall x, (x < n)%nat ->
              nth x (keep_mask st') true =
              nth x (keep_mask st) true
              && negb (nb positions t k x && negb (x =? k)%nat
                       && negb (nth x (visited st) false))).
    { intros x Hx. destruct (Fx x) as [_ E]; [lia|lia|].
      rewrite E, (existsb_query_ball _ _ x Hp). reflexivity. }
    constructor; simpl.
    + congruence.
    + rewrite set_nth_length. congruence.
    + intros j Hj. rewrite V by lia.
      destruct (Nat.eqb_spec j k) as [->|Hne]; [reflexivity|].
      rewrite Hlt by lia. reflexivity.
    + intros j Hj1 Hj2. rewrite V, K by lia.
      assert (E : (j =? k)%nat = false) by (apply Nat.eqb_neq; lia).
      rewrite E, (Hge j) by lia. simpl.
      destruct (nth j (keep_mask st) true), (nb positions t k j); reflexivity.
    + intros i j Hi Hj Hij Ki Hn. rewrite K by lia. rewrite K in Ki by lia.
      apply andb_true_iff in Ki. destruct Ki as [Ki _].
      destruct (Nat.eq_dec i k) as [->|Hik].
      * assert (E : (j =? k)%nat = false) by (apply Nat.eqb_neq; lia).
        rewrite Hn, E. simpl.
        destruct (nth j (visited st) false) eqn:Evj; simpl.
        -- rewrite andb_true_r.
           destruct (Nat.lt_ge_cases j k) as [Hjk|Hjk].
           ++ destruct (nth j (keep_mask st) true) eqn:Kj; [|reflexivity].
              rewrite nb_sym in Hn.
              rewrite (Hsep j k Hjk Hk (not_eq_sym Hij) Kj Hn) in Kk. discriminate.
           ++ rewrite (Hge j) in Evj by lia.
              destruct (nth j (keep_mask st) true); [discriminate|reflexivity].
        -- apply andb_false_r.
      * rewrite (Hsep i j) by (auto; lia). reflexivity.
Qed.

Lemma inv_fold (m : nat) :
  (m <= n)%nat ->
  Inv positions t m (fold_left (dedup_visit positions t) (seq 0 m)
           (mkDS (repeat true n) (repeat false n))).
Proof.
  induction m as [|m IH]; intro Hm.
  - exact inv_init.
  - rewrite seq_S, fold_left_app. simpl. apply inv_step; [apply IH|]; lia.
Qed.

(** Two distinct points that both survive are farther apart than the
    threshold. *)
Lemma dedup_mask_separated (i j : nat) :
  (i < n)%nat -> (j < n)%nat -> i <> j ->
  nth i (dedup_mask positions t) true = true ->
  nth j (dedup_mask positions t) true = true ->
  nb positions t i j = false.
Proof.
  intros Hi Hj Hij Ki Kj. unfold dedup_mask in *. fold n in Ki, Kj.
  destruct (inv_fold _ (Nat.le_refl n)) as [_ _ _ _ Hsep].
  destruct (nb positions t i j) eqn:E; [|reflexivity].
  rewrite (Hsep i j Hi Hj Hij Ki E) in Kj. discriminate.
Qed.

Lemma dedup_mask_length : length (dedup_mask positions t) = n.
Proof.
  unfold dedup_mask. fold n. apply (inv_lk _ _ _ _ (inv_fold _ (Nat.le_refl n))).
Qed.

End Stage2.

(** *** Stage 2 is idempotent *)

Lemma select_nth {A : Type} (l : list A) (m : list bool) (a : nat) (p : A) :
  nth_error (select l m) a = Some p ->
  exists i, nth_error l i = Some p /\ nth_error m i = Some true.
Proof.
  revert m a. induction l as [|x l IH]; intros [|b m] a H; simpl in H;
    try (destruct a; discriminate).
  destruct b.
  - destruct a as [|a]; simpl in H.
    + injection H as ->. exists O. auto.
    + destruct (IH m a H) as [i [H1 H2]]. exists (S i). auto.
  - destruct (IH m a H) as [i [H1 H2]]. exists (S i). auto.
Qed.

Lemma select_pair {A : Type} (l : list A) (m : list bool) (a b : nat)
    (p q : A) :
  (a < b)%nat ->
  nth_error (select l m) a = Some p ->
  nth_error (select l m) b = Some q ->
  exists i j, (i < j)%nat
    /\ nth_error l i = Some p /\ nth_error l j = Some q
    /\ nth_error m i = Some true /\ nth_error m j = Some true.
Proof.
  revert m a b. induction l as [|x l IH]; intros [|b0 m] a b Hab Ha Hb;
    simpl in Ha, Hb; try (destruct a; discriminate).
  assert (Shift : (exists i j, (i < j)%nat
      /\ nth_error l i = Some p /\ nth_error l j = Some q
      /\ nth_error m i = Some true /\ nth_error m j = Some true) ->
    exists i j, (i < j)%nat
      /\ nth_error (x :: l) i = Some p /\ nth_error (x :: l) j = Some q
      /\ nth_error (b0 :: m) i = Some true
      /\ nth_error (b0 :: m) j = Some true).
  { intros [i [j [Hij [H1 [H2 [H3 H4]]]]]]. exists (S i), (S j).
    simpl. repeat split; auto. lia. }
  destruct b0.
  - destruct b as [|b]; [lia|]. simpl in Hb.
    destruct a as [|a]; simpl in Ha.
    + injection Ha as ->.
      destruct (select_nth l m b q Hb) as [j [H1 H2]].
      exists O, (S j). simpl. repeat split; auto. lia.
    + apply Shift. apply (IH m a b); auto. lia.
  - apply Shift. apply (IH m a b); auto.
Qed.

Lemma nth_error_mask_nth (m : list bool) (i : nat) :
  nth_error m i = Some true ->
  (i < length m)%nat /\ nth i m true = true.
Proof.
  intro H. split.
  - apply nth_error_Some. congruence.
  - apply (nth_error_nth m i true) in H. exact H.
Qed.

Lemma dedup_selected_separated (positions : list Point) (t : Q) :
  separated t (select positions (dedup_mask positions t)).
Proof.
  assert (Ord : forall a b p q, (a < b)%nat ->
    nth_error (select positions (dedup_mask positions t)) a = Some p ->
    nth_error (select positions (dedup_mask positions t)) b = Some q ->
    norm_le p q t = false).
  { intros a b p q Hab Ha Hb.
    destruct (select_pair _ _ _ _ _ _ Hab Ha Hb)
      as [i [j [Hij [Hp [Hq [Mi Mj]]]]]].
    apply nth_error_mask_nth in Mi, Mj.
    rewrite dedup_mask_length in Mi, Mj.
    destruct Mi as [Li Ki], Mj as [Lj Kj].
    assert (Hne : i <> j) by lia.
    pose proof (dedup_mask_separated positions t i j Li Lj Hne Ki Kj) as N.
    unfold nb in N. rewrite Hp, Hq in N. exact N. }
  intros a b p q Hne Ha Hb.
  destruct (Nat.lt_ge_cases a b) as [Hab|Hab].
  - apply (Ord a b); auto.
  - rewrite norm_le_sym. apply (Ord b a); auto. lia.
Qed.






(** *** The two stages together *)

Local Open Scope Q_scope.

(** The two stages on [floor6].  The first run of stage 1 keeps all six
    points: the return to (4.5, 0.25) revisits the first point, but (3, 0) is
    within 1 m of (2.25, 0.5), so no divergence point is found.  Stage 2 then
    drops (2.25, 0.5), which is 0.36 m from (2, 0.75). *)
Example deduplicate_floor_floor6 :
  merge_overlapping_segments floor6 1 = floor6
  /\ deduplicate_floor floor6 =
     map (fun xy => mkPoint (fst xy) (snd xy) 0)
       [ (4, 3 # 4); (2, 3 # 4); (1 # 4, 1); (9 # 2, 1 # 4); (3, 0) ]
  /\ deduplicate_floor (deduplicate_floor floor6) =
     map (fun xy => mkPoint (fst xy) (snd xy) 0)
       [ (4, 3 # 4); (2, 3 # 4); (1 # 4, 1); (3, 0) ].
Proof. repeat split; vm_compute; reflexivity. Qed.




End DedupFacts.

Module ExtractionFacts.
Import Geom Extraction ExtractionSpec.



Lemma isclose_zero_Finite (q : Q) :
  isclose_zero atol_origin (Finite q) = true <-> (Qabs q <= 1 # 1000000)%Q.
Proof. simpl. unfold atol_origin. apply Qle_bool_iff. Qed.


Local Arguments is_valid_position : simpl never.





Example reader_keeps_unit_pose :
  extract_trajectory [(7%Z, Some (pose_blob f32_zero f32_one f32_zero f32_zero))]
  = inr ([(Finite 1, Finite 0, Finite 0)], [7%Z]).
Proof. vm_compute. reflexivity. Qed.

(** The nine rotation entries are not inspected: a pose whose rotation is
    all NaN is kept when its translation is finite and away from the
    origin. *)
Example reader_ignores_rotation :
  keeps (1%Z, Some (pose_blob f32_nan f32_one f32_one f32_one)) = true.
Proof. vm_compute. reflexivity. Qed.

(** Scenario S6: three origin-adjacent poses, a NULL pose, a short blob and
    a pose with an infinite coordinate are all dropped, and the read
    fails. *)
Example reader_empty_trajectory :
  extract_trajectory
    [ (1%Z, Some (pose_blob f32_one f32_zero f32_zero f32_zero));
      (2%Z, Some (pose_blob f32_one f32_tiny f32_zero f32_tiny));
      (3%Z, Some (pose_blob f32_one f32_zero f32_zero f32_zero));
      (4%Z, None);
      (5%Z, Some f32_one);
      (6%Z, Some (pose_blob f32_one f32_one f32_inf f32_one)) ]
  = inl EmptyTrajectory.
Proof. vm_compute. reflexivity. Qed.

End ExtractionFacts.

Module FlattenFacts.
Import Geom Flatten FlattenSpec.
Local Open Scope Q_scope.

Lemma gap_flags_length (positions : list Point) (t : Q) :
  length (gap_flags positions t) = (length positions - 1)%nat.
Proof.
  induction positions as [|p [|q rest] IH]; simpl in *; try reflexivity.
  rewrite IH. lia.
Qed.

Lemma where_plus_one_bound (flags : list bool) (i n : nat) :
  (i + length flags < n)%nat ->
  Forall (fun idx => (idx <= n)%nat) (where_plus_one flags i).
Proof.
  revert i. induction flags as [|b flags IH]; intros i H; simpl in *.
  - constructor.
  - destruct b; [constructor; [lia|]|]; apply IH; lia.
Qed.

Lemma split_indices_bound (positions : list Point) (t : Q) :
  (1 <= length positions)%nat ->
  Forall (fun idx => (idx <= length positions)%nat) (split_indices positions t).
Proof.
  intro H. unfold split_indices. apply where_plus_one_bound.
  rewrite gap_flags_length. lia.
Qed.

Lemma slice_length (positions : list Point) (a b : nat) :
  (b <= length positions)%nat ->
  length (slice positions a b) = (b - a)%nat.
Proof.
  intro H. unfold slice. rewrite length_firstn, length_skipn. lia.
Qed.

(** The loop of [split_at_gaps] keeps exactly the runs with two or more
    points. *)
Lemma split_loop_filter (positions : list Point) (idxs : list nat) :
  Forall (fun idx => (idx <= length positions)%nat) idxs ->
  forall segments prev,
    (let (segments', prev') :=
       fold_left (split_step positions) idxs (segments, prev) in
     if (2 <=? length positions - prev')%nat
     then segments' ++ [skipn prev' positions]
     else segments')
    = segments ++ filter long_enough (runs_between positions prev idxs).
Proof.
  induction 1 as [|idx idxs Hidx _ IH]; intros segments prev;
    cbn [fold_left runs_between filter].
  - unfold long_enough. rewrite length_skipn.
    destruct (2 <=? length positions - prev)%nat;
      [reflexivity | rewrite app_nil_r; reflexivity].
  - unfold long_enough at 1. rewrite (slice_length _ _ _ Hidx).
    unfold split_step at 2.
    destruct (2 <=? idx - prev)%nat.
    + rewrite IH, <- app_assoc. reflexivity.
    + apply IH.
Qed.

Lemma split_at_gaps_filter (positions : list Point) (t : Q) :
  (2 <= length positions)%nat ->
  split_indices positions t <> [] ->
  split_at_gaps positions t = filter long_enough (gap_runs positions t).
Proof.
  intros Hn Hne. unfold split_at_gaps, gap_runs.
  assert (E : (length positions <? 2)%nat = false)
    by (apply Nat.ltb_ge; exact Hn).
  rewrite E.
  destruct (split_indices positions t) as [|idx idxs] eqn:Hs; [congruence|].
  cbn [length Nat.eqb].
  pose proof (split_indices_bound positions t) as B. rewrite Hs in B.
  pose proof (split_loop_filter positions (idx :: idxs)) as L.
  specialize (L (B ltac:(lia)) [] O). simpl app in L.
  destruct (fold_left (split_step positions) (idx :: idxs) ([], O))
    as [segments prev].
  exact L.
Qed.

Lemma where_plus_one_all (k i : nat) :
  where_plus_one (repeat true k) i = seq (S i) k.
Proof.
  revert i. induction k as [|k IH]; intro i; simpl; [reflexivity|].
  rewrite IH. f_equal. lia.
Qed.

Lemma gap_flags_all (positions : list Point) (t : Q) :
  all_gaps positions t ->
  gap_flags positions t = repeat true (length positions - 1).
Proof.
  induction positions as [|p [|q rest] IH]; intro H; try reflexivity.
  change (gap_flags (p :: q :: rest) t)
    with (norm_gt q p t :: gap_flags (q :: rest) t).
  rewrite (H O p q eq_refl eq_refl).
  rewrite IH.
  - simpl. rewrite Nat.sub_0_r. reflexivity.
  - intros i a b Ha Hb. apply (H (S i) a b); assumption.
Qed.

Lemma unit_runs_filtered (positions : list Point) (k : nat) :
  forall prev, (prev + k + 1 = length positions)%nat ->
  filter long_enough (runs_between positions prev (seq (S prev) k)) = [].
Proof.
  induction k as [|k IH]; intros prev H; simpl.
  - unfold long_enough. rewrite length_skipn.
    replace (length positions - prev)%nat with 1%nat by lia. reflexivity.
  - unfold long_enough at 1. rewrite slice_length by lia.
    replace (S prev - prev)%nat with 1%nat by lia.
    cbn [Nat.leb]. apply IH. lia.
Qed.

Lemma split_at_gaps_all_gaps (positions : list Point) (t : Q) :
  (2 <= length positions)%nat ->
  all_gaps positions t ->
  split_at_gaps positions t = [].
Proof.
  intros Hn Hall.
  assert (Hs : split_indices positions t = seq 1 (length positions - 1)).
  { unfold split_indices. rewrite (gap_flags_all _ _ Hall).
    apply where_plus_one_all. }
  rewrite split_at_gaps_filter; trivial.
  - unfold gap_runs. rewrite Hs. apply unit_runs_filtered. lia.
  - rewrite Hs. destruct (length positions - 1)%nat eqn:E; [lia|discriminate].
Qed.

Lemma far3_all_gaps : all_gaps far3 5.
Proof.
  intros i p q Hp Hq.
  destruct i as [|[|[|i]]]; simpl in Hp, Hq;
    try discriminate; injection Hp as <-; injection Hq as <-;
    vm_compute; reflexivity.
Qed.

(** C10.  The flattener is partial.  When the input has a gap,
    [split_at_gaps] returns exactly the gap-separated runs of two or more
    points, so shorter runs are dropped without notice; on every input of
    three or more points whose consecutive points are all farther apart than
    the gap threshold no run is left and [snap_to_lines] raises on the
    concatenation of zero segments; [far3] is such an input. *)
Theorem snap_to_lines_partial :
  (forall positions gap_threshold,
      (2 <= length positions)%nat ->
      split_indices positions gap_threshold <> [] ->
      split_at_gaps positions gap_threshold =
      filter long_enough (gap_runs positions gap_threshold))
  /\ (forall positions epsilon point_spacing gap_threshold,
      (3 <= length positions)%nat ->
      all_gaps positions gap_threshold ->
      snap_to_lines positions epsilon point_spacing gap_threshold =
      Raise ConcatenateEmpty)
  /\ (exists positions,
      (3 <= length positions)%nat
      /\ all_gaps positions 5
      /\ snap_to_lines positions (1 # 2) (1 # 2) 5 = Raise ConcatenateEmpty).
Proof.
  assert (Hraise : forall positions epsilon point_spacing gap_threshold,
      (3 <= length positions)%nat ->
      all_gaps positions gap_threshold ->
      snap_to_lines positions epsilon point_spacing gap_threshold =
      Raise ConcatenateEmpty).
  { intros positions eps sp t Hn Hall. unfold snap_to_lines.
    assert (E : (length positions <? 3)%nat = false)
      by (apply Nat.ltb_ge; exact Hn).
    rewrite E, split_at_gaps_all_gaps by (trivial; lia). reflexivity. }
  split; [exact split_at_gaps_filter|].
  split; [exact Hraise|].
  exists far3. split; [simpl; lia|]. split; [exact far3_all_gaps|].
  apply Hraise; [simpl; lia|exact far3_all_gaps].
Qed.

(** Three points ten metres apart against a gap threshold of 5 m. *)
Lemma snap_to_lines_far3 :
  ((3 <= length far3)%nat /\ all_gaps far3 5)
  /\ snap_to_lines far3 (1 # 2) (1 # 2) 5 = Raise ConcatenateEmpty.
Proof.
  assert (H1 : (3 <= length far3)%nat) by (simpl; lia).
  split; [split; [exact H1|exact far3_all_gaps]|].
  exact (proj1 (proj2 snap_to_lines_partial) far3 (1 # 2) (1 # 2) 5
           H1 far3_all_gaps).
Defined.

(** A polyline with one stray point between two gaps: the stray point is
    dropped. *)
Example split_drops_single_point :
  map (@length Point)
    (split_at_gaps [mkPoint 0 0 0; mkPoint 1 0 0; mkPoint 10 0 0;
                    mkPoint 20 0 0; mkPoint 21 0 0] 5)
  = [2%nat; 2%nat].
Proof. vm_compute. reflexivity. Qed.

End FlattenFacts.

Module VerticalFacts.
Import Geom Vertical GeomFacts VerticalSpec.
Local Open Scope Q_scope.







Lemma group_segments_map (positions : list Point) (mt : Q) (mp : nat)
    (runs : list (nat * nat)) :
  group_segments positions mt mp runs =
  map (make_passage positions) (filter (run_kept positions mt mp) runs).
Proof.
  induction runs as [|run runs IH]; simpl; [reflexivity|].
  unfold analyse_run. destruct (run_kept positions mt mp run); simpl;
    rewrite IH; reflexivity.
Qed.







(** *** Segment merging (Step 3) *)

Lemma merge_from_classified (positions : list Point) (gap : Z)
    (rest : list Passage) :
  forall current,
    well_classified current -> Forall well_classified rest ->
    Forall well_classified (merge_from positions gap current rest).
Proof.
  induction rest as [|seg rest IH]; intros current Hc Hr; simpl.
  - constructor; [exact Hc|constructor].
  - inversion Hr as [|? ? Hs Hr']; subst.
    destruct (direction_eqb (direction current) (direction seg)
              && (Z.of_nat (start_idx seg) - Z.of_nat (end_idx current) <? gap)%Z).
    + apply IH; [reflexivity|exact Hr'].
    + constructor; [exact Hc|]. apply IH; assumption.
Qed.

(** The passages returned by the detector, merged or not, are ELEVATOR
    exactly when their recomputed ratio is below 1.0. *)
Lemma detector_output_classified (positions : list Point) :
  Forall well_classified (fst (detect_stairs_default positions)).
Proof.
  unfold detect_stairs_default, detect_stairs_first. cbn [fst].
  rewrite group_segments_map.
  set (kept := filter _ _).
  assert (H : Forall well_classified (map (make_passage positions) kept)).
  { apply Forall_forall. intros p Hp. apply in_map_iff in Hp.
    destruct Hp as [run [<- _]]. reflexivity. }
  unfold _merge_stair_segments.
  destruct (map (make_passage positions) kept) as [|c [|s rest]];
    try exact H.
  inversion H; subst. apply merge_from_classified; assumption.
Qed.

Example two_rises_runs :
  default_runs two_rises = [(0, 15); (16, 31)]%nat
  /\ filter (run_kept two_rises MIN_TOTAL_Z_CHANGE MIN_STAIR_POINTS)
       (default_runs two_rises) = [(0, 15); (16, 31)]%nat.
Proof. split; vm_compute; reflexivity. Qed.

(** A merged passage inherits the [direction] of its first run: on
    [two_rises] Step 2 keeps two UP passages one sample apart, Step 3 merges
    them, and the merged passage is labelled UP although it ends 8 m below
    its start. *)
Example merged_passage_keeps_first_direction :
  exists p,
    fst (detect_stairs_default two_rises) = [p]
    /\ start_idx p = 0%nat /\ end_idx p = 31%nat
    /\ direction p = UP
    /\ z_start p == 0 /\ z_end p == -8.
Proof.
  exists (absorb two_rises (make_passage two_rises (0, 15)%nat)
                 (make_passage two_rises (16, 31)%nat)).
  split.
  - unfold detect_stairs_default, detect_stairs_first. cbn [fst].
    rewrite group_segments_map.
    change (vertical_runs _) with (default_runs two_rises).
    rewrite (proj2 two_rises_runs).
    cbn [map _merge_stair_segments merge_from].
    assert (C : direction_eqb (direction (make_passage two_rises (0, 15)%nat))
                  (direction (make_passage two_rises (16, 31)%nat))
                && (Z.of_nat (start_idx (make_passage two_rises (16, 31)%nat))
                    - Z.of_nat (end_idx (make_passage two_rises (0, 15)%nat))
                    <? GAP_THRESHOLD)%Z = true).
    { cbn [make_passage direction start_idx end_idx fst snd].
      vm_compute. reflexivity. }
    rewrite C. reflexivity.
  - cbn [absorb make_passage start_idx end_idx direction z_start z_end
         fst snd].
    repeat split; vm_compute; reflexivity.
Qed.

(** *** Scenario S4: two floors and a staircase *)

Example two_floors_and_stairs_runs :
  default_runs two_floors_and_stairs = [(45, 64)]%nat
  /\ filter (run_kept two_floors_and_stairs MIN_TOTAL_Z_CHANGE
               MIN_STAIR_POINTS)
       (default_runs two_floors_and_stairs) = [(45, 64)]%nat.
Proof. split; vm_compute; reflexivity. Qed.


(** The detector finds one passage on scenario S4, and the floor assigner
    attaches floors 1 and 2 to it. *)
Example two_floors_and_stairs_passage :
  exists p,
    assign_floors_to_stairs (fst (detect_stairs_default two_floors_and_stairs))
      [(1%Z, 0); (2%Z, 3)] = [p]
    /\ start_idx p = 45%nat /\ end_idx p = 64%nat
    /\ direction p = UP
    /\ from_floor p = Some 1%Z /\ to_floor p = Some 2%Z
    /\ p_positions p <> [].
Proof.
  exists (assign_floor [(1%Z, 0); (2%Z, 3)]
            (make_passage two_floors_and_stairs (45, 64)%nat)).
  split.
  - unfold detect_stairs_default, detect_stairs_first. cbn [fst].
    rewrite group_segments_map.
    change (vertical_runs _) with (default_runs two_floors_and_stairs).
    rewrite (proj2 two_floors_and_stairs_runs). reflexivity.
  - cbn [assign_floor make_passage start_idx end_idx direction from_floor
         to_floor p_positions z_start z_end fst snd].
    repeat split; try (vm_compute; reflexivity).
    vm_compute. discriminate.
Qed.

End VerticalFacts.

Module ClusterFacts.
Import Geom Vertical GeomFacts ClusterSpec.
Local Open Scope Q_scope.


Lemma nq_S (i : nat) : nq (S i) == nq i + 1.
Proof.
  unfold nq. rewrite Nat2Z.inj_succ, <- Z.add_1_r, inject_Z_plus. reflexivity.
Qed.


Lemma uniform_peaks_length (z_min range_ : Q) (k : nat) :
  length (uniform_peaks z_min range_ k) = k.
Proof. unfold uniform_peaks. rewrite length_map, length_seq. reflexivity. Qed.






End ClusterFacts.

Module GraphFacts.
Import Geom Vertical Graph GeomFacts ListFacts GraphSpec.
Local Open Scope Q_scope.

(** *** The turning-angle test *)

(** [turn_at_least_45] holds exactly when neither direction vector is
    shorter than 1e-10 and the cosine of the turning angle,
    [v1.v2 / (|v1| |v2|)], is at most [cos 45 = sqrt 2 / 2]. *)
Lemma turn_at_least_45_spec (a b c : Point) :
  turn_at_least_45 a b c = true <->
  norm_lt b a (1 # 10000000000) = false
  /\ norm_lt c b (1 # 10000000000) = false
  /\ (Q2R (turn_dot a b c) <= sqrt 2 / 2 * (norm b a * norm c b))%R.
Proof.
  unfold turn_at_least_45.
  change (Qlt_bool (sqdist b a) (1 # 100000000000000000000))
    with (norm_lt b a (1 # 10000000000)).
  change (Qlt_bool (sqdist c b) (1 # 100000000000000000000))
    with (norm_lt c b (1 # 10000000000)).
  fold (turn_dot a b c).
  destruct (norm_lt b a (1 # 10000000000)); simpl;
    [split; [discriminate|intros [H _]; discriminate]|].
  destruct (norm_lt c b (1 # 10000000000)); simpl;
    [split; [discriminate|intros [_ [H _]]; discriminate]|].
  set (d := turn_dot a b c).
  pose proof (Q2R_sqdist_nonneg b a) as H1.
  pose proof (Q2R_sqdist_nonneg c b) as H2.
  pose proof (sqrt_pos (Q2R (sqdist b a))) as P1.
  pose proof (sqrt_pos (Q2R (sqdist c b))) as P2.
  pose proof (sqrt_sqrt _ H1) as E1. pose proof (sqrt_sqrt _ H2) as E2.
  assert (R2 : (0 <= sqrt 2)%R) by apply sqrt_pos.
  assert (R2' : (sqrt 2 * sqrt 2 = 2)%R) by (apply sqrt_sqrt; lra).
  unfold norm.
  set (s1 := sqrt (Q2R (sqdist b a))) in *.
  set (s2 := sqrt (Q2R (sqdist c b))) in *.
  assert (PS : (0 <= s1 * s2)%R) by (apply Rmult_le_pos; assumption).
  rewrite orb_true_iff, !Qle_bool_iff.
  split.
  - intros [Hd|Hd]; (split; [reflexivity|]; split; [reflexivity|]).
    + apply Qle_Rle in Hd. rewrite RMicromega.Q2R_0 in Hd.
      assert (0 <= sqrt 2 / 2 * (s1 * s2))%R by nra. lra.
    + apply Qle_Rle in Hd. rewrite !Q2R_mult in Hd.
      replace (Q2R 2) with 2%R in Hd by (unfold Q2R; simpl; lra).
      destruct (Rle_dec (Q2R d) 0) as [N|N].
      * assert (0 <= sqrt 2 / 2 * (s1 * s2))%R by nra. lra.
      * assert (Hsq : (Q2R d * Q2R d
                       <= (sqrt 2 / 2 * (s1 * s2))
                          * (sqrt 2 / 2 * (s1 * s2)))%R).
        { replace ((sqrt 2 / 2 * (s1 * s2)) * (sqrt 2 / 2 * (s1 * s2)))%R
            with ((sqrt 2 * sqrt 2) / 4 * ((s1 * s1) * (s2 * s2)))%R by field.
          rewrite R2', E1, E2. lra. }
        assert (0 <= sqrt 2 / 2 * (s1 * s2))%R by nra.
        nra.
  - intros [_ [_ H]].
    destruct (Rle_dec (Q2R d) 0) as [N|N].
    + left. apply Rle_Qle. rewrite RMicromega.Q2R_0. exact N.
    + right. apply Rle_Qle. rewrite !Q2R_mult.
      replace (Q2R 2) with 2%R by (unfold Q2R; simpl; lra).
      assert (Hsq : (Q2R d * Q2R d
                     <= (sqrt 2 / 2 * (s1 * s2))
                        * (sqrt 2 / 2 * (s1 * s2)))%R) by nra.
      replace ((sqrt 2 / 2 * (s1 * s2)) * (sqrt 2 / 2 * (s1 * s2)))%R
        with ((sqrt 2 * sqrt 2) / 4 * ((s1 * s1) * (s2 * s2)))%R in Hsq
        by field.
      rewrite R2', E1, E2 in Hsq. lra.
Qed.

(** *** Junction indices are interior *)

Lemma junction_candidates_interior (positions : list Point) (mb : nat)
    (j : Junction) :
  In j (junction_candidates positions mb) ->
  (mb <= j_index j)%nat /\ (mb <= length positions - j_index j - 1)%nat
  /\ (1 <= j_index j)%nat /\ (j_index j + 2 < length positions)%nat.
Proof.
  unfold junction_candidates. rewrite in_flat_map.
  intros [i [Hi Hj]]. apply in_seq in Hi.
  destruct (turn_at_least_45 _ _ _ && (mb <=? i)%nat
            && (mb <=? length positions - i - 1)%nat) eqn:C;
    [|contradiction].
  destruct Hj as [<-|[]]. simpl.
  apply andb_true_iff in C. destruct C as [C C3].
  apply andb_true_iff in C. destruct C as [_ C2].
  apply Nat.leb_le in C2, C3. lia.
Qed.

Lemma gather_head (junctions : list Junction) (r : Q) (pos1 : Point)
    (l : list (nat * Junction)) :
  forall used group j1 tl,
    group = j1 :: tl ->
    exists tl',
      snd (fold_left
             (fun (st : list bool * list Junction) (kj : nat * Junction) =>
                let (used, group) := st in
                if nth (fst kj) used false then st
                else if norm_lt pos1 (j_position (snd kj)) r
                     then (Dedup.set_nth (fst kj) true used, group ++ [snd kj])
                     else st)
             l (used, group)) = j1 :: tl'.
Proof.
  induction l as [|kj l IH]; intros used group j1 tl E; simpl.
  - eauto.
  - destruct (nth (fst kj) used false); [eapply IH; eauto|].
    destruct (norm_lt pos1 (j_position (snd kj)) r); [|eapply IH; eauto].
    eapply IH. rewrite E. simpl. reflexivity.
Qed.



(** *** Node extraction *)

Lemma last_before_none (nodes : list PathNode) (idx : nat) :
  Forall (fun nd => (idx <= original_index nd)%nat) nodes ->
  last_before nodes idx = None.
Proof.
  induction 1 as [|nd nodes Hnd _ IH]; simpl; [reflexivity|].
  rewrite IH. apply Nat.ltb_ge in Hnd. rewrite Hnd. reflexivity.
Qed.


(** What the loop over the interior points emits. *)
Lemma interior_nodes_spec (J : list nat) (sp : Q) (fl : option Z)
    (pts : list Point) :
  forall i last_pos next nodes next',
    interior_nodes pts i J sp fl last_pos next = (nodes, next') ->
    (next <= next')%nat
    /\ Forall (fun nd =>
                (i <= original_index nd < i + length pts)%nat
                /\ nth_error pts (original_index nd - i) = Some (node_point nd)
                /\ floor_level nd = fl
                /\ (next <= node_id nd < next')%nat
                /\ node_type nd = interior_type J (original_index nd)) nodes
    /\ (forall k pos, nth_error pts k = Some pos ->
          emitted_at nodes (i + k) <->
          (existsb (Nat.eqb (i + k)) J = true
           \/ norm_ge pos
                (match last_before nodes (i + k) with
                 | Some m => node_point m
                 | None => last_pos
                 end) sp = true)).
Proof.
  induction pts as [|pos pts IH]; intros i last_pos next nodes next' H.
  - simpl in H. injection H as <- <-.
    split; [lia|]. split; [constructor|].
    intros k p Hk. destruct k; discriminate.
  - simpl in H.
    (* the three branches share the treatment of the later indices *)
    assert (Later : forall last' nxt nodes0 nd_opt,
      interior_nodes pts (S i) J sp fl last' nxt = (nodes0, next') ->
      (next <= nxt)%nat ->
      nodes = match nd_opt with Some nd => nd :: nodes0 | None => nodes0 end ->
      match nd_opt with
      | Some nd => original_index nd = i /\ node_point nd = pos
                   /\ last' = pos /\ floor_level nd = fl
                   /\ node_id nd = next /\ nxt = S next
                   /\ node_type nd = interior_type J i
                   /\ (existsb (Nat.eqb i) J = true
                       \/ norm_ge pos last_pos sp = true)
      | None => last' = last_pos
                /\ existsb (Nat.eqb i) J = false
                /\ norm_ge pos last_pos sp = false
      end ->
      (next <= next')%nat
      /\ Forall (fun nd =>
                  (i <= original_index nd < i + length (pos :: pts))%nat
                  /\ nth_error (pos :: pts) (original_index nd - i)
                     = Some (node_point nd)
                  /\ floor_level nd = fl
                  /\ (next <= node_id nd < next')%nat
                  /\ node_type nd = interior_type J (original_index nd)) nodes
      /\ (forall k p, nth_error (pos :: pts) k = Some p ->
            emitted_at nodes (i + k) <->
            (existsb (Nat.eqb (i + k)) J = true
             \/ norm_ge p
                  (match last_before nodes (i + k) with
                   | Some m => node_point m
                   | None => last_pos
                   end) sp = true))).
    { intros last' nxt nodes0 nd_opt Hrec Hnxt Hnodes Hcase.
      destruct (IH _ _ _ _ _ Hrec) as [Hle [Hall Hemit]].
      assert (Hall' : Forall (fun nd =>
                  (i <= original_index nd < i + length (pos :: pts))%nat
                  /\ nth_error (pos :: pts) (original_index nd - i)
                     = Some (node_point nd)
                  /\ floor_level nd = fl
                  /\ (next <= node_id nd < next')%nat
                  /\ node_type nd = interior_type J (original_index nd))
                nodes0).
      { eapply Forall_impl; [|exact Hall]. simpl.
        intros nd [Hi [Hn [Hf [Hid Ht]]]].
        replace (original_index nd - i)%nat
          with (S (original_index nd - S i)) by lia.
        simpl. repeat split; auto; lia. }
      assert (Hge : Forall (fun nd => (S i <= original_index nd)%nat) nodes0).
      { eapply Forall_impl; [|exact Hall]. simpl. intros nd [Hi _]. lia. }
      assert (Hnot : ~ emitted_at nodes0 i).
      { intros [nd [Hin E]]. rewrite Forall_forall in Hge.
        specialize (Hge nd Hin). lia. }
      split; [lia|].
      destruct nd_opt as [nd|]; subst nodes.
      - destruct Hcase as [Ei [Ep [El [Ef [Eid [En [Et Ec]]]]]]]. subst nxt.
        split.
        + constructor; [|exact Hall'].
          rewrite Ei, Nat.sub_diag. simpl. rewrite Ep, Et, Ef, Eid.
          repeat split; auto; lia.
        + intros k p Hk. destruct k as [|k].
          * simpl in Hk. injection Hk as <-. rewrite Nat.add_0_r.
            cbn [last_before].
            rewrite (last_before_none nodes0 i)
              by (eapply Forall_impl; [|exact Hge]; simpl; intros; lia).
            rewrite Ei, Nat.ltb_irrefl.
            split; [intros _; exact Ec|].
            intros _. exists nd. split; [left; reflexivity|exact Ei].
          * simpl in Hk. replace (i + S k)%nat with (S i + k)%nat by lia.
            cbn [last_before].
            assert (Eltb : (original_index nd <? S i + k)%nat = true)
              by (apply Nat.ltb_lt; lia).
            rewrite Eltb.
            assert (Eprev :
              match match last_before nodes0 (S i + k) with
                    | Some m => Some m
                    | None => Some nd
                    end with
              | Some m => node_point m
              | None => last_pos
              end =
              match last_before nodes0 (S i + k) with
              | Some m => node_point m
              | None => last'
              end).
            { destruct (last_before nodes0 (S i + k)); congruence. }
            rewrite Eprev. rewrite <- (Hemit k p Hk).
            split.
            -- intros [nd' [[<-|Hin] E]]; [lia|].
               exists nd'. auto.
            -- intros [nd' [Hin E]]. exists nd'. split; [right|]; auto.
      - destruct Hcase as [El [Ej Ed]]. subst last'.
        split; [exact Hall'|].
        intros k p Hk. destruct k as [|k].
        + simpl in Hk. injection Hk as <-. rewrite Nat.add_0_r.
          rewrite (last_before_none nodes0 i)
            by (eapply Forall_impl; [|exact Hge]; simpl; intros; lia).
          rewrite Ej, Ed. split; [intro Hc; contradiction|].
          intros [Hc|Hc]; discriminate.
        + simpl in Hk. replace (i + S k)%nat with (S i + k)%nat by lia.
          apply (Hemit k p Hk). }
    destruct (existsb (Nat.eqb i) J) eqn:Ej.
    + destruct (interior_nodes pts (S i) J sp fl pos (S next))
        as [nodes0 nxt'] eqn:Hrec.
      injection H as <- <-.
      apply (Later pos (S next) nodes0
               (Some (make_node next pos JUNCTION i fl)) Hrec);
        [lia|reflexivity|].
      unfold interior_type. rewrite Ej. simpl.
      destruct pos; repeat split; auto.
    + destruct (norm_ge pos last_pos sp) eqn:Ed.
      * destruct (interior_nodes pts (S i) J sp fl pos (S next))
          as [nodes0 nxt'] eqn:Hrec.
        injection H as <- <-.
        apply (Later pos (S next) nodes0
                 (Some (make_node next pos WAYPOINT i fl)) Hrec);
          [lia|reflexivity|].
        unfold interior_type. rewrite Ej. simpl.
        destruct pos; repeat split; auto.
      * apply (Later last_pos next nodes None H); [lia|reflexivity|].
        repeat split; auto.
Qed.

Lemma node_point_make_node (id : nat) (pos : Point) (t : NodeType) (i : nat)
    (fl : option Z) :
  node_point (make_node id pos t i fl) = pos.
Proof. destruct pos. reflexivity. Qed.

Lemma interior_points (positions : list Point) (i : nat) :
  (0 < i)%nat -> (i + 1 < length positions)%nat ->
  nth_error (removelast (tl positions)) (i - 1)
  = Some (point_at positions i).
Proof.
  intros H0 Hn.
  assert (Lt : length (tl positions) = (length positions - 1)%nat)
    by (destruct positions; simpl; lia).
  rewrite nth_error_removelast_lt by lia.
  rewrite nth_error_tl. replace (S (i - 1)) with i by lia.
  apply nth_error_nth_default. lia.
Qed.

Lemma removelast_tl_length (positions : list Point) :
  length (removelast (tl positions)) = (length positions - 2)%nat.
Proof.
  destruct positions as [|a l]; [reflexivity|]. simpl tl.
  destruct l as [|b l _] using rev_ind; [reflexivity|].
  rewrite removelast_last. simpl length. rewrite length_app. simpl. lia.
Qed.


Example corridor_nodes :
  map j_index (detect_junctions corridor) = [6%nat]
  /\ map (fun nd => (original_index nd, node_type nd))
       (fst (extract_path_nodes corridor (detect_junctions corridor)
               NODE_SPACING (Some 1%Z) 0))
     = [ (0, ENDPOINT); (2, WAYPOINT); (4, WAYPOINT); (6, JUNCTION);
         (8, WAYPOINT); (10, WAYPOINT); (11, ENDPOINT) ]%nat.
Proof. split; vm_compute; reflexivity. Qed.


(** *** Path length against straight-line distance *)


Lemma Q2R_sqdist (a b : Point) :
  Q2R (sqdist a b) =
  ((Q2R (px a) - Q2R (px b)) * (Q2R (px a) - Q2R (px b))
   + (Q2R (py a) - Q2R (py b)) * (Q2R (py a) - Q2R (py b))
   + (Q2R (pz a) - Q2R (pz b)) * (Q2R (pz a) - Q2R (pz b)))%R.
Proof.
  unfold sqdist, Qsq. rewrite !Q2R_plus, !Q2R_mult, !Q2R_minus. reflexivity.
Qed.


Lemma point_at_nth_error (positions : list Point) (i : nat) :
  (i < length positions)%nat ->
  nth_error positions i = Some (point_at positions i).
Proof. intro H. apply nth_error_nth_default. exact H. Qed.

Lemma path_sum_plen (positions : list Point) (len : nat) :
  forall start_,
    (len = 0 \/ start_ + len < length positions)%nat ->
    path_sum positions start_ len = Some (plen positions start_ len).
Proof.
  induction len as [|len IH]; intros s H; cbn [path_sum plen]; [reflexivity|].
  destruct H as [H|H]; [discriminate|].
  rewrite (point_at_nth_error positions s), (point_at_nth_error positions (S s))
    by lia.
  rewrite IH; [reflexivity|]. destruct len; [left; reflexivity|right; lia].
Qed.

Lemma plen_nonneg (positions : list Point) (len : nat) :
  forall start_, (0 <= plen positions start_ len)%R.
Proof.
  induction len as [|len IH]; intro s; simpl; [lra|].
  pose proof (norm_nonneg (point_at positions (S s)) (point_at positions s)).
  specialize (IH (S s)). lra.
Qed.



(** *** Order of the emitted nodes *)

Lemma StronglySorted_app_last {A : Type} (R : A -> A -> Prop) (l : list A)
    (x : A) :
  StronglySorted R l -> Forall (fun a => R a x) l ->
  StronglySorted R (l ++ [x]).
Proof.
  induction 1 as [|a l Hs IH Ha]; intro Hx; simpl.
  - constructor; constructor.
  - inversion Hx; subst. constructor; [apply IH; assumption|].
    apply Forall_app. split; [exact Ha|]. constructor; [assumption|constructor].
Qed.

Lemma StronglySorted_before {A : Type} (R : A -> A -> Prop) (l1 l2 : list A)
    (x : A) :
  StronglySorted R (l1 ++ x :: l2) -> Forall (fun a => R a x) l1.
Proof.
  induction l1 as [|a l1 IH]; intro H; [constructor|].
  simpl in H. inversion H as [|? ? Hs Ha]; subst.
  constructor; [|apply IH; exact Hs].
  rewrite Forall_forall in Ha. apply Ha. apply in_or_app. right. left. reflexivity.
Qed.

Lemma interior_nodes_sorted (J : list nat) (sp : Q) (fl : option Z)
    (pts : list Point) :
  forall i last_pos next nodes next',
    interior_nodes pts i J sp fl last_pos next = (nodes, next') ->
    StronglySorted lt_node nodes.
Proof.
  induction pts as [|pos pts IH]; intros i last_pos next nodes next' H.
  - simpl in H. injection H as <- <-. constructor.
  - simpl in H.
    assert (Emit : forall t nodes0,
      interior_nodes pts (S i) J sp fl pos (S next) = (nodes0, next') ->
      StronglySorted lt_node (make_node next pos t i fl :: nodes0)).
    { intros t nodes0 Hrec. constructor; [eapply IH; exact Hrec|].
      destruct (interior_nodes_spec _ _ _ _ _ _ _ _ _ Hrec) as [_ [Hall _]].
      eapply Forall_impl; [|exact Hall]. simpl.
      intros nd [Hi [_ [_ [Hid _]]]]. unfold lt_node. simpl. lia. }
    destruct (existsb (Nat.eqb i) J).
    + destruct (interior_nodes pts (S i) J sp fl pos (S next))
        as [nodes0 nxt] eqn:Hrec.
      injection H as <- <-. apply Emit. reflexivity.
    + destruct (norm_ge pos last_pos sp).
      * destruct (interior_nodes pts (S i) J sp fl pos (S next))
          as [nodes0 nxt] eqn:Hrec.
        injection H as <- <-. apply Emit. reflexivity.
      * eapply IH. exact H.
Qed.

(** The nodes of a polyline are listed by increasing index with fresh
    identifiers, and each sits on the point of its index. *)
Lemma extract_path_nodes_sorted (positions : list Point)
    (junctions : list Junction) (sp : Q) (fl : option Z) (next : nat) :
  let nodes := fst (extract_path_nodes positions junctions sp fl next) in
  StronglySorted lt_node nodes
  /\ Forall (fun nd => (original_index nd < length positions)%nat
                       /\ node_point nd
                          = point_at positions (original_index nd)) nodes.
Proof.
  unfold extract_path_nodes.
  destruct (length positions <? 2)%nat eqn:E2.
  { simpl. split; constructor. }
  apply Nat.ltb_ge in E2.
  destruct (interior_nodes (removelast (tl positions)) 1 (map j_index junctions)
              sp fl (point_at positions 0) (S next))
    as [middle next'] eqn:Hmid.
  cbn [fst].
  pose proof (interior_nodes_sorted _ _ _ _ _ _ _ _ _ Hmid) as Hs.
  destruct (interior_nodes_spec _ _ _ _ _ _ _ _ _ Hmid) as [Hle [Hall _]].
  rewrite removelast_tl_length in Hall.
  split.
  - constructor.
    + apply StronglySorted_app_last; [exact Hs|].
      eapply Forall_impl; [|exact Hall]. simpl.
      intros nd [Hi [_ [_ [Hid _]]]]. unfold lt_node. simpl. lia.
    + apply Forall_app. split.
      * eapply Forall_impl; [|exact Hall]. simpl.
        intros nd [Hi [_ [_ [Hid _]]]]. unfold lt_node. simpl. lia.
      * constructor; [|constructor]. unfold lt_node. simpl. lia.
  - constructor; [simpl; split; [lia|apply node_point_make_node]|].
    apply Forall_app. split.
    + eapply Forall_impl; [|exact Hall]. simpl.
      intros nd [Hi [Hp _]]. split; [lia|].
      rewrite interior_points in Hp by lia. congruence.
    + constructor; [|constructor]. simpl.
      split; [lia|apply node_point_make_node].
Qed.

Lemma insert_node_after (n : PathNode) (acc : list PathNode) :
  Forall (fun m => lt_node m n) acc -> insert_node n acc = acc ++ [n].
Proof.
  induction 1 as [|m acc Hm _ IH]; simpl; [reflexivity|].
  destruct Hm as [Hm _].
  assert (E : (original_index m <=? original_index n)%nat = true)
    by (apply Nat.leb_le; lia).
  rewrite E, IH. reflexivity.
Qed.

(** Sorting by [original_index] leaves the extracted nodes in place. *)
Lemma sort_nodes_sorted (nodes : list PathNode) :
  StronglySorted lt_node nodes -> sort_nodes nodes = nodes.
Proof.
  unfold sort_nodes.
  assert (G : forall l acc, StronglySorted lt_node (acc ++ l) ->
            fold_left (fun acc n => insert_node n acc) l acc = acc ++ l).
  { induction l as [|n l IH]; intros acc H; simpl.
    - rewrite app_nil_r. reflexivity.
    - rewrite insert_node_after by (eapply StronglySorted_before; exact H).
      rewrite IH; rewrite <- app_assoc; [reflexivity|exact H]. }
  intro H. apply (G nodes []). exact H.
Qed.


(** *** Edges *)


Lemma Rle_bool_true (x y : R) : (x <= y)%R -> Rle_bool x y = true.
Proof. intro H. unfold Rle_bool. destruct (Rle_dec x y); [reflexivity|lra]. Qed.

Lemma connect_cons (n1 n2 : PathNode) (rest : list PathNode)
    (positions : list Point) (max_distance : R) (next : nat) :
  connect (n1 :: n2 :: rest) positions max_distance next =
  match _calculate_path_distance positions (original_index n1)
          (original_index n2) with
  | None => None
  | Some path_distance =>
    if Rle_bool path_distance max_distance then
      match connect (n2 :: rest) positions max_distance (S next) with
      | Some (edges, next') =>
        Some (mkEdge next (node_id n1) (node_id n2) path_distance
                     true HORIZONTAL :: edges, next')
      | None => None
      end
    else connect (n2 :: rest) positions max_distance next
  end.
Proof. reflexivity. Qed.

Lemma connect_spec (positions : list Point) (max_distance : R)
    (sorted_nodes : list PathNode) :
  StronglySorted lt_node sorted_nodes ->
  Forall (fun nd => (original_index nd < length positions)%nat) sorted_nodes ->
  forall next,
  exists edges next',
    connect sorted_nodes positions max_distance next = Some (edges, next')
    /\ Forall (joins positions sorted_nodes) edges.
Proof.
  induction 1 as [|n1 rest Hs IH Hn1]; intros Hr next.
  - exists [], next. split; [reflexivity|constructor].
  - destruct rest as [|n2 rest'].
    + exists [], next. split; [reflexivity|constructor].
    + inversion Hr as [|? ? R1 Rrest]; subst.
      inversion Rrest as [|? ? R2 _]; subst.
      inversion Hn1 as [|? ? [H12 _] _]; subst.
      rewrite connect_cons. unfold _calculate_path_distance.
      assert (E : (original_index n2 <=? original_index n1)%nat = false)
        by (apply Nat.leb_gt; exact H12).
      rewrite E, path_sum_plen by (right; lia).
      assert (Weaken : forall edges,
                Forall (joins positions (n2 :: rest')) edges ->
                Forall (joins positions (n1 :: n2 :: rest')) edges).
      { intros edges F. eapply Forall_impl; [|exact F].
        intros e [Ht [a [b [Ha [Hb Hrest]]]]].
        split; [exact Ht|]. exists a, b.
        split; [right; exact Ha|]. split; [right; exact Hb|]. exact Hrest. }
      destruct (Rle_bool _ max_distance).
      * destruct (IH Rrest (S next)) as [edges [next' [Hc Hj]]].
        rewrite Hc. eexists _, next'. split; [reflexivity|].
        constructor; [|apply Weaken; exact Hj].
        split; [reflexivity|]. exists n1, n2. simpl.
        split; [left; reflexivity|]. split; [right; left; reflexivity|].
        repeat split; auto.
      * destruct (IH Rrest next) as [edges [next' [Hc Hj]]].
        rewrite Hc. exists edges, next'. split; [reflexivity|].
        apply Weaken. exact Hj.
Qed.

(** [build_path_graph] always returns, and every edge joins two of its
    nodes. *)
Lemma build_path_graph_spec (positions : list Point) (floor : option Z)
    (next : nat) :
  exists nodes edges next',
    build_path_graph positions floor next = Some (nodes, edges, next')
    /\ nodes = fst (extract_path_nodes positions (detect_junctions positions)
                      NODE_SPACING floor next)
    /\ Forall (joins positions nodes) edges.
Proof.
  unfold build_path_graph.
  pose proof (extract_path_nodes_sorted positions (detect_junctions positions)
                NODE_SPACING floor next) as [Hs Hall].
  destruct (extract_path_nodes positions (detect_junctions positions)
              NODE_SPACING floor next) as [nodes next1].
  cbn [fst] in *. unfold extract_path_edges.
  destruct (length nodes <? 2)%nat.
  - exists nodes, [], next1. repeat split; constructor.
  - rewrite (sort_nodes_sorted nodes Hs).
    destruct (connect_spec positions EDGE_CONNECTION_RADIUS nodes Hs
                ltac:(eapply Forall_impl; [|exact Hall]; simpl; tauto) next1)
      as [edges [next' [Hc Hj]]].
    rewrite Hc. exists nodes, edges, next'. auto.
Qed.


(** *** A floor of three points one metre apart *)

Lemma unit_step_norm (a b : Q) :
  b - a == 1 -> norm (mkPoint b 0 0) (mkPoint a 0 0) = 1%R.
Proof.
  intro H. unfold norm.
  assert (E : Q2R (sqdist (mkPoint b 0 0) (mkPoint a 0 0)) = (1 * 1)%R).
  { rewrite Q2R_sqdist. cbn [px py pz].
    rewrite <- Q2R_minus, (Qeq_eqR _ _ H).
    unfold Q2R. simpl. lra. }
  rewrite E. apply sqrt_square. lra.
Qed.

(** Both segments of [three_points] become edges of length 1. *)
Example three_points_graph :
  exists e1 e2,
    build_path_graph three_points (Some 1%Z) 0 =
    Some ([make_node 0 (mkPoint 0 0 0) ENDPOINT 0 (Some 1%Z);
           make_node 1 (mkPoint 1 0 0) WAYPOINT 1 (Some 1%Z);
           make_node 2 (mkPoint 2 0 0) ENDPOINT 2 (Some 1%Z)],
          [e1; e2], 5%nat)
    /\ from_node_id e1 = 0%nat /\ to_node_id e1 = 1%nat
    /\ from_node_id e2 = 1%nat /\ to_node_id e2 = 2%nat
    /\ distance e1 = 1%R /\ distance e2 = 1%R.
Proof.
  unfold build_path_graph.
  change (extract_path_nodes three_points (detect_junctions three_points)
            NODE_SPACING (Some 1%Z) 0)
    with ([make_node 0 (mkPoint 0 0 0) ENDPOINT 0 (Some 1%Z);
           make_node 1 (mkPoint 1 0 0) WAYPOINT 1 (Some 1%Z);
           make_node 2 (mkPoint 2 0 0) ENDPOINT 2 (Some 1%Z)], 3%nat).
  cbv beta iota. unfold extract_path_edges.
  cbn [length Nat.ltb Nat.leb].
  change (sort_nodes _)
    with [make_node 0 (mkPoint 0 0 0) ENDPOINT 0 (Some 1%Z);
          make_node 1 (mkPoint 1 0 0) WAYPOINT 1 (Some 1%Z);
          make_node 2 (mkPoint 2 0 0) ENDPOINT 2 (Some 1%Z)].
  assert (N1 : norm (mkPoint 1 0 0) (mkPoint 0 0 0) = 1%R)
    by (apply unit_step_norm; reflexivity).
  assert (N2 : norm (mkPoint 2 0 0) (mkPoint 1 0 0) = 1%R)
    by (apply unit_step_norm; reflexivity).
  rewrite !connect_cons. unfold _calculate_path_distance.
  cbn [make_node original_index Nat.leb Nat.sub].
  rewrite !path_sum_plen by (right; simpl; lia).
  cbn [plen point_at nth three_points]. rewrite N1, N2.
  rewrite !Rle_bool_true by (unfold EDGE_CONNECTION_RADIUS; lra).
  cbn [connect].
  eexists _, _. split; [reflexivity|].
  cbn [from_node_id to_node_id distance make_node node_id].
  repeat split; lra.
Qed.


(** *** Floor merging *)

Lemma merge_from_no_points (positions : list Point) (gap : Z)
    (rest : list Passage) :
  forall current,
    no_passage_points current -> Forall no_passage_points rest ->
    Forall no_passage_points (merge_from positions gap current rest).
Proof.
  induction rest as [|seg rest IH]; intros current Hc Hr; simpl.
  - constructor; [exact Hc|constructor].
  - inversion Hr; subst.
    destruct (direction_eqb (direction current) (direction seg)
              && (Z.of_nat (start_idx seg) - Z.of_nat (end_idx current) <? gap)%Z).
    + apply IH; [exact Hc|assumption].
    + constructor; [exact Hc|]. apply IH; assumption.
Qed.

(** No passage dictionary built by the detector and completed by
    [assign_floors_to_stairs] has an [entry_point] or [exit_point] key. *)
Lemma detector_passages_no_points (positions : list Point) (zc : Q)
    (w : nat) (mt : Q) (mp : nat) (floors_data : FloorsData) :
  Forall no_passage_points
    (assign_floors_to_stairs
       (fst (detect_stairs_first positions zc w mt mp)) floors_data).
Proof.
  unfold assign_floors_to_stairs. apply Forall_map.
  unfold detect_stairs_first. cbn [fst].
  assert (H : Forall no_passage_points
                (group_segments positions mt mp
                   (vertical_runs (changing_z positions zc w mt)))).
  { generalize (vertical_runs (changing_z positions zc w mt)) as runs.
    induction runs as [|run runs IH]; simpl; [constructor|].
    unfold analyse_run. destruct (run_kept positions mt mp run); [|exact IH].
    constructor; [split; reflexivity|exact IH]. }
  assert (M : Forall no_passage_points
                (_merge_stair_segments
                   (group_segments positions mt mp
                      (vertical_runs (changing_z positions zc w mt)))
                   positions GAP_THRESHOLD)).
  { unfold _merge_stair_segments.
    destruct (group_segments positions mt mp _) as [|c [|s rest]];
      try exact H.
    inversion H; subst. apply merge_from_no_points; assumption. }
  eapply Forall_impl; [|exact M]. intros p [He Hx]. split; assumption.
Qed.

Lemma connect_passages_no_points (all_nodes : list PathNode)
    (passages : list Passage) :
  Forall no_passage_points passages ->
  forall next, connect_passages all_nodes passages next = ([], next).
Proof.
  induction 1 as [|p passages [He Hx] _ IH]; intro next; simpl;
    [reflexivity|].
  rewrite He. simpl. apply IH.
Qed.

(** C1 fails in the pipeline.  [merge_floor_graphs] reads the keys
    [entry_point] and [exit_point] of each passage, which neither
    [detect_stairs_first] nor [assign_floors_to_stairs] ever writes: both
    nearest-node queries return [None] for every passage, every passage is
    skipped, and the merged graph consists of the floor graphs alone. *)
Theorem pipeline_emits_no_vertical_edge :
  forall (positions : list Point) (floors_data : FloorsData)
         (floor_graphs : list FloorGraph) (next_id : nat),
    merge_floor_graphs floor_graphs
      (assign_floors_to_stairs (fst (detect_stairs_default positions))
         floors_data)
      next_id
    = (flat_map (fun fg => fst (snd fg)) floor_graphs,
       flat_map (fun fg => snd (snd fg)) floor_graphs,
       next_id).
Proof.
  intros positions floors_data floor_graphs next_id.
  unfold merge_floor_graphs, detect_stairs_default.
  rewrite connect_passages_no_points
    by apply detector_passages_no_points.
  rewrite app_nil_r. reflexivity.
Qed.

Lemma nearest_scan (target : Point) (floor : option Z) (l : list PathNode) :
  forall seen st,
    nearest_so_far target floor seen st ->
    nearest_so_far target floor (seen ++ l)
      (fold_left
         (fun (st : option PathNode * option Q) node =>
            if (match floor with Some _ => true | None => false end)
               && negb (option_Z_eqb (floor_level node) floor)
            then st
            else
              let dist2 := sqdist target (node_point node) in
              match snd st with
              | None => (Some node, Some dist2)
              | Some min_dist2 =>
                if Qlt_bool dist2 min_dist2 then (Some node, Some dist2)
                else st
              end)
         l st).
Proof.
  induction l as [|node l IH]; intros seen st H; simpl.
  - rewrite app_nil_r. exact H.
  - replace (seen ++ node :: l) with ((seen ++ [node]) ++ l)
      by (rewrite <- app_assoc; reflexivity).
    apply IH.
    assert (Hf : (match floor with Some _ => true | None => false end)
                 && negb (option_Z_eqb (floor_level node) floor)
                 = negb (on_floor floor node)).
    { unfold on_floor. destruct floor; reflexivity. }
    rewrite Hf.
    destruct (on_floor floor node) eqn:Eon; simpl.
    + destruct st as [[best|] [d|]]; simpl in *; try contradiction.
      * destruct H as [Hin [Hb [Hd Hmin]]].
        destruct (Qlt_bool (sqdist target (node_point node)) d) eqn:Elt; simpl.
        -- apply Qlt_bool_iff in Elt.
           split; [apply in_or_app; right; left; reflexivity|].
           split; [exact Eon|]. split; [reflexivity|].
           intros nd Hnd Hon. apply in_app_or in Hnd.
           destruct Hnd as [Hnd|[<-|[]]]; [|apply Qle_refl].
           apply Qle_trans with d; [apply Qlt_le_weak; exact Elt|].
           apply Hmin; assumption.
        -- split; [apply in_or_app; left; exact Hin|].
           split; [exact Hb|]. split; [exact Hd|].
           intros nd Hnd Hon. apply in_app_or in Hnd.
           destruct Hnd as [Hnd|[<-|[]]]; [apply Hmin; assumption|].
           apply Qnot_lt_le. intro L. apply Qlt_bool_iff in L. congruence.
      * split; [apply in_or_app; right; left; reflexivity|].
        split; [exact Eon|]. split; [reflexivity|].
        intros nd Hnd Hon. apply in_app_or in Hnd.
        destruct Hnd as [Hnd|[<-|[]]]; [|apply Qle_refl].
        rewrite (H nd Hnd) in Hon. discriminate.
    + destruct st as [[best|] [d|]]; simpl in *; try contradiction.
      * destruct H as [Hin [Hb [Hd Hmin]]].
        split; [apply in_or_app; left; exact Hin|].
        split; [exact Hb|]. split; [exact Hd|].
        intros nd Hnd Hon. apply in_app_or in Hnd.
        destruct Hnd as [Hnd|[<-|[]]]; [apply Hmin; assumption|congruence].
      * intros nd Hnd. apply in_app_or in Hnd.
        destruct Hnd as [Hnd|[<-|[]]]; [apply H; assumption|exact Eon].
Qed.

(** [_find_nearest_node_to_position] returns a node of the floor that is
    nearest to the target, and fails only when the floor has no node. *)
Lemma find_nearest_spec (nodes : list PathNode) (target : Point)
    (floor : option Z) :
  match _find_nearest_node_to_position nodes (Some target) floor with
  | Some best =>
    In best nodes /\ on_floor floor best = true
    /\ forall nd, In nd nodes -> on_floor floor nd = true ->
                   (norm target (node_point best)
                    <= norm target (node_point nd))%R
  | None => forall nd, In nd nodes -> on_floor floor nd = false
  end.
Proof.
  unfold _find_nearest_node_to_position.
  destruct nodes as [|n0 nodes]; [intros nd []|].
  pose proof (nearest_scan target floor (n0 :: nodes) [] (None, None)) as H.
  simpl app in H. specialize (H ltac:(intros nd [])).
  destruct (fold_left _ (n0 :: nodes) (None, None)) as [[best|] [d|]];
    simpl in H; try contradiction; cbn [fst].
  - destruct H as [Hin [Hb [Hd Hmin]]]. split; [exact Hin|].
    split; [exact Hb|]. intros nd Hnd Hon. unfold norm.
    apply sqrt_le_1_alt. apply Qle_Rle. rewrite <- Hd. apply Hmin; assumption.
  - exact H.
Qed.

(** Given passages that do carry their entry and exit positions,
    [merge_floor_graphs] connects every passage whose two floors have a
    node, as the specification describes. *)
Lemma connect_passages_given_points (all_nodes : list PathNode)
    (passages : list Passage) :
  forall next p pe px,
    In p passages ->
    entry_point p = Some pe -> exit_point p = Some px ->
    (exists nd, In nd all_nodes /\ on_floor (from_floor p) nd = true) ->
    (exists nd, In nd all_nodes /\ on_floor (to_floor p) nd = true) ->
    exists en ex e,
      _find_nearest_node_to_position all_nodes (Some pe) (from_floor p)
        = Some en
      /\ _find_nearest_node_to_position all_nodes (Some px) (to_floor p)
        = Some ex
      /\ In e (fst (connect_passages all_nodes passages next))
      /\ from_node_id e = node_id en /\ to_node_id e = node_id ex
      /\ distance e = Q2R (z_displacement p)
      /\ is_bidirectional e = true
      /\ edge_type e = vertical_edge_type (p_type p).
Proof.
  induction passages as [|q passages IH]; intros next p pe px Hin He Hx Hf Ht;
    [contradiction|].
  cbn [connect_passages].
  destruct Hin as [->|Hin].
  - rewrite He, Hx.
    pose proof (find_nearest_spec all_nodes pe (from_floor p)) as S1.
    pose proof (find_nearest_spec all_nodes px (to_floor p)) as S2.
    destruct (_find_nearest_node_to_position all_nodes (Some pe) (from_floor p))
      as [en|].
    2:{ destruct Hf as [nd [Hn Hon]]. rewrite (S1 nd Hn) in Hon. discriminate. }
    destruct (_find_nearest_node_to_position all_nodes (Some px) (to_floor p))
      as [ex|].
    2:{ destruct Ht as [nd [Hn Hon]]. rewrite (S2 nd Hn) in Hon. discriminate. }
    destruct (connect_passages all_nodes passages (S next)) as [edges nx].
    eexists en, ex, _. split; [reflexivity|]. split; [reflexivity|].
    cbn [fst]. split; [left; reflexivity|]. cbn. repeat split.
  - destruct (_find_nearest_node_to_position all_nodes (entry_point q)
                (from_floor q)) as [en'|];
    [destruct (_find_nearest_node_to_position all_nodes (exit_point q)
                 (to_floor q)) as [ex'|]|].
    + destruct (IH (S next) p pe px Hin He Hx Hf Ht)
        as [en [ex [e [H1 [H2 [H3 H4]]]]]].
      destruct (connect_passages all_nodes passages (S next)) as [edges nx].
      exists en, ex, e. split; [exact H1|]. split; [exact H2|].
      cbn [fst] in *. split; [right; exact H3|exact H4].
    + apply IH; assumption.
    + apply IH; assumption.
Qed.

(** Scenario S4 at the merger: each floor has a node, the passage found by
    the detector runs from floor 1 to floor 2, and the merged graph has no
    edge. *)
Example stairs_left_unconnected :
  let floor_graphs : list FloorGraph :=
    [ (1%Z, ([make_node 0 (mkPoint 22 0 0) ENDPOINT 0 (Some 1%Z)], []));
      (2%Z, ([make_node 1 (mkPoint 30 0 3) ENDPOINT 0 (Some 2%Z)], [])) ] in
  let passages :=
    assign_floors_to_stairs
      (fst (detect_stairs_default VerticalSpec.two_floors_and_stairs))
      [(1%Z, 0); (2%Z, 3)] in
  length passages = 1%nat
  /\ Forall (fun p => from_floor p = Some 1%Z /\ to_floor p = Some 2%Z)
       passages
  /\ snd (fst (merge_floor_graphs floor_graphs passages 2)) = [].
Proof.
  intros floor_graphs passages.
  destruct VerticalFacts.two_floors_and_stairs_passage
    as [p [Hp [_ [_ [_ [Hf [Ht _]]]]]]].
  subst passages. rewrite Hp.
  split; [reflexivity|]. split; [constructor; [auto|constructor]|].
  rewrite <- Hp. unfold merge_floor_graphs.
  rewrite connect_passages_no_points
    by apply detector_passages_no_points.
  reflexivity.
Qed.

End GraphFacts.

Module MainFacts.
Import Geom Vertical Graph Main GeomFacts ListFacts GraphFacts GraphSpec MainSpec.
Local Open Scope R_scope.

Lemma plen_shift (p : Point) (l : list Point) (len : nat) :
  forall s, plen (p :: l) (S s) len = plen l s len.
Proof.
  induction len as [|len IH]; intro s; simpl; [reflexivity|].
  rewrite IH. reflexivity.
Qed.

Lemma segments_length (positions : list Point) :
  forall i, Rsum (map seg_length (segments_from positions i))
            = polyline_length positions.
Proof.
  unfold polyline_length.
  induction positions as [|p [|q rest] IH]; intro i; try reflexivity.
  change (segments_from (p :: q :: rest) i)
    with (mkSegment i p q (norm q p) :: segments_from (q :: rest) (S i)).
  cbn [map Rsum fold_right seg_length]. fold (Rsum (map seg_length (segments_from (q :: rest) (S i)))).
  rewrite IH.
  replace (length (p :: q :: rest) - 1)%nat with (S (length rest))
    by (simpl; lia).
  replace (length (q :: rest) - 1)%nat with (length rest) by (simpl; lia).
  cbn [plen]. rewrite plen_shift. reflexivity.
Qed.





(** *** Edge distances against polyline length *)











(** *** A floor of two points four metres apart *)


(** The deduplication and flattening stages hand [two_points] on
    unchanged: a floor of these two points reaches the graph and result
    stages as it is. *)
Example two_points_flattened :
  Dedup.deduplicate_floor two_points = two_points
  /\ Flatten.snap_to_lines two_points (1 # 2) (1 # 2) 5
     = Flatten.Ok two_points.
Proof. split; vm_compute; reflexivity. Qed.






End MainFacts.

Module ListProps.
Import ListSpec.

Lemma Subseq_refl {A : Type} (l : list A) : Subseq l l.
Proof. induction l; constructor; assumption. Qed.

Lemma Subseq_nil_l {A : Type} (l : list A) : Subseq [] l.
Proof. induction l; constructor; assumption. Qed.

Lemma Subseq_app {A : Type} (a b c d : list A) :
  Subseq a b -> Subseq c d -> Subseq (a ++ c) (b ++ d).
Proof. induction 1; intros; simpl; try constructor; auto. Qed.

Lemma Subseq_app_r {A : Type} (a b c : list A) :
  Subseq a b -> Subseq a (b ++ c).
Proof.
  intro H. rewrite <- (app_nil_r a). apply Subseq_app; [exact H|].
  apply Subseq_nil_l.
Qed.

Lemma Subseq_app_l {A : Type} (a b c : list A) :
  Subseq a b -> Subseq a (c ++ b).
Proof. intro H. induction c; simpl; [exact H|constructor; exact IHc]. Qed.

Lemma Subseq_length {A : Type} (a b : list A) :
  Subseq a b -> (length a <= length b)%nat.
Proof. induction 1; simpl; lia. Qed.

Lemma Subseq_In {A : Type} (a b : list A) (x : A) :
  Subseq a b -> In x a -> In x b.
Proof.
  induction 1; simpl; intro H0; auto.
  destruct H0; auto.
Qed.

Lemma Subseq_trans {A : Type} (a b c : list A) :
  Subseq a b -> Subseq b c -> Subseq a c.
Proof.
  intros Hab Hbc. revert a Hab.
  induction Hbc; intros a Hab.
  - exact Hab.
  - inversion Hab; subst.
    + constructor. apply IHHbc. assumption.
    + apply Subseq_drop. apply IHHbc. assumption.
  - apply Subseq_drop. apply IHHbc. assumption.
Qed.

Lemma Subseq_concat {A : Type} (a b : list (list A)) :
  Subseq a b -> Subseq (concat a) (concat b).
Proof.
  induction 1; simpl.
  - constructor.
  - apply Subseq_app; [apply Subseq_refl|assumption].
  - apply Subseq_app_l. assumption.
Qed.

Lemma Subseq_filter {A : Type} (f : A -> bool) (l : list A) :
  Subseq (filter f l) l.
Proof.
  induction l as [|x l IH]; simpl; [constructor|].
  destruct (f x); constructor; exact IH.
Qed.

Lemma firstn_snoc_nth {A : Type} (l : list A) (i : nat) (x : A) :
  nth_error l i = Some x -> firstn (i + 1) l = firstn i l ++ [x].
Proof.
  revert i. induction l as [|a l IH]; intros [|i] H; simpl in *;
    try discriminate.
  - injection H as ->. reflexivity.
  - rewrite (IH i H). reflexivity.
Qed.

Lemma firstn_Subseq {A : Type} (l : list A) (i j : nat) :
  (i <= j)%nat -> Subseq (firstn i l) (firstn j l).
Proof.
  revert i j. induction l as [|a l IH]; intros i j H.
  - rewrite !firstn_nil. constructor.
  - destruct i as [|i]; [apply Subseq_nil_l|].
    destruct j as [|j]; [lia|]. simpl. constructor. apply IH. lia.
Qed.

Lemma firstn_Subseq_all {A : Type} (l : list A) (i : nat) :
  Subseq (firstn i l) l.
Proof.
  revert i. induction l as [|a l IH]; intros [|i]; simpl;
    try apply Subseq_nil_l. constructor. apply IH.
Qed.

(** Reading a list at strictly increasing indices leaves elements out and
    keeps the order. *)
Lemma map_nth_Subseq {A : Type} (l : list A) (d : A) (idxs : list nat) :
  forall k, StronglySorted lt idxs ->
    Forall (fun i => (i < k)%nat) idxs -> (k <= length l)%nat ->
    Subseq (map (fun i => nth i l d) idxs) (firstn k l).
Proof.
  induction idxs as [|m body IH] using rev_ind; intros k Hs Hf Hk.
  - apply Subseq_nil_l.
  - apply Forall_app in Hf. destruct Hf as [Hb Hm].
    inversion Hm as [|? ? Hmk _]; subst.
    assert (Hs' : StronglySorted lt body /\ Forall (fun i => (i < m)%nat) body).
    { clear - Hs. induction body as [|x body IHb]; simpl in *.
      - split; constructor.
      - inversion Hs as [|? ? Hs1 Hf1]; subst.
        destruct (IHb Hs1) as [H1 H2].
        apply Forall_app in Hf1. destruct Hf1 as [Hf1 Hf2].
        inversion Hf2; subst.
        split; constructor; assumption. }
    destruct Hs' as [Hs1 Hs2].
    rewrite map_app. cbn [map].
    apply Subseq_trans with (firstn (m + 1) l);
      [|apply firstn_Subseq; lia].
    rewrite (firstn_snoc_nth l m (nth m l d)) by (apply nth_error_nth'; lia).
    apply Subseq_app; [|apply Subseq_refl].
    apply IH; [exact Hs1|exact Hs2|lia].
Qed.

Lemma hd_nth0 {A : Type} (l : list A) (d : A) : hd d l = nth 0 l d.
Proof. destruct l; reflexivity. Qed.

Lemma last_nth {A : Type} (l : list A) (d : A) :
  last l d = nth (length l - 1) l d.
Proof.
  induction l as [|a l IH]; [reflexivity|].
  destruct l as [|b l']; [reflexivity|].
  change (last (a :: b :: l') d) with (last (b :: l') d). rewrite IH.
  simpl. rewrite Nat.sub_0_r. reflexivity.
Qed.

Lemma last_cons {A : Type} (l : list A) (x d : A) :
  last (x :: l) d = last l x.
Proof.
  revert x d. induction l as [|y l IH]; intros x d; [reflexivity|].
  change (last (x :: y :: l) d) with (last (y :: l) d).
  rewrite (IH y d), (IH y x). reflexivity.
Qed.

Lemma last_app_nonempty {A : Type} (a b : list A) (d : A) :
  b <> [] -> last (a ++ b) d = last b d.
Proof.
  intro Hb. induction a as [|x a IH]; [reflexivity|].
  simpl. rewrite IH. destruct (a ++ b) eqn:E; [|reflexivity].
  apply app_eq_nil in E. destruct E. contradiction.
Qed.

Lemma Subseq_map {A B : Type} (f : A -> B) (a b : list A) :
  Subseq a b -> Subseq (map f a) (map f b).
Proof. induction 1; simpl; constructor; assumption. Qed.

Lemma Subseq_sorted {A : Type} (R : A -> A -> Prop) (a b : list A) :
  Subseq a b -> StronglySorted R b -> StronglySorted R a.
Proof.
  induction 1 as [|x l1 l2 H IH|x l1 l2 H IH]; intros Hs.
  - constructor.
  - inversion Hs as [|? ? Hs' Hall]; subst. constructor; [apply IH; exact Hs'|].
    apply Forall_forall. intros y Hy.
    rewrite Forall_forall in Hall. apply Hall. eapply Subseq_In; eauto.
  - inversion Hs; subst. apply IH. assumption.
Qed.

Lemma FOP_snoc {A : Type} (P : A -> A -> Prop) (l : list A) (x : A) :
  ForallOrdPairs P l -> Forall (fun a => P a x) l ->
  ForallOrdPairs P (l ++ [x]).
Proof.
  induction 1 as [|a l Ha Hl IH]; intro Hx; simpl.
  - constructor; constructor.
  - inversion Hx; subst. constructor.
    + apply Forall_app. split; [exact Ha|]. constructor; [assumption|constructor].
    + apply IH. assumption.
Qed.

Lemma FOP_impl_In {A : Type} (P Q : A -> A -> Prop) (l : list A) :
  (forall a b, In a l -> In b l -> P a b -> Q a b) ->
  ForallOrdPairs P l -> ForallOrdPairs Q l.
Proof.
  intros H Hf. induction Hf as [|a l Ha Hl IH]; constructor.
  - apply Forall_forall. intros b Hb. rewrite Forall_forall in Ha.
    apply H; [left; reflexivity|right; exact Hb|apply Ha; exact Hb].
  - apply IH. intros x y Hx Hy. apply H; right; assumption.
Qed.

Lemma combine_fst {A B : Type} (a : list A) (b : list B) :
  length a = length b -> map fst (combine a b) = a.
Proof.
  revert b. induction a as [|x a IH]; intros [|y b] H; simpl in *;
    try reflexivity; try discriminate.
  rewrite IH by lia. reflexivity.
Qed.

Lemma combine_snd {A B : Type} (a : list A) (b : list B) :
  length a = length b -> map snd (combine a b) = b.
Proof.
  revert b. induction a as [|x a IH]; intros [|y b] H; simpl in *;
    try reflexivity; try discriminate.
  rewrite IH by lia. reflexivity.
Qed.

Lemma FOP_map {A B : Type} (f : A -> B) (R : B -> B -> Prop) (l : list A) :
  ForallOrdPairs (fun a b => R (f a) (f b)) l ->
  ForallOrdPairs R (map f l).
Proof.
  induction 1 as [|a l Ha Hl IH]; simpl; constructor.
  - apply Forall_map. exact Ha.
  - exact IH.
Qed.

Lemma sorted_FOP {A : Type} (R : A -> A -> Prop) (l : list A) :
  StronglySorted R l -> ForallOrdPairs R l.
Proof. induction 1; constructor; assumption. Qed.

Lemma FOP_sorted {A : Type} (R : A -> A -> Prop) (l : list A) :
  ForallOrdPairs R l -> StronglySorted R l.
Proof. induction 1; constructor; assumption. Qed.

Lemma seq_sorted (k : nat) : forall a, StronglySorted lt (seq a k).
Proof.
  induction k as [|k IH]; intros a; simpl; constructor; [apply IH|].
  apply Forall_forall. intros i Hi. apply in_seq in Hi. lia.
Qed.

End ListProps.

Module DedupProps.
Import Geom Dedup GeomFacts ListFacts DedupSpec DedupFacts ListSpec ListProps.

(** *** Stage 2: what the greedy pass keeps *)

Lemma select_Subseq {A : Type} (l : list A) (m : list bool) :
  Subseq (select l m) l.
Proof.
  revert m. induction l as [|x l IH]; intros [|b m]; simpl;
    try apply Subseq_nil_l.
  destruct b; constructor; apply IH.
Qed.

Lemma select_In {A : Type} (l : list A) (m : list bool) (i : nat) (x : A) :
  nth_error l i = Some x -> nth i m false = true -> In x (select l m).
Proof.
  revert m i. induction l as [|y l IH]; intros [|b m] i Hx Hm;
    try (destruct i; discriminate).
  destruct i as [|i]; simpl in *.
  - subst b. injection Hx as ->. left. reflexivity.
  - destruct b; [right|]; apply (IH m i); assumption.
Qed.

Lemma select_two {A : Type} (l : list A) (m : list bool) (j : nat) :
  nth 0 m false = true -> nth (S j) m false = true ->
  (S j < length l)%nat -> (2 <= length (select l m))%nat.
Proof.
  destruct l as [|x l]; [simpl; lia|].
  destruct m as [|b m]; [discriminate|]. simpl. intros -> Hj Hl.
  simpl. destruct (nth_error l j) as [y|] eqn:E.
  - pose proof (select_In l m j y E Hj) as Hin.
    destruct (select l m); [contradiction|simpl; lia].
  - apply nth_error_None in E. lia.
Qed.

(** The keep flags after one visit, under the loop invariant. *)
Lemma dedup_visit_keep (positions : list Point) (t : Q) (k : nat)
    (st : DedupState) (x : nat) :
  Inv positions t k st -> (k < length positions)%nat ->
  (x < length positions)%nat ->
  nth x (keep_mask (dedup_visit positions t st k)) true =
  nth x (keep_mask st) true
  && negb (negb (nth k (visited st) false)
           && nb positions t k x && negb (x =? k)%nat
           && negb (nth x (visited st) false)).
Proof.
  intros [Lk Lv Hlt Hge Hsep] Hk Hx. unfold dedup_visit, in_visited.
  destruct (nth k (visited st) false) eqn:Evk; simpl.
  - rewrite andb_true_r. reflexivity.
  - destruct (nth_error positions k) as [p|] eqn:Hp.
    2:{ apply nth_error_None in Hp. lia. }
    destruct (fold_claim_spec positions k (query_ball_point positions p t) st)
      as [_ [_ Fx]].
    simpl. destruct (Fx x) as [_ E]; [lia|lia|].
    rewrite E, (existsb_query_ball positions t k p x Hp). reflexivity.
Qed.

(** Every point that is dropped was claimed by an earlier point that is
    kept. *)
Lemma cover_fold (positions : list Point) (t : Q) (m : nat) :
  (m <= length positions)%nat ->
  let st := fold_left (dedup_visit positions t) (seq 0 m)
              (mkDS (repeat true (length positions))
                    (repeat false (length positions))) in
  forall j, (j < length positions)%nat ->
    nth j (keep_mask st) true = false ->
    exists i, (i < j)%nat /\ (i < m)%nat
              /\ nth i (keep_mask st) true = true
              /\ nb positions t i j = true.
Proof.
  induction m as [|m IH]; intro Hm.
  - simpl. intros j Hj H. rewrite nth_repeat in H. discriminate.
  - rewrite seq_S, fold_left_app. simpl.
    assert (Hm' : (m <= length positions)%nat) by lia.
    specialize (IH Hm'). simpl in IH.
    pose proof (inv_fold positions t m Hm') as HI.
    set (st := fold_left (dedup_visit positions t) (seq 0 m)
                 (mkDS (repeat true (length positions))
                       (repeat false (length positions)))) in *.
    assert (Hk : (m < length positions)%nat) by lia.
    intros j Hj Hq.
    rewrite (dedup_visit_keep positions t m st j HI Hk Hj) in Hq.
    destruct (nth j (keep_mask st) true) eqn:Kj.
    + (* claimed at this visit *)
      simpl in Hq. apply negb_false_iff in Hq.
      apply andb_true_iff in Hq. destruct Hq as [Hq Vj].
      apply andb_true_iff in Hq. destruct Hq as [Hq Ejm].
      apply andb_true_iff in Hq. destruct Hq as [Vm Nb].
      apply negb_true_iff in Vj, Vm, Ejm. apply Nat.eqb_neq in Ejm.
      destruct HI as [Lk Lv Hlt Hge Hsep].
      assert (Hmj : (m < j)%nat).
      { destruct (Nat.lt_ge_cases j m) as [Hlt'|Hge']; [|lia].
        rewrite (Hlt j Hlt') in Vj. discriminate. }
      exists m. split; [exact Hmj|]. split; [lia|]. split; [|exact Nb].
      rewrite (dedup_visit_keep positions t m st m
                 (mkInv _ _ _ _ Lk Lv Hlt Hge Hsep) Hk Hk).
      rewrite Nat.eqb_refl. simpl. rewrite andb_false_r, andb_true_r.
      specialize (Hge m (Nat.le_refl m) Hk). rewrite Vm in Hge.
      destruct (nth m (keep_mask st) true); [reflexivity|discriminate].
    + destruct (IH j Hj Kj) as [i [Hij [Him [Ki Nb]]]].
      exists i. split; [exact Hij|]. split; [lia|]. split; [|exact Nb].
      rewrite (dedup_visit_keep positions t m st i HI Hk) by lia.
      rewrite Ki. destruct HI as [_ _ Hlt _ _].
      rewrite (Hlt i Him). simpl. rewrite andb_false_r. reflexivity.
Qed.

Lemma dedup_mask_cover (positions : list Point) (t : Q) (j : nat) :
  (j < length positions)%nat ->
  nth j (dedup_mask positions t) true = false ->
  exists i, (i < j)%nat
            /\ nth i (dedup_mask positions t) true = true
            /\ nb positions t i j = true.
Proof.
  intros Hj H.
  destruct (cover_fold positions t (length positions) (Nat.le_refl _) j Hj H)
    as [i [H1 [_ [H2 H3]]]].
  exists i. auto.
Qed.

Lemma dedup_mask_first (positions : list Point) (t : Q) :
  (0 < length positions)%nat -> nth 0 (dedup_mask positions t) true = true.
Proof.
  intro H. destruct (nth 0 (dedup_mask positions t) true) eqn:E;
    [reflexivity|].
  destruct (dedup_mask_cover positions t 0 H E) as [i [Hi _]]. lia.
Qed.

Lemma norm_le_refl (p : Point) (t : Q) : 0 <= t -> norm_le p p t = true.
Proof.
  intro Ht. unfold norm_le. apply andb_true_iff. split.
  - apply Qle_bool_iff. exact Ht.
  - apply Qle_bool_iff. unfold sqdist, Qsq.
    setoid_replace ((px p - px p) * (px p - px p)
                    + (py p - py p) * (py p - py p)
                    + (pz p - pz p) * (pz p - pz p)) with 0 by ring.
    apply Qmult_le_0_compat; exact Ht.
Qed.

Lemma select_none {A : Type} (l : list A) (m : list bool) :
  (forall j, (j < length l)%nat -> nth j m true = false) -> select l m = [].
Proof.
  revert m. induction l as [|x l IH]; intros [|b m] H; try reflexivity.
  simpl. pose proof (H 0%nat) as H0. simpl in H0.
  rewrite H0 by lia. apply IH. intros j Hj. apply (H (S j)). simpl. lia.
Qed.

Lemma forallb_nth_error {A : Type} (f : A -> bool) (l : list A) :
  forallb f l = true <-> forall j x, nth_error l j = Some x -> f x = true.
Proof.
  rewrite forallb_forall. split.
  - intros H j x Hx. apply H. apply nth_error_In in Hx. exact Hx.
  - intros H x Hx. apply In_nth_error in Hx. destruct Hx as [j Hj]. eauto.
Qed.

Lemma forallb_false_nth {A : Type} (f : A -> bool) (l : list A) :
  forallb f l = false -> exists j x, nth_error l j = Some x /\ f x = false.
Proof.
  induction l as [|y l IH]; simpl; [discriminate|].
  destruct (f y) eqn:E; simpl.
  - intro H. destruct (IH H) as [j [x [H1 H2]]]. exists (S j), x. auto.
  - intros _. exists O, y. auto.
Qed.

Lemma nth_mask_true (m : list bool) (j : nat) :
  (j < length m)%nat -> nth j m true = true -> nth j m false = true.
Proof. intros H E. rewrite <- E. apply nth_indep. exact H. Qed.

(** X1.  [deduplicate_path] on a non-empty array.  When every point lies
    within the threshold of the first one, a single point would survive
    and the function hands the input back unchanged; otherwise at least two
    points survive and any two of them are farther apart than the
    threshold. *)
Theorem deduplicate_path_separated :
  forall (p0 : Point) (rest : list Point) (distance_threshold : Q),
    let positions := p0 :: rest in
    (forallb (fun p => norm_le p0 p distance_threshold) rest = true ->
     deduplicate_path positions distance_threshold = positions)
    /\ (forallb (fun p => norm_le p0 p distance_threshold) rest = false ->
        (2 <= length (deduplicate_path positions distance_threshold))%nat
        /\ separated distance_threshold
             (deduplicate_path positions distance_threshold)).
Proof.
  intros p0 rest t positions.
  assert (Hlen : length (dedup_mask positions t) = length positions)
    by apply dedup_mask_length.
  assert (H0 : nth 0 (dedup_mask positions t) true = true)
    by (apply dedup_mask_first; simpl; lia).
  split.
  - intro Hall. unfold deduplicate_path.
    destruct (length positions <? 2)%nat eqn:L1; [reflexivity|].
    assert (E : select positions (dedup_mask positions t) = [p0]).
    { destruct (dedup_mask positions t) as [|b m] eqn:Em; [discriminate|].
      simpl in H0. subst b. unfold positions at 1. simpl.
      f_equal. apply select_none. intros j Hj.
      destruct (nth j m true) eqn:Kj; [|reflexivity].
      assert (N : nb positions t 0 (S j) = false).
      { apply dedup_mask_separated; try (simpl; lia).
        - apply dedup_mask_first. simpl. lia.
        - rewrite Em. simpl. exact Kj. }
      unfold nb, positions in N. simpl in N.
      destruct (nth_error rest j) as [q|] eqn:Hq.
      + rewrite (proj1 (forallb_nth_error _ _) Hall j q Hq) in N.
        discriminate.
      + apply nth_error_None in Hq. lia. }
    rewrite E. reflexivity.
  - intro Hsome.
    destruct (forallb_false_nth _ _ Hsome) as [j [q [Hq Hfar]]].
    assert (Hj : (S j < length positions)%nat).
    { simpl. apply -> Nat.succ_lt_mono. apply nth_error_Some. congruence. }
    assert (N0 : nb positions t 0 (S j) = false).
    { unfold nb, positions. simpl. rewrite Hq. exact Hfar. }
    assert (K : exists k, (S k < length positions)%nat
                /\ nth (S k) (dedup_mask positions t) true = true).
    { destruct (nth (S j) (dedup_mask positions t) true) eqn:Kj.
      - exists j. auto.
      - destruct (dedup_mask_cover positions t (S j) Hj Kj)
          as [i [Hij [Ki Nb]]].
        destruct i as [|i]; [congruence|].
        exists i. split; [lia|exact Ki]. }
    destruct K as [k [Hk Kk]].
    assert (L2 : (2 <= length (select positions (dedup_mask positions t)))%nat).
    { apply (select_two positions _ k).
      - apply nth_mask_true; [rewrite Hlen; simpl; lia|exact H0].
      - apply nth_mask_true; [rewrite Hlen; exact Hk|exact Kk].
      - exact Hk. }
    unfold deduplicate_path.
    assert (L1 : (length positions <? 2)%nat = false)
      by (apply Nat.ltb_ge; lia).
    assert (L3 : (length (select positions (dedup_mask positions t)) <? 2)%nat
                 = false) by (apply Nat.ltb_ge; exact L2).
    rewrite L1, L3. split; [exact L2|apply dedup_selected_separated].
Qed.

(** X2.  [deduplicate_path] never invents or reorders points and always
    keeps the first one; for a non-negative threshold every input point is
    within the threshold of a point of the output. *)
Theorem deduplicate_path_covers :
  forall (positions : list Point) (distance_threshold : Q),
    let out := deduplicate_path positions distance_threshold in
    Subseq out positions
    /\ hd_error out = hd_error positions
    /\ (0 <= distance_threshold ->
        forall p, In p positions ->
          exists q, In q out /\ norm_le q p distance_threshold = true).
Proof.
  intros positions t out. subst out. unfold deduplicate_path.
  destruct (length positions <? 2)%nat eqn:L1.
  { split; [apply Subseq_refl|]. split; [reflexivity|].
    intros Ht p Hp. exists p. split; [exact Hp|apply norm_le_refl; exact Ht]. }
  destruct (length (select positions (dedup_mask positions t)) <? 2)%nat
    eqn:L2.
  { split; [apply Subseq_refl|]. split; [reflexivity|].
    intros Ht p Hp. exists p. split; [exact Hp|apply norm_le_refl; exact Ht]. }
  assert (Hlen : length (dedup_mask positions t) = length positions)
    by apply dedup_mask_length.
  split; [apply select_Subseq|]. split.
  - destruct positions as [|p0 rest]; [discriminate|].
    pose proof (dedup_mask_first (p0 :: rest) t) as H0.
    destruct (dedup_mask (p0 :: rest) t) as [|b m]; [discriminate|].
    simpl in H0. rewrite H0 by lia. reflexivity.
  - intros Ht p Hp. apply In_nth_error in Hp. destruct Hp as [j Hj].
    assert (Lj : (j < length positions)%nat)
      by (apply nth_error_Some; congruence).
    destruct (nth j (dedup_mask positions t) true) eqn:Kj.
    + exists p. split; [|apply norm_le_refl; exact Ht].
      apply (select_In _ _ j); [exact Hj|].
      apply nth_mask_true; [rewrite Hlen; exact Lj|exact Kj].
    + destruct (dedup_mask_cover positions t j Lj Kj) as [i [Hij [Ki Nb]]].
      unfold nb in Nb. rewrite Hj in Nb.
      destruct (nth_error positions i) as [q|] eqn:Hq; [|discriminate].
      exists q. split; [|exact Nb].
      apply (select_In _ _ i); [exact Hq|].
      apply nth_mask_true; [rewrite Hlen; lia|exact Ki].
Qed.

(** *** Stage 1: what the merger returns *)

Lemma merge_step_cases (positions : list Point) (t : Q) (st st' : MergeState) :
  merge_step positions t st = Some st' ->
  exists cur, nth_error positions (ms_i st) = Some cur
    /\ (st' = mkMS (ms_result st ++ [cur]) (ms_i st + 1)
        \/ exists d, st' = mkMS (ms_result st) (ms_i st + d)).
Proof.
  unfold merge_step. intro H.
  destruct (nth_error positions (ms_i st)) as [cur|]; [|discriminate].
  exists cur. split; [reflexivity|].
  destruct (_find_revisit_point (ms_result st) cur t) as [r|].
  - destruct (Z.of_nat r <? Z.of_nat (length (ms_result st)) - 2)%Z.
    + destruct (_find_divergence_point _ _ t) as [d|].
      * injection H as <-. right. eauto.
      * injection H as <-. left. reflexivity.
    + injection H as <-. left. reflexivity.
  - injection H as <-. left. reflexivity.
Qed.

Lemma merge_loop_subseq (positions : list Point) (t : Q) (p0 : Point)
    (fuel : nat) :
  forall st r,
    merge_loop fuel positions t st = Some r ->
    Subseq (ms_result st) (firstn (ms_i st) positions) ->
    hd_error (ms_result st) = Some p0 ->
    Subseq r positions /\ hd_error r = Some p0.
Proof.
  induction fuel as [|fuel IH]; intros st r H Hs Hh; simpl in H.
  - destruct (merge_step positions t st) as [st'|] eqn:E; [discriminate|].
    injection H as <-. split; [|exact Hh].
    apply (Subseq_trans _ _ _ Hs). apply firstn_Subseq_all.
  - destruct (merge_step positions t st) as [st'|] eqn:E.
    + destruct (merge_step_cases _ _ _ _ E) as [cur [Hc [-> | [d ->]]]].
      * apply (IH _ _ H); simpl.
        -- rewrite (firstn_snoc_nth _ _ _ Hc).
           apply Subseq_app; [exact Hs|apply Subseq_refl].
        -- destruct (ms_result st); [discriminate|exact Hh].
      * apply (IH _ _ H); simpl; [|exact Hh].
        apply (Subseq_trans _ _ _ Hs). apply firstn_Subseq. lia.
    + injection H as <-. split; [|exact Hh].
      apply (Subseq_trans _ _ _ Hs). apply firstn_Subseq_all.
Qed.

(** X3.  [merge_overlapping_segments] only leaves points out: its output is
    the input with some points removed, in the input's order, it starts
    with the input's first point, and an input of fewer than three points
    comes back unchanged. *)
Theorem merge_overlapping_segments_subseq :
  forall (positions : list Point) (overlap_threshold : Q),
    let out := merge_overlapping_segments positions overlap_threshold in
    Subseq out positions
    /\ hd_error out = hd_error positions
    /\ (length out <= length positions)%nat
    /\ ((length positions < 3)%nat -> out = positions).
Proof.
  intros positions t out.
  assert (H : Subseq out positions /\ hd_error out = hd_error positions
              /\ ((length positions < 3)%nat -> out = positions)).
  { subst out.
    unfold merge_overlapping_segments, merge_overlapping_segments_fuel.
    destruct (length positions <? 3)%nat eqn:L.
    { split; [apply Subseq_refl|]. split; reflexivity. }
    apply Nat.ltb_ge in L.
    destruct positions as [|p0 tl]; [simpl in L; lia|].
    destruct (merge_loop (length (p0 :: tl)) (p0 :: tl) t (mkMS [p0] 1))
      as [r|] eqn:E.
    - destruct (merge_loop_subseq _ _ p0 _ _ _ E) as [H1 H2].
      + simpl. constructor. apply Subseq_nil_l.
      + reflexivity.
      + split; [exact H1|]. split; [exact H2|]. intro. lia.
    - split; [apply Subseq_refl|]. split; [reflexivity|]. intro. lia. }
  destruct H as [H1 [H2 H3]].
  split; [exact H1|]. split; [exact H2|].
  split; [apply Subseq_length; exact H1|exact H3].
Qed.

Lemma find_index_None {A : Type} (f : A -> bool) (l : list A) :
  (forall j x, nth_error l j = Some x -> f x = false) ->
  find_index f l = None.
Proof.
  induction l as [|a l IH]; intro H; simpl; [reflexivity|].
  rewrite (H O a eq_refl). rewrite IH; [reflexivity|].
  intros j x Hx. apply (H (S j) x). exact Hx.
Qed.

Lemma nth_error_firstn_lt {A : Type} (l : list A) (i j : nat) (x : A) :
  nth_error (firstn i l) j = Some x -> (j < i)%nat /\ nth_error l j = Some x.
Proof.
  revert i j. induction l as [|a l IH]; intros i j H.
  - rewrite firstn_nil in H. destruct j; discriminate.
  - destruct i as [|i]; [destruct j; discriminate|].
    destruct j as [|j]; simpl in *.
    + split; [lia|exact H].
    + destruct (IH i j H). split; [lia|assumption].
Qed.

Lemma nth_error_removelast_bound {A : Type} (l : list A) (j : nat) (x : A) :
  nth_error (removelast l) j = Some x ->
  (S j < length l)%nat /\ nth_error l j = Some x.
Proof.
  revert j. induction l as [|a l IH]; intros j H; simpl in H.
  - destruct j; discriminate.
  - destruct l as [|b l'].
    + destruct j; discriminate.
    + destruct j as [|j]; simpl in *.
      * split; [lia|exact H].
      * destruct (IH j H). split; [lia|assumption].
Qed.

Lemma merge_loop_no_revisit (positions : list Point) (t : Q) :
  (forall i j p q, (j + 1 < i)%nat ->
      nth_error positions j = Some p -> nth_error positions i = Some q ->
      norm_lt p q t = false) ->
  forall fuel i r,
    merge_loop fuel positions t (mkMS (firstn i positions) i) = Some r ->
    r = positions.
Proof.
  intros Hfar. induction fuel as [|fuel IH]; intros i r H; simpl in H.
  - destruct (merge_step positions t _) as [st'|] eqn:E; [discriminate|].
    injection H as <-. unfold merge_step in E. simpl in E.
    destruct (nth_error positions i) eqn:En.
    + destruct (_find_revisit_point _ _ _);
        [destruct (_ <? _)%Z; [destruct (_find_divergence_point _ _ _)|]|];
        discriminate.
    + apply nth_error_None in En. apply firstn_all2. exact En.
  - destruct (merge_step positions t _) as [st'|] eqn:E.
    + unfold merge_step in E. simpl in E.
      destruct (nth_error positions i) as [cur|] eqn:En; [|discriminate].
      assert (R : _find_revisit_point (firstn i positions) cur t = None).
      { unfold _find_revisit_point. apply find_index_None.
        intros j x Hx. apply nth_error_removelast_bound in Hx.
        destruct Hx as [Hlen Hx].
        apply nth_error_firstn_lt in Hx. destruct Hx as [_ Hx].
        assert (Hi : (length (firstn i positions) <= i)%nat)
          by apply firstn_le_length.
        apply (Hfar i j x cur); [lia|exact Hx|exact En]. }
      rewrite R in E. injection E as <-.
      rewrite <- (firstn_snoc_nth _ _ _ En) in H.
      apply (IH _ _ H).
    + injection H as <-. unfold merge_step in E. simpl in E.
      destruct (nth_error positions i) eqn:En.
      * destruct (_find_revisit_point _ _ _);
          [destruct (_ <? _)%Z; [destruct (_find_divergence_point _ _ _)|]|];
          discriminate.
      * apply nth_error_None in En. apply firstn_all2. exact En.
Qed.

(** X4.  A path on which no point comes within the overlap threshold of
    an earlier point other than its predecessor is returned unchanged by
    [merge_overlapping_segments]. *)
Theorem merge_overlapping_segments_no_revisit :
  forall (positions : list Point) (overlap_threshold : Q),
    (forall i j p q, (j + 1 < i)%nat ->
        nth_error positions j = Some p -> nth_error positions i = Some q ->
        norm_lt p q overlap_threshold = false) ->
    merge_overlapping_segments positions overlap_threshold = positions.
Proof.
  intros positions t Hfar.
  unfold merge_overlapping_segments, merge_overlapping_segments_fuel.
  destruct (length positions <? 3)%nat; [reflexivity|].
  destruct positions as [|p0 tl]; [reflexivity|].
  destruct (merge_loop _ _ _ _) as [r|] eqn:E; [|reflexivity].
  apply (merge_loop_no_revisit (p0 :: tl) t Hfar (length (p0 :: tl)) 1%nat r).
  exact E.
Qed.

(** [line4] under a threshold of one metre. *)
Lemma merge_overlapping_segments_line4 :
  (forall i j p q, (j + 1 < i)%nat ->
      nth_error line4 j = Some p -> nth_error line4 i = Some q ->
      norm_lt p q 1 = false)
  /\ merge_overlapping_segments line4 1 = line4.
Proof.
  assert (H : forall i j p q, (j + 1 < i)%nat ->
      nth_error line4 j = Some p -> nth_error line4 i = Some q ->
      norm_lt p q 1 = false).
  { intros i j p q Hij Hp Hq.
    destruct i as [|[|[|[|i]]]]; destruct j as [|[|[|[|j]]]];
      try lia; simpl in Hp, Hq; try (destruct i; discriminate);
      try (destruct j; discriminate);
      injection Hp as <-; injection Hq as <-; vm_compute; reflexivity. }
  split; [exact H|].
  exact (merge_overlapping_segments_no_revisit line4 1 H).
Defined.

End DedupProps.

Module RdpProps.
Import Geom Flatten GeomFacts ListFacts ListSpec ListProps RdpSpec.
Local Open Scope Q_scope.

(** *** The farthest interior point *)

Lemma farthest_fold (points : list Point) (s e : Point) (l : list nat)
    (lo hi : nat) :
  Forall (fun i => (lo <= i < hi)%nat) l ->
  forall acc,
    (acc = (0, O) \/ (0 < fst acc /\ (lo <= snd acc < hi)%nat)) ->
    let r := fold_left
      (fun (acc : Q * nat) (i : nat) =>
         match nth_error points i with
         | Some p =>
           let dist2 := sq_point_to_line_distance p s e in
           if Qlt_bool (fst acc) dist2 then (dist2, i) else acc
         | None => acc
         end) l acc in
    (r = (0, O) \/ (0 < fst r /\ (lo <= snd r < hi)%nat))
    /\ fst acc <= fst r
    /\ forall i p, In i l -> nth_error points i = Some p ->
         sq_point_to_line_distance p s e <= fst r.
Proof.
  induction 1 as [|i l Hi _ IH]; intros acc Hacc; simpl.
  - split; [exact Hacc|]. split; [apply Qle_refl|]. intros i p [].
  - set (acc' := match nth_error points i with
                 | Some p =>
                   if Qlt_bool (fst acc) (sq_point_to_line_distance p s e)
                   then (sq_point_to_line_distance p s e, i) else acc
                 | None => acc
                 end).
    assert (Hacc' : (acc' = (0, O) \/ (0 < fst acc' /\ (lo <= snd acc' < hi)%nat))
                    /\ fst acc <= fst acc'
                    /\ forall p, nth_error points i = Some p ->
                         sq_point_to_line_distance p s e <= fst acc').
    { subst acc'. destruct (nth_error points i) as [p|].
      - destruct (Qlt_bool (fst acc) (sq_point_to_line_distance p s e)) eqn:E.
        + apply Qlt_bool_iff in E. simpl. split; [|split].
          * right. split; [|exact Hi].
            destruct Hacc as [-> | [H0 _]]; simpl in *;
              [exact E|apply (Qlt_trans _ _ _ H0 E)].
          * apply Qlt_le_weak. exact E.
          * intros p' [= <-]. apply Qle_refl.
        + split; [exact Hacc|]. split; [apply Qle_refl|].
          intros p' [= <-]. apply Qnot_lt_le. intro H.
          apply Qlt_bool_iff in H. congruence.
      - split; [exact Hacc|]. split; [apply Qle_refl|]. discriminate. }
    destruct Hacc' as [H1 [H2 H3]].
    destruct (IH acc' H1) as [R1 [R2 R3]]. fold acc'.
    split; [exact R1|]. split; [apply (Qle_trans _ _ _ H2 R2)|].
    intros j p [<- | Hj] Hp.
    + apply (Qle_trans _ _ _ (H3 p Hp) R2).
    + apply (R3 j p Hj Hp).
Qed.

Lemma farthest_spec (points : list Point) (s e : Point) :
  let r := farthest points s e in
  (r = (0, O) \/ (0 < fst r /\ (1 <= snd r /\ snd r + 1 < length points)%nat))
  /\ forall i p, (1 <= i)%nat -> (i + 1 < length points)%nat ->
       nth_error points i = Some p ->
       sq_point_to_line_distance p s e <= fst r.
Proof.
  unfold farthest. cbv zeta.
  assert (HF : Forall (fun i => (1 <= i < length points - 1)%nat)
                 (seq 1 (length points - 2))).
  { apply Forall_forall. intros i Hi. apply in_seq in Hi. lia. }
  pose proof (farthest_fold points s e _ _ _ HF (0, O)
                (or_introl eq_refl)) as F.
  cbv zeta in F. destruct F as [R1 [_ R3]].
  split.
  - destruct R1 as [R1 | [R1 R2]]; [left; exact R1|right].
    split; [exact R1|]. destruct R2 as [R2 R2']. split; lia.
  - intros i p H1 H2 Hp. apply (R3 i p); [|exact Hp].
    apply in_seq. lia.
Qed.

Lemma sqrt_gt_pos (d eps : Q) : 0 <= eps -> sqrt_gt d eps = true -> 0 < d.
Proof.
  intros He H. unfold sqrt_gt in H. apply orb_true_iff in H.
  destruct H as [H|H]; apply Qlt_bool_iff in H.
  - exfalso. apply (Qlt_not_le _ _ H He).
  - apply Qle_lt_trans with (eps * eps); [|exact H].
    apply Qmult_le_0_compat; exact He.
Qed.

Lemma sqrt_gt_false (d eps : Q) :
  sqrt_gt d eps = false -> 0 <= eps /\ d <= eps * eps.
Proof.
  unfold sqrt_gt. intro H. apply orb_false_iff in H. destruct H as [H1 H2].
  split; apply Qnot_lt_le; intro H; apply Qlt_bool_iff in H; congruence.
Qed.

(** *** Lists of indices *)

Lemma adjacent_pairs_glue (l0 : list nat) (x : nat) (r : list nat) :
  adjacent_pairs (l0 ++ x :: r) =
  adjacent_pairs (l0 ++ [x]) ++ adjacent_pairs (x :: r).
Proof.
  induction l0 as [|a l0 IH]; [reflexivity|].
  destruct l0 as [|b l0'].
  - reflexivity.
  - change (adjacent_pairs ((a :: b :: l0') ++ x :: r))
      with ((a, b) :: adjacent_pairs ((b :: l0') ++ x :: r)).
    rewrite IH. reflexivity.
Qed.

Lemma adjacent_pairs_map (f : nat -> nat) (l : list nat) :
  adjacent_pairs (map f l) =
  map (fun ab => (f (fst ab), f (snd ab))) (adjacent_pairs l).
Proof.
  induction l as [|a l IH]; [reflexivity|].
  destruct l as [|b l']; [reflexivity|].
  change (adjacent_pairs (map f (a :: b :: l')))
    with ((f a, f b) :: adjacent_pairs (map f (b :: l'))).
  rewrite IH. reflexivity.
Qed.

Lemma adjacent_pairs_In (l : list nat) (a b : nat) :
  In (a, b) (adjacent_pairs l) -> In a l /\ In b l.
Proof.
  induction l as [|x l IH]; [intros []|].
  destruct l as [|y l']; [intros []|].
  change (adjacent_pairs (x :: y :: l'))
    with ((x, y) :: adjacent_pairs (y :: l')).
  intros [E | H].
  - injection E as <- <-. split; [left; reflexivity|right; left; reflexivity].
  - destruct (IH H). split; right; assumption.
Qed.

Lemma sorted_app (a b : list nat) :
  StronglySorted lt a -> StronglySorted lt b ->
  (forall x y, In x a -> In y b -> (x < y)%nat) ->
  StronglySorted lt (a ++ b).
Proof.
  induction 1 as [|x a Ha IH Hx]; intros Hb Hab; simpl; [exact Hb|].
  constructor.
  - apply IH; [exact Hb|]. intros u v Hu Hv. apply Hab; [right|]; assumption.
  - apply Forall_app. split; [exact Hx|].
    apply Forall_forall. intros y Hy. apply Hab; [left; reflexivity|exact Hy].
Qed.

Lemma sorted_app_inv (a b : list nat) :
  StronglySorted lt (a ++ b) ->
  StronglySorted lt a /\ StronglySorted lt b
  /\ forall x y, In x a -> In y b -> (x < y)%nat.
Proof.
  induction a as [|x a IH]; simpl; intro H.
  - split; [constructor|]. split; [exact H|]. intros x y [].
  - inversion H as [|? ? Hs Hf]; subst.
    destruct (IH Hs) as [H1 [H2 H3]].
    apply Forall_app in Hf. destruct Hf as [Hfa Hfb].
    split; [constructor; assumption|]. split; [exact H2|].
    intros u v [<- | Hu] Hv.
    + rewrite Forall_forall in Hfb. apply Hfb. exact Hv.
    + apply H3; assumption.
Qed.

Lemma sorted_map_add (i : nat) (l : list nat) :
  StronglySorted lt l -> StronglySorted lt (map (fun idx => (idx + i)%nat) l).
Proof.
  induction 1 as [|x l Hs IH Hx]; simpl; constructor; [exact IH|].
  apply Forall_forall. intros y Hy. apply in_map_iff in Hy.
  destruct Hy as [z [<- Hz]]. rewrite Forall_forall in Hx.
  specialize (Hx z Hz). lia.
Qed.

(** A list of indices that starts at 0 and ends at [m >= 1]. *)
Lemma rdp_indices_split (n : nat) (idxs : list nat) :
  (2 <= n)%nat -> rdp_indices n idxs ->
  exists body, idxs = O :: body ++ [(n - 1)%nat]
    /\ Forall (fun x => (0 < x < n - 1)%nat) body.
Proof.
  intros Hn [Hh [Hl Hs]].
  destruct idxs as [|z rest]; [discriminate|]. injection Hh as ->.
  destruct rest as [|y rest'] using rev_ind.
  - simpl in Hl. lia.
  - clear IHrest'. rewrite app_comm_cons, last_last in Hl. subst y.
    exists rest'. split; [reflexivity|].
    inversion Hs as [|? ? Hs' Hf]; subst.
    apply Forall_app in Hf. destruct Hf as [Hf _].
    apply sorted_app_inv in Hs'. destruct Hs' as [_ [_ Hlt]].
    apply Forall_forall. intros x Hx. rewrite Forall_forall in Hf.
    split; [apply Hf; exact Hx|]. apply Hlt; [exact Hx|left; reflexivity].
Qed.

Lemma within_eps_firstn (points : list Point) (eps : Q) (i a b : nat) :
  (a <= i)%nat -> (b <= i)%nat ->
  within_eps (firstn (i + 1) points) eps (a, b) ->
  within_eps points eps (a, b).
Proof.
  intros Ha Hb. unfold within_eps. cbn [fst snd].
  assert (E : forall x, (x <= i)%nat ->
            nth x (firstn (i + 1) points) origin = nth x points origin).
  { intros x Hx. rewrite nth_firstn.
    assert (L : (x <? i + 1)%nat = true) by (apply Nat.ltb_lt; lia).
    rewrite L. reflexivity. }
  rewrite !E by assumption.
  intros [H | H]; [left; exact H|right].
  intros k Hk. rewrite <- (E k) by lia. apply H. exact Hk.
Qed.

Lemma within_eps_skipn (points : list Point) (eps : Q) (i a b : nat) :
  within_eps (skipn i points) eps (a, b) ->
  within_eps points eps ((a + i)%nat, (b + i)%nat).
Proof.
  unfold within_eps. cbn [fst snd]. rewrite !nth_skipn.
  rewrite (Nat.add_comm i a), (Nat.add_comm i b).
  intros [H | H]; [left; exact H|right].
  intros k Hk. specialize (H (k - i)%nat). rewrite nth_skipn in H.
  replace (i + (k - i))%nat with k in H by lia. apply H. lia.
Qed.

(** *** The recursion *)

Lemma rdp_recursive_spec (eps : Q) :
  0 <= eps ->
  forall fuel points,
    (1 <= fuel)%nat -> (length points <= fuel + 1)%nat ->
    exists idxs,
      _rdp_recursive fuel points eps = Ok idxs
      /\ ((length points < 2)%nat -> idxs = seq 0 (length points))
      /\ ((2 <= length points)%nat ->
          rdp_indices (length points) idxs
          /\ Forall (within_eps points eps) (adjacent_pairs idxs)).
Proof.
  intro He. induction fuel as [|fuel IH]; intros points Hf Hlen; [lia|].
  cbn [_rdp_recursive].
  destruct (length points <? 3)%nat eqn:L3.
  { apply Nat.ltb_lt in L3. eexists. split; [reflexivity|].
    split; [reflexivity|]. intro H2.
    assert (E : length points = 2%nat) by lia. rewrite E. simpl.
    split.
    - split; [reflexivity|]. split; [reflexivity|].
      repeat constructor.
    - constructor; [|constructor]. right. cbn [fst snd]. intros k Hk. lia. }
  apply Nat.ltb_ge in L3.
  assert (Two : rdp_indices (length points) [O; (length points - 1)%nat]).
  { split; [reflexivity|]. split; [reflexivity|].
    constructor; [repeat constructor|]. constructor; [lia|constructor]. }
  destruct (Qlt_bool (sqdist (last points origin) (hd origin points)) tiny_sq)
    eqn:Tiny.
  { eexists. split; [reflexivity|]. split; [intro; lia|]. intros _.
    split; [exact Two|]. constructor; [|constructor]. left. cbn [fst snd].
    apply Qlt_bool_iff in Tiny. rewrite last_nth, hd_nth0 in Tiny.
    exact Tiny. }
  pose proof (farthest_spec points (hd origin points) (last points origin))
    as F. cbv zeta in F.
  destruct (farthest points (hd origin points) (last points origin))
    as [max_dist2 max_idx] eqn:EF.
  cbn [fst snd] in F. destruct F as [Fcase Fmax].
  destruct (sqrt_gt max_dist2 eps) eqn:Far.
  2:{ eexists. split; [reflexivity|]. split; [intro; lia|]. intros _.
      split; [exact Two|]. constructor; [|constructor]. right.
      cbn [fst snd]. intros k Hk.
      destruct (sqrt_gt_false _ _ Far) as [_ Hd].
      apply Qle_trans with max_dist2; [|exact Hd].
      rewrite <- last_nth, <- hd_nth0.
      apply (Fmax k); [lia|lia|].
      apply nth_error_nth'. lia. }
  pose proof (sqrt_gt_pos _ _ He Far) as Hpos.
  destruct Fcase as [E0 | [_ [Hi1 Hi2]]].
  { injection E0 as -> _. exfalso. apply (Qlt_irrefl 0). exact Hpos. }
  assert (LL : length (firstn (max_idx + 1) points) = (max_idx + 1)%nat)
    by (apply firstn_length_le; lia).
  assert (LR : length (skipn max_idx points)
               = (length points - max_idx)%nat) by apply length_skipn.
  destruct (IH (firstn (max_idx + 1) points)) as [L [EL [_ HL]]];
    [lia|lia|].
  destruct (IH (skipn max_idx points)) as [R [ER [_ HR]]]; [lia|lia|].
  rewrite EL, ER. cbn [bind]. eexists. split; [reflexivity|].
  split; [intro; lia|]. intros _.
  destruct HL as [IL WL]; [lia|]. destruct HR as [IR WR]; [lia|].
  rewrite LL in IL. rewrite LR in IR.
  assert (NL : (2 <= max_idx + 1)%nat) by lia.
  assert (NR : (2 <= length points - max_idx)%nat) by lia.
  destruct (rdp_indices_split _ _ NL IL) as [bL [-> HbL]].
  destruct (rdp_indices_split _ _ NR IR) as [bR [-> HbR]].
  replace (max_idx + 1 - 1)%nat with max_idx in * by lia.
  rewrite app_comm_cons, removelast_last.
  cbn [map]. rewrite map_app. cbn [map].
  replace (0 + max_idx)%nat with max_idx by lia.
  replace (length points - max_idx - 1 + max_idx)%nat
    with (length points - 1)%nat by lia.
  destruct IL as [_ [_ SL]]. destruct IR as [_ [_ SR]].
  split.
  - split; [reflexivity|]. split.
    + rewrite app_comm_cons, app_assoc, last_last. reflexivity.
    + change (StronglySorted lt
                ((O :: bL) ++ max_idx
                 :: map (fun idx => (idx + max_idx)%nat) bR
                    ++ [(length points - 1)%nat])).
      apply sorted_app.
      * rewrite app_comm_cons in SL. apply sorted_app_inv in SL. tauto.
      * apply (sorted_map_add max_idx) in SR.
        cbn [map] in SR. rewrite map_app in SR. cbn [map] in SR.
        replace (0 + max_idx)%nat with max_idx in SR by lia.
        replace (length points - max_idx - 1 + max_idx)%nat
          with (length points - 1)%nat in SR by lia.
        exact SR.
      * intros x y Hx Hy.
        assert (Hxi : (x < max_idx)%nat).
        { destruct Hx as [<- | Hx]; [lia|].
          rewrite Forall_forall in HbL. apply HbL in Hx. lia. }
        destruct Hy as [<- | Hy]; [exact Hxi|].
        apply in_app_iff in Hy. destruct Hy as [Hy | [<- | []]]; [|lia].
        apply in_map_iff in Hy. destruct Hy as [z [<- _]]. lia.
  - change (Forall (within_eps points eps)
              (adjacent_pairs
                 ((O :: bL) ++ max_idx
                  :: map (fun idx => (idx + max_idx)%nat) bR
                     ++ [(length points - 1)%nat]))).
    rewrite adjacent_pairs_glue. apply Forall_app. split.
    + rewrite <- app_comm_cons.
      apply Forall_forall. intros [a b] Hab.
      rewrite Forall_forall in WL. specialize (WL _ Hab).
      apply adjacent_pairs_In in Hab. destruct Hab as [Ha Hb].
      assert (Bound : forall x, In x (O :: bL ++ [max_idx]) ->
                (x <= max_idx)%nat).
      { intros x [<- | Hx]; [lia|]. apply in_app_iff in Hx.
        destruct Hx as [Hx | [<- | []]]; [|lia].
        rewrite Forall_forall in HbL. apply HbL in Hx. lia. }
      apply (within_eps_firstn points eps max_idx);
        [apply Bound; exact Ha|apply Bound; exact Hb|exact WL].
    + assert (EM : max_idx :: map (fun idx => (idx + max_idx)%nat) bR
                     ++ [(length points - 1)%nat]
                   = map (fun idx => (idx + max_idx)%nat)
                       (O :: bR ++ [(length points - max_idx - 1)%nat])).
      { cbn [map]. rewrite map_app. cbn [map].
        replace (0 + max_idx)%nat with max_idx by lia.
        replace (length points - max_idx - 1 + max_idx)%nat
          with (length points - 1)%nat by lia.
        reflexivity. }
      rewrite EM, adjacent_pairs_map.
      apply Forall_forall. intros ab Hab. apply in_map_iff in Hab.
      destruct Hab as [[a b] [<- Hab]]. cbn [fst snd].
      rewrite Forall_forall in WR. specialize (WR _ Hab).
      apply within_eps_skipn. exact WR.
Qed.

Lemma rdp_indices_bound (n : nat) (idxs : list nat) :
  (2 <= n)%nat -> rdp_indices n idxs ->
  Forall (fun i => (i < n)%nat) idxs /\ (2 <= length idxs)%nat.
Proof.
  intros Hn H. destruct (rdp_indices_split n idxs Hn H) as [body [-> Hb]].
  split.
  - constructor; [lia|]. apply Forall_app. split.
    + eapply Forall_impl; [|exact Hb]. simpl. intros. lia.
    + constructor; [lia|constructor].
  - simpl. rewrite length_app. simpl. lia.
Qed.

Lemma simplify_path_rdp_spec (positions : list Point) (eps : Q) :
  0 <= eps ->
  exists out,
    simplify_path_rdp positions eps = Ok out
    /\ Subseq out positions
    /\ hd_error out = hd_error positions
    /\ last out origin = last positions origin
    /\ ((2 <= length positions)%nat -> (2 <= length out)%nat)
    /\ ((length positions < 3)%nat -> out = positions).
Proof.
  intro He. unfold simplify_path_rdp.
  destruct (length positions <? 3)%nat eqn:L3.
  { exists positions. split; [reflexivity|]. split; [apply Subseq_refl|].
    repeat split; auto. }
  apply Nat.ltb_ge in L3.
  destruct (rdp_recursive_spec eps He (length positions) positions)
    as [idxs [E [_ H]]]; [lia|lia|].
  destruct H as [HI _]; [lia|].
  rewrite E. cbn [bind]. eexists. split; [reflexivity|].
  assert (L2 : (2 <= length positions)%nat) by lia.
  destruct (rdp_indices_bound _ _ L2 HI) as [Hb Hl].
  destruct (rdp_indices_split _ _ L2 HI) as [body [-> _]].
  destruct HI as [_ [_ Hs]].
  unfold take_indices. split.
  - rewrite <- (firstn_all positions) at 2.
    apply map_nth_Subseq; [exact Hs|exact Hb|lia].
  - split.
    + destruct positions; [simpl in L3; lia|reflexivity].
    + split.
      * cbn [map]. rewrite map_app. cbn [map].
        rewrite app_comm_cons, last_last. symmetry. apply last_nth.
      * split; [|intro; lia]. intros _. rewrite length_map. exact Hl.
Qed.

(** X5.  For a non-negative tolerance [simplify_path_rdp] returns: the
    recursion on [n] points is at most [max(1, n - 1)] calls deep.  Its
    result is the input with points left out, in order, it keeps the first
    and the last point, and it keeps an input of fewer than three points
    whole. *)
Theorem simplify_path_rdp_returns :
  forall (positions : list Point) (epsilon : Q),
    0 <= epsilon ->
    (forall fuel, (1 <= fuel)%nat -> (length positions <= fuel + 1)%nat ->
       exists idxs, _rdp_recursive fuel positions epsilon = Ok idxs)
    /\ exists out,
         simplify_path_rdp positions epsilon = Ok out
         /\ Subseq out positions
         /\ hd_error out = hd_error positions
         /\ last out origin = last positions origin
         /\ ((2 <= length positions)%nat -> (2 <= length out)%nat)
         /\ ((length positions < 3)%nat -> out = positions).
Proof.
  intros positions eps He. split.
  - intros fuel H1 H2.
    destruct (rdp_recursive_spec eps He fuel positions H1 H2) as [idxs [E _]].
    eauto.
  - apply simplify_path_rdp_spec. exact He.
Qed.


(** On [wobbly_corner] with a tolerance of half a metre the corner and the
    two ends are kept. *)
Lemma simplify_path_rdp_wobbly_corner :
  0 <= 1 # 2
  /\ simplify_path_rdp wobbly_corner (1 # 2)
     = Ok [mkPoint 0 0 0; mkPoint 4 0 0; mkPoint 4 3 0]
  /\ exists out,
       simplify_path_rdp wobbly_corner (1 # 2) = Ok out
       /\ Subseq out wobbly_corner
       /\ hd_error out = hd_error wobbly_corner
       /\ last out origin = last wobbly_corner origin
       /\ ((2 <= length wobbly_corner)%nat -> (2 <= length out)%nat)
       /\ ((length wobbly_corner < 3)%nat -> out = wobbly_corner).
Proof.
  assert (H : 0 <= 1 # 2) by (vm_compute; discriminate).
  split; [exact H|]. split; [vm_compute; reflexivity|].
  exact (proj2 (simplify_path_rdp_returns wobbly_corner (1 # 2) H)).
Defined.


(** *** A negative tolerance *)




End RdpProps.

Module GapProps.
Import Geom Flatten FlattenSpec GeomFacts ListFacts FlattenFacts.
Import ListSpec ListProps GapSpec.
Local Open Scope Q_scope.

Lemma where_plus_one_In (flags : list bool) (i k : nat) :
  In k (where_plus_one flags i) <->
  exists j, k = (i + j + 1)%nat /\ nth_error flags j = Some true.
Proof.
  revert i. induction flags as [|b flags IH]; intro i; simpl.
  - split; [intros []|intros [j [_ H]]; destruct j; discriminate].
  - assert (Shift : In k (where_plus_one flags (S i)) <->
              exists j, k = (i + S j + 1)%nat
                        /\ nth_error flags j = Some true).
    { rewrite IH. split; intros [j [E H]]; exists j; split; auto; lia. }
    destruct b; simpl.
    + split.
      * intros [<- | H]; [exists O; split; [lia|reflexivity]|].
        apply Shift in H. destruct H as [j [E H]]. exists (S j). auto.
      * intros [[|j] [E H]]; [left; lia|right].
        apply Shift. exists j. auto.
    + split.
      * intro H. apply Shift in H. destruct H as [j [E H]]. exists (S j). auto.
      * intros [[|j] [E H]]; [discriminate|].
        apply Shift. exists j. auto.
Qed.

Lemma where_plus_one_sorted (flags : list bool) (i : nat) :
  StronglySorted lt (where_plus_one flags i).
Proof.
  revert i. induction flags as [|b flags IH]; intro i; simpl; [constructor|].
  destruct b; [|apply IH]. constructor; [apply IH|].
  apply Forall_forall. intros k Hk. apply where_plus_one_In in Hk.
  destruct Hk as [j [-> _]]. lia.
Qed.

Lemma gap_flags_nth (positions : list Point) (t : Q) (j : nat) (p q : Point) :
  nth_error positions j = Some p -> nth_error positions (S j) = Some q ->
  nth_error (gap_flags positions t) j = Some (norm_gt q p t).
Proof.
  revert j. induction positions as [|a positions IH]; intros j Hp Hq.
  - destruct j; discriminate.
  - destruct positions as [|b rest]; [destruct j; discriminate|].
    destruct j as [|j].
    + simpl in *. injection Hp as <-. injection Hq as <-. reflexivity.
    + change (gap_flags (a :: b :: rest) t)
        with (norm_gt b a t :: gap_flags (b :: rest) t).
      simpl nth_error. apply IH; assumption.
Qed.

Lemma gap_free_no_split (positions : list Point) (t : Q) :
  gap_free positions t -> split_indices positions t = [].
Proof.
  intro H. unfold split_indices.
  destruct (where_plus_one (gap_flags positions t) 0) as [|k l] eqn:E;
    [reflexivity|].
  assert (Hk : In k (where_plus_one (gap_flags positions t) 0))
    by (rewrite E; left; reflexivity).
  apply where_plus_one_In in Hk. destruct Hk as [j [_ Hj]].
  assert (Lj : (j < length (gap_flags positions t))%nat)
    by (apply nth_error_Some; congruence).
  rewrite gap_flags_length in Lj.
  destruct (nth_error positions j) as [p|] eqn:Hp.
  2:{ apply nth_error_None in Hp. lia. }
  destruct (nth_error positions (S j)) as [q|] eqn:Hq.
  2:{ apply nth_error_None in Hq. lia. }
  rewrite (gap_flags_nth positions t j p q Hp Hq) in Hj.
  injection Hj as Hj. rewrite (H j p q Hp Hq) in Hj. discriminate.
Qed.

Lemma nth_error_slice (positions : list Point) (a b j : nat) (p : Point) :
  nth_error (slice positions a b) j = Some p ->
  (a + j < b)%nat /\ nth_error positions (a + j) = Some p.
Proof.
  unfold slice. intro H. rewrite nth_error_firstn in H.
  destruct (j <? b - a)%nat eqn:E; [|discriminate].
  apply Nat.ltb_lt in E. rewrite nth_error_skipn in H.
  split; [lia|exact H].
Qed.

(** The runs between consecutive split indices. *)
Lemma runs_between_slices (positions : list Point) (idxs : list nat) :
  forall prev,
    StronglySorted lt (prev :: idxs) ->
    Forall (fun idx => (idx <= length positions)%nat) idxs ->
    forall run, In run (runs_between positions prev idxs) ->
      exists a b, run = slice positions a b
        /\ (prev <= a)%nat /\ (b <= length positions)%nat
        /\ forall k, In k idxs -> ~ (a < k < b)%nat.
Proof.
  induction idxs as [|idx rest IH]; intros prev Hs Hb run Hrun.
  - simpl in Hrun. destruct Hrun as [<- | []].
    exists prev, (length positions). split.
    + unfold slice. rewrite firstn_all2; [reflexivity|].
      rewrite length_skipn. lia.
    + split; [lia|]. split; [lia|]. intros k [].
  - simpl in Hrun. inversion Hs as [|? ? Hs' Hf]; subst.
    inversion Hb as [|? ? Hidx Hb']; subst.
    destruct Hrun as [<- | Hrun].
    + exists prev, idx. split; [reflexivity|]. split; [lia|].
      split; [exact Hidx|]. intros k [<- | Hk]; [lia|].
      inversion Hs' as [|? ? _ Hf']; subst.
      rewrite Forall_forall in Hf'. specialize (Hf' k Hk). lia.
    + destruct (IH idx Hs' Hb' run Hrun) as [a [b [E [Ha [Hb2 Hk]]]]].
      pose proof (Forall_inv Hf) as Hpi.
      exists a, b. split; [exact E|]. split; [lia|]. split; [exact Hb2|].
      intros k [<- | Hk']; [lia|apply Hk; exact Hk'].
Qed.

Lemma runs_between_concat (positions : list Point) (idxs : list nat) :
  forall prev,
    StronglySorted lt (prev :: idxs) ->
    concat (runs_between positions prev idxs) = skipn prev positions.
Proof.
  induction idxs as [|idx rest IH]; intros prev Hs; simpl.
  - apply app_nil_r.
  - inversion Hs as [|? ? Hs' Hf]; subst.
    pose proof (Forall_inv Hf) as Hpi. simpl in Hpi.
    rewrite (IH idx Hs'). unfold slice.
    replace idx with ((idx - prev) + prev)%nat at 2 by lia.
    rewrite <- skipn_skipn. apply firstn_skipn.
Qed.

Lemma split_indices_sorted (positions : list Point) (t : Q) :
  StronglySorted lt (O :: split_indices positions t).
Proof.
  constructor; [apply where_plus_one_sorted|].
  apply Forall_forall. intros k Hk. apply where_plus_one_In in Hk.
  destruct Hk as [j [-> _]]. lia.
Qed.

Lemma gap_runs_gap_free (positions : list Point) (t : Q) (run : list Point) :
  (1 <= length positions)%nat ->
  In run (gap_runs positions t) -> gap_free run t.
Proof.
  intros Hn Hrun. unfold gap_runs in Hrun.
  destruct (runs_between_slices positions _ O (split_indices_sorted positions t)
              (split_indices_bound positions t Hn) run Hrun)
    as [a [b [-> [_ [Hb Hk]]]]].
  intros j p q Hp Hq.
  apply nth_error_slice in Hp, Hq.
  destruct Hp as [Lp Hp], Hq as [Lq Hq].
  replace (a + S j)%nat with (S (a + j)) in * by lia.
  pose proof (gap_flags_nth positions t (a + j) p q Hp Hq) as F.
  destruct (norm_gt q p t) eqn:G; [|reflexivity].
  exfalso. apply (Hk (a + j + 1)%nat); [|lia].
  unfold split_indices. apply where_plus_one_In.
  exists (a + j)%nat. split; [lia|exact F].
Qed.

Lemma split_at_gaps_nonempty_runs (positions : list Point) (t : Q) :
  (1 <= length positions)%nat ->
  Forall (fun run => (1 <= length run)%nat) (split_at_gaps positions t).
Proof.
  intro Hn. unfold split_at_gaps.
  destruct (length positions <? 2)%nat eqn:L2;
    [constructor; [exact Hn|constructor]|].
  apply Nat.ltb_ge in L2.
  destruct (split_indices positions t) as [|i0 idxs] eqn:Es;
    [constructor; [exact Hn|constructor]|].
  assert (Hne : split_indices positions t <> []) by (rewrite Es; discriminate).
  pose proof (split_at_gaps_filter positions t L2 Hne) as E.
  unfold split_at_gaps in E.
  assert (L : (length positions <? 2)%nat = false)
    by (apply Nat.ltb_ge; exact L2).
  rewrite L, Es in E. rewrite E.
  apply Forall_forall. intros run Hrun. apply filter_In in Hrun.
  destruct Hrun as [_ Hl]. unfold long_enough in Hl.
  apply Nat.leb_le in Hl. lia.
Qed.

(** X8.  [split_at_gaps] on any input: the runs it returns, put end to end,
    are the input with points left out; no run contains a step longer than
    the threshold; a path without such a step comes back as the single run;
    and when the path has a gap every run returned has at least two
    points. *)
Theorem split_at_gaps_runs :
  forall (positions : list Point) (gap_threshold : Q),
    let out := split_at_gaps positions gap_threshold in
    Subseq (concat out) positions
    /\ Forall (fun run => gap_free run gap_threshold) out
    /\ (gap_free positions gap_threshold -> out = [positions])
    /\ (~ gap_free positions gap_threshold ->
        Forall (fun run => (2 <= length run)%nat) out).
Proof.
  intros positions t out.
  assert (Short : (length positions < 2)%nat -> gap_free positions t).
  { intros H j p q Hp Hq.
    assert (S j < length positions)%nat by (apply nth_error_Some; congruence).
    lia. }
  assert (NoSplit : split_indices positions t = [] -> gap_free positions t).
  { intros E j p q Hp Hq.
    pose proof (gap_flags_nth positions t j p q Hp Hq) as F.
    destruct (norm_gt q p t) eqn:G; [|reflexivity].
    assert (Hin : In (0 + j + 1)%nat (split_indices positions t)).
    { unfold split_indices. apply where_plus_one_In. eauto. }
    rewrite E in Hin. destruct Hin. }
  destruct (length positions <? 2)%nat eqn:L2.
  { apply Nat.ltb_lt in L2.
    assert (E : out = [positions]).
    { subst out. unfold split_at_gaps.
      apply Nat.ltb_lt in L2. rewrite L2. reflexivity. }
    rewrite E. simpl. rewrite app_nil_r.
    split; [apply Subseq_refl|].
    split; [constructor; [apply Short; exact L2|constructor]|].
    split; [reflexivity|]. intro H. exfalso. apply H, Short, L2. }
  apply Nat.ltb_ge in L2.
  destruct (split_indices positions t) as [|i0 idxs] eqn:Es.
  { assert (E : out = [positions]).
    { subst out. unfold split_at_gaps.
      assert (L : (length positions <? 2)%nat = false)
        by (apply Nat.ltb_ge; exact L2).
      rewrite L, Es. reflexivity. }
    rewrite E. simpl. rewrite app_nil_r.
    split; [apply Subseq_refl|].
    split; [constructor; [apply NoSplit; reflexivity|constructor]|].
    split; [reflexivity|]. intro H. exfalso. apply H, NoSplit. reflexivity. }
  assert (Hne : split_indices positions t <> []) by (rewrite Es; discriminate).
  assert (E : out = filter long_enough (gap_runs positions t)).
  { subst out. apply split_at_gaps_filter; assumption. }
  rewrite E. split.
  - apply Subseq_trans with (concat (gap_runs positions t)).
    + apply Subseq_concat. apply Subseq_filter.
    + unfold gap_runs.
      rewrite (runs_between_concat positions _ O
                 (split_indices_sorted positions t)).
      apply Subseq_refl.
  - split.
    + apply Forall_forall. intros run Hrun. apply filter_In in Hrun.
      apply (gap_runs_gap_free positions t run); [lia|tauto].
    + split.
      * intro H. apply gap_free_no_split in H. congruence.
      * intros _. apply Forall_forall. intros run Hrun.
        apply filter_In in Hrun. destruct Hrun as [_ Hl].
        unfold long_enough in Hl. apply Nat.leb_le in Hl. exact Hl.
Qed.

(** On [two_stretches] the two runs of three points are returned. *)
Example split_at_gaps_two_stretches :
  split_at_gaps two_stretches 5 =
  [ map (fun x => mkPoint x 0 0) [0; 1; 2];
    map (fun x => mkPoint x 0 0) [12; 13; 14] ].
Proof. vm_compute. reflexivity. Qed.

End GapProps.

Module InterpProps.
Import Geom Flatten GeomFacts ListFacts ListProps InterpSpec.
Local Open Scope Q_scope.

Lemma same_point_refl (p : Point) : same_point p p.
Proof. repeat split; reflexivity. Qed.

Lemma sqdist_same_r (p q q' : Point) :
  same_point q q' -> sqdist p q == sqdist p q'.
Proof.
  intros [H1 [H2 H3]]. unfold sqdist, Qsq. rewrite H1, H2, H3. reflexivity.
Qed.

Lemma sqdist_lerp (a b : Point) (t1 t2 : Q) :
  sqdist (lerp a b t1) (lerp a b t2) == (t1 - t2) * (t1 - t2) * sqdist b a.
Proof. unfold sqdist, Qsq, lerp. simpl. ring. Qed.

Lemma lerp_one (a b : Point) (t : Q) : t == 1 -> same_point (lerp a b t) b.
Proof.
  intro H. unfold same_point, lerp. simpl. rewrite H. repeat split; ring.
Qed.

Lemma lerp_zero (a b : Point) : same_point a (lerp a b 0).
Proof. unfold same_point, lerp. simpl. repeat split; ring. Qed.

(** The number of steps covers the segment. *)
Lemma n_points_covers (seg_sq spacing : Q) :
  0 < spacing ->
  exists n, n_points seg_sq spacing = Ok n /\ (1 <= n)%nat
            /\ seg_sq <= inject_Z (Z.of_nat n) * inject_Z (Z.of_nat n)
                      * (spacing * spacing).
Proof.
  intro Hs. unfold n_points.
  assert (E0 : Qeq_bool spacing 0 = false).
  { destruct (Qeq_bool spacing 0) eqn:E; [|reflexivity].
    apply Qeq_bool_iff in E. rewrite E in Hs. discriminate. }
  assert (E1 : Qlt_bool spacing 0 = false).
  { destruct (Qlt_bool spacing 0) eqn:E; [|reflexivity].
    apply Qlt_bool_iff in E. exfalso.
    apply (Qlt_irrefl 0). apply (Qlt_trans _ _ _ Hs E). }
  rewrite E0, E1.
  set (c := Qceiling (seg_sq / (spacing * spacing))).
  set (n := Nat.max 1 (Z.to_nat (Z.sqrt_up c))).
  exists n. split; [reflexivity|]. split; [lia|].
  assert (Hs2 : 0 < spacing * spacing).
  { apply Qmult_lt_0_compat; exact Hs. }
  assert (Hc : (c <= Z.of_nat n * Z.of_nat n)%Z).
  { destruct (Z.lt_ge_cases 0 c) as [Hpos|Hneg].
    - pose proof (Z.sqrt_up_spec c Hpos) as [_ Hup].
      pose proof (Z.sqrt_up_nonneg c) as Hnn.
      assert (Hn : (Z.sqrt_up c <= Z.of_nat n)%Z) by lia.
      rewrite <- Z.pow_2_r in Hup. nia.
    - nia. }
  apply Qle_trans with (inject_Z c * (spacing * spacing)).
  - apply Qle_trans with (seg_sq / (spacing * spacing) * (spacing * spacing)).
    + apply Qle_lteq. right. field.
      intro H. rewrite H in Hs2. discriminate.
    + apply Qmult_le_compat_r; [|apply Qlt_le_weak; exact Hs2].
      apply Qle_ceiling.
  - apply Qmult_le_compat_r; [|apply Qlt_le_weak; exact Hs2].
    rewrite <- inject_Z_mult. rewrite <- Zle_Qle. exact Hc.
Qed.

Lemma inject_nat_pos (n : nat) : (1 <= n)%nat -> 0 < inject_Z (Z.of_nat n).
Proof.
  intro H. change 0 with (inject_Z 0). rewrite <- Zlt_Qlt. lia.
Qed.

Lemma inject_nat_succ (k : nat) :
  inject_Z (Z.of_nat (S k)) == inject_Z (Z.of_nat k) + 1.
Proof.
  rewrite Nat2Z.inj_succ. unfold Z.succ. rewrite inject_Z_plus. reflexivity.
Qed.

(** The points placed on one segment. *)
Lemma segment_steps (s e : Point) (spacing : Q) (n : nat) :
  (1 <= n)%nat ->
  sqdist e s <= inject_Z (Z.of_nat n) * inject_Z (Z.of_nat n)
                * (spacing * spacing) ->
  forall m k prev,
    same_point prev (lerp s e (inject_Z (Z.of_nat k) / inject_Z (Z.of_nat n))) ->
    steps_within spacing prev
      (map (fun j => lerp s e (inject_Z (Z.of_nat j) / inject_Z (Z.of_nat n)))
           (seq (S k) m)).
Proof.
  intros Hn Hsq. pose proof (inject_nat_pos n Hn) as HN.
  set (N := inject_Z (Z.of_nat n)) in *.
  assert (HN0 : ~ N == 0).
  { intro H. rewrite H in HN. discriminate. }
  induction m as [|m IH]; intros k prev Hprev; [exact I|].
  cbn [seq map steps_within]. split.
  - rewrite (sqdist_same_r _ _ _ Hprev), sqdist_lerp.
    rewrite inject_nat_succ.
    setoid_replace ((inject_Z (Z.of_nat k) + 1) / N - inject_Z (Z.of_nat k) / N)
      with (/ N) by (field; exact HN0).
    apply Qle_trans with (/ N * / N * (N * N * (spacing * spacing))).
    + apply Qmult_le_l; [|exact Hsq].
      apply Qmult_lt_0_compat; apply Qinv_lt_0_compat; exact HN.
    + apply Qle_lteq. right. field. exact HN0.
  - apply IH. apply same_point_refl.
Qed.

Lemma steps_within_app (spacing : Q) (a b : list Point) :
  forall prev,
    steps_within spacing prev a ->
    steps_within spacing (last a prev) b ->
    steps_within spacing prev (a ++ b).
Proof.
  induction a as [|p a IH]; intros prev Ha Hb; [exact Hb|].
  destruct Ha as [H1 H2]. cbn [app steps_within]. split; [exact H1|].
  apply IH; [exact H2|]. rewrite <- last_cons with (d := prev). exact Hb.
Qed.

Lemma steps_within_same (spacing : Q) (pts : list Point) (prev prev' : Point) :
  same_point prev prev' ->
  steps_within spacing prev pts -> steps_within spacing prev' pts.
Proof.
  intros Hs. destruct pts as [|p pts]; [auto|].
  intros [H1 H2]. split; [|exact H2].
  rewrite <- (sqdist_same_r _ _ _ Hs). exact H1.
Qed.

Lemma interpolate_segment_spec (s e : Point) (spacing : Q) :
  0 < spacing ->
  exists pts,
    interpolate_segment s e spacing = Ok pts
    /\ (tiny_sq <= sqdist e s ->
        pts <> []
        /\ same_point (last pts s) e
        /\ forall prev, same_point prev s -> steps_within spacing prev pts).
Proof.
  intro Hs. unfold interpolate_segment.
  destruct (Qlt_bool (sqdist e s) tiny_sq) eqn:T.
  { exists []. split; [reflexivity|]. intro H. exfalso.
    apply Qlt_bool_iff in T. apply (Qlt_not_le _ _ T H). }
  destruct (n_points_covers (sqdist e s) spacing Hs) as [n [En [Hn Hc]]].
  rewrite En. cbn [bind]. eexists. split; [reflexivity|]. intros _.
  destruct n as [|n]; [lia|].
  split; [|split].
  - rewrite seq_S, map_app. cbn [map]. intro H. apply app_eq_nil in H.
    destruct H as [_ H]. discriminate.
  - rewrite seq_S, map_app. cbn [map]. rewrite last_last.
    apply lerp_one. replace (1 + n)%nat with (S n) by lia.
    field. pose proof (inject_nat_pos (S n) Hn) as HN.
    intro H. rewrite H in HN. discriminate.
  - intros prev Hprev.
    apply (segment_steps s e spacing (S n) Hn Hc (S n) O prev).
    unfold same_point in *. destruct Hprev as [H1 [H2 H3]].
    unfold lerp. cbn [px py pz]. change (inject_Z (Z.of_nat 0)) with 0.
    pose proof (inject_nat_pos (S n) Hn) as HN.
    assert (HN0 : ~ inject_Z (Z.of_nat (S n)) == 0).
    { intro H. rewrite H in HN. discriminate. }
    rewrite H1, H2, H3. repeat split; field; exact HN0.
Qed.

Lemma interpolate_from_spec (spacing : Q) :
  0 < spacing ->
  forall rest v0,
  exists pts,
    interpolate_from v0 rest spacing = Ok pts
    /\ (distinct_steps v0 rest ->
        (length rest <= length pts)%nat
        /\ (forall prev, same_point prev v0 ->
              steps_within spacing prev pts
              /\ same_point (last pts prev) (last rest v0))).
Proof.
  intro Hs. induction rest as [|v rest IH]; intro v0.
  - exists []. split; [reflexivity|]. intros _. split; [simpl; lia|].
    intros prev Hp. split; [exact I|exact Hp].
  - cbn [interpolate_from].
    destruct (interpolate_segment_spec v0 v spacing Hs) as [pts [E1 H1]].
    destruct (IH v) as [more [E2 H2]].
    rewrite E1, E2. cbn [bind]. eexists. split; [reflexivity|].
    intros [Hd Hrest].
    destruct (H1 Hd) as [Hne [Hlast Hsteps]].
    destruct (H2 Hrest) as [Hlen Hmore].
    split.
    + rewrite length_app. simpl. destruct pts; [contradiction|simpl; lia].
    + intros prev Hp.
      assert (Hl : same_point (last pts prev) v).
      { destruct pts as [|p pts']; [contradiction|].
        rewrite last_cons. rewrite last_cons in Hlast. exact Hlast. }
      destruct (Hmore (last pts prev) Hl) as [Hm1 Hm2].
      split.
      * apply steps_within_app; [apply Hsteps; exact Hp|exact Hm1].
      * destruct more as [|q more'].
        -- rewrite app_nil_r.
           destruct rest as [|r rest']; [exact Hl|simpl in Hlen; lia].
        -- rewrite last_app_nonempty by discriminate.
           rewrite last_cons. rewrite last_cons in Hm2.
           rewrite (last_cons rest v v0). exact Hm2.
Qed.



End InterpProps.

Module SnapProps.
Import Geom Flatten FlattenSpec GeomFacts ListFacts FlattenFacts.
Import ListSpec ListProps RdpProps GapProps InterpProps.
Local Open Scope Q_scope.

Lemma snap_segments_ok (eps spacing : Q) :
  0 <= eps -> 0 < spacing ->
  forall segments,
  exists rs,
    snap_segments segments eps spacing = Ok rs
    /\ length rs = length segments
    /\ (Forall (fun run => (1 <= length run)%nat) segments ->
        Forall (fun r => r <> []) rs).
Proof.
  intros He Hs. induction segments as [|seg rest IH].
  - exists []. repeat split. intros _. constructor.
  - cbn [snap_segments].
    assert (Hseg : exists r,
              (if (length seg <? 2)%nat then Ok seg
               else
                 vertices <- simplify_path_rdp seg eps ;;
                 if (length vertices <? 2)%nat then Ok vertices
                 else _interpolate_between_vertices vertices spacing)
              = Ok r /\ ((1 <= length seg)%nat -> r <> [])).
    { destruct (length seg <? 2)%nat eqn:L2.
      - exists seg. split; [reflexivity|]. intros H E. rewrite E in H.
        simpl in H. lia.
      - apply Nat.ltb_ge in L2.
        destruct (simplify_path_rdp_spec seg eps He)
          as [vertices [E [_ [_ [_ [Hl _]]]]]].
        rewrite E. cbn [bind]. specialize (Hl L2).
        assert (L : (length vertices <? 2)%nat = false)
          by (apply Nat.ltb_ge; exact Hl).
        rewrite L. destruct vertices as [|v0 vs]; [simpl in Hl; lia|].
        unfold _interpolate_between_vertices.
        destruct (interpolate_from_spec spacing Hs vs v0) as [pts [Ep _]].
        rewrite Ep. cbn [bind]. eexists. split; [reflexivity|].
        intros _. discriminate. }
    destruct Hseg as [r [Er Hr]]. destruct IH as [rs [Ers [Hlen Hne]]].
    rewrite Er, Ers. cbn [bind]. exists (r :: rs).
    split; [reflexivity|]. split; [simpl; congruence|].
    intro HF. inversion HF; subst. constructor; auto.
Qed.

(** X10.  With a non-negative tolerance and a positive spacing
    [snap_to_lines] fails in one way only: it raises on the empty
    concatenation exactly when the input has three or more points and gap
    splitting leaves no run; in every other case it returns a polyline,
    which is not empty unless the input is. *)
Theorem snap_to_lines_outcomes :
  forall (positions : list Point) (epsilon point_spacing gap_threshold : Q),
    0 <= epsilon -> 0 < point_spacing ->
    (snap_to_lines positions epsilon point_spacing gap_threshold
       = Raise ConcatenateEmpty
     <-> (3 <= length positions)%nat
         /\ split_at_gaps positions gap_threshold = [])
    /\ (~ ((3 <= length positions)%nat
           /\ split_at_gaps positions gap_threshold = []) ->
        exists out,
          snap_to_lines positions epsilon point_spacing gap_threshold = Ok out
          /\ (positions <> [] -> out <> [])).
Proof.
  intros positions eps spacing t He Hs. unfold snap_to_lines.
  destruct (length positions <? 3)%nat eqn:L3.
  { apply Nat.ltb_lt in L3. split.
    - split; [discriminate|]. intros [H _]. lia.
    - intros _. exists positions. split; [reflexivity|auto]. }
  apply Nat.ltb_ge in L3.
  destruct (snap_segments_ok eps spacing He Hs
              (split_at_gaps positions t)) as [rs [E [Hlen Hne]]].
  rewrite E. cbn [bind].
  assert (Hruns : Forall (fun r => r <> []) rs).
  { apply Hne. apply split_at_gaps_nonempty_runs. lia. }
  destruct rs as [|r rs].
  - assert (E0 : split_at_gaps positions t = []).
    { destruct (split_at_gaps positions t); [reflexivity|discriminate]. }
    split.
    + split; [intros _; split; [exact L3|exact E0]|reflexivity].
    + intro H. exfalso. apply H. split; [exact L3|exact E0].
  - assert (E1 : split_at_gaps positions t <> []).
    { intro E0. rewrite E0 in Hlen. discriminate. }
    split.
    + split; [discriminate|]. intros [_ E0]. contradiction.
    + intros _. eexists. split; [reflexivity|]. intros _.
      inversion Hruns as [|? ? Hr _]; subst. simpl.
      destruct r; [contradiction|discriminate].
Qed.

(** [two_stretches] with the parameters of the pipeline. *)
Lemma snap_to_lines_two_stretches :
  (0 <= 1 # 2 /\ 0 < 1 # 2)
  /\ ~ ((3 <= length GapSpec.two_stretches)%nat
        /\ split_at_gaps GapSpec.two_stretches 5 = [])
  /\ exists out,
       snap_to_lines GapSpec.two_stretches (1 # 2) (1 # 2) 5 = Ok out
       /\ (GapSpec.two_stretches <> [] -> out <> []).
Proof.
  assert (H1 : 0 <= 1 # 2) by (vm_compute; discriminate).
  assert (H2 : 0 < 1 # 2) by reflexivity.
  assert (H3 : ~ ((3 <= length GapSpec.two_stretches)%nat
                  /\ split_at_gaps GapSpec.two_stretches 5 = [])).
  { intros [_ E]. vm_compute in E. discriminate. }
  split; [split; assumption|]. split; [exact H3|].
  exact (proj2 (snap_to_lines_outcomes GapSpec.two_stretches (1 # 2) (1 # 2) 5
                  H1 H2) H3).
Defined.

End SnapProps.

Module VerticalProps.
Import Geom Vertical GeomFacts ListFacts VerticalSpec VerticalFacts.
Import PassageSpec ListProps.
Local Open Scope Q_scope.

(** *** A path without vertical motion *)

Lemma changing_z_quiet (positions : list Point) (zt : Q) (w : nat) (mt : Q) :
  (forall i, (i + w < length positions)%nat ->
     window_marked positions zt w mt i = false) ->
  changing_z positions zt w mt = repeat false (length positions).
Proof.
  intro H. unfold changing_z.
  assert (G : forall l mask,
            Forall (fun i => (i + w < length positions)%nat) l ->
            fold_left
              (fun mask i =>
                 if window_marked positions zt w mt i
                 then set_range i (i + w + 1) mask else mask) l mask = mask).
  { induction l as [|i l IH]; intros mask Hl; [reflexivity|].
    inversion Hl; subst. simpl. rewrite H by assumption. apply IH. assumption. }
  apply G. apply Forall_forall. intros i Hi. apply in_seq in Hi. lia.
Qed.

Lemma runs_from_all_false (n i : nat) :
  runs_from (repeat false n) i None = [].
Proof.
  revert i. induction n as [|n IH]; intro i; [reflexivity|]. simpl. apply IH.
Qed.

(** X11.  A path whose height changes by at most
    [MIN_TOTAL_Z_CHANGE * WINDOW_SIZE / 20 = 0.75] m over any ten
    consecutive steps yields no passage and an all-false stair mask; in
    particular every path of at most ten points does. *)
Theorem detect_stairs_first_quiet :
  forall positions : list Point,
    (forall i, (i + WINDOW_SIZE < length positions)%nat ->
       Qabs (z_at positions (i + WINDOW_SIZE) - z_at positions i) <= 3 # 4) ->
    detect_stairs_default positions
    = ([], repeat false (length positions)).
Proof.
  intros positions H.
  unfold detect_stairs_default, detect_stairs_first.
  rewrite changing_z_quiet.
  - unfold vertical_runs. rewrite runs_from_all_false. reflexivity.
  - intros i Hi. unfold window_marked.
    destruct (Qlt_bool _ _) eqn:E; [|reflexivity].
    apply Qlt_bool_iff in E. exfalso.
    apply (Qlt_not_le _ _ E).
    apply Qle_trans with (3 # 4); [apply H; exact Hi|].
    vm_compute. discriminate.
Qed.

(** [gentle_ramp] rises half a metre over ten steps. *)
Lemma detect_stairs_first_gentle_ramp :
  (forall i, (i + WINDOW_SIZE < length gentle_ramp)%nat ->
     Qabs (z_at gentle_ramp (i + WINDOW_SIZE) - z_at gentle_ramp i) <= 3 # 4)
  /\ detect_stairs_default gentle_ramp
     = ([], repeat false (length gentle_ramp)).
Proof.
  assert (H : forall i, (i + WINDOW_SIZE < length gentle_ramp)%nat ->
     Qabs (z_at gentle_ramp (i + WINDOW_SIZE) - z_at gentle_ramp i) <= 3 # 4).
  { intros i Hi. unfold WINDOW_SIZE in *. simpl in Hi.
    destruct i as [|[|i]]; [| |lia]; vm_compute; discriminate. }
  split; [exact H|].
  exact (detect_stairs_first_quiet gentle_ramp H).
Defined.

(** *** Merging of passages *)

Lemma absorb_keeps (positions : list Point) (current seg : Passage) :
  start_idx (absorb positions current seg) = start_idx current
  /\ direction (absorb positions current seg) = direction current
  /\ end_idx (absorb positions current seg) = end_idx seg
  /\ z_start (absorb positions current seg) = z_start current
  /\ z_end (absorb positions current seg) = z_end seg.
Proof. repeat split. Qed.

Lemma mergeable_ext (gap : Z) (a a' b b' : Passage) :
  direction a = direction a' -> end_idx a = end_idx a' ->
  direction b = direction b' -> start_idx b = start_idx b' ->
  mergeable gap a b = mergeable gap a' b'.
Proof. unfold mergeable. intros -> -> -> ->. reflexivity. Qed.

Lemma merge_from_spec (positions : list Point) (gap : Z)
    (rest : list Passage) :
  forall current,
  exists c out,
    merge_from positions gap current rest = c :: out
    /\ start_idx c = start_idx current
    /\ direction c = direction current
    /\ z_start c = z_start current
    /\ unmergeable gap c out
    /\ end_idx (last out c) = end_idx (last rest current)
    /\ z_end (last out c) = z_end (last rest current)
    /\ (length out <= length rest)%nat.
Proof.
  induction rest as [|seg rest IH]; intro current.
  - exists current, []. simpl. repeat split; auto.
  - cbn [merge_from]. fold (mergeable gap current seg).
    destruct (mergeable gap current seg) eqn:M.
    + destruct (IH (absorb positions current seg))
        as [c [out [E [H1 [H2 [H3 [H4 [H5 [H6 H7]]]]]]]]].
      exists c, out. rewrite E. split; [reflexivity|].
      split; [exact H1|]. split; [exact H2|]. split; [exact H3|].
      split; [exact H4|].
      split; [|split; [|simpl; lia]].
      * rewrite H5, last_cons. destruct rest as [|y l]; [reflexivity|].
        rewrite !last_cons. reflexivity.
      * rewrite H6, last_cons. destruct rest as [|y l]; [reflexivity|].
        rewrite !last_cons. reflexivity.
    + destruct (IH seg) as [c [out [E [H1 [H2 [H3 [H4 [H5 [H6 H7]]]]]]]]].
      exists current, (c :: out). rewrite E. split; [reflexivity|].
      repeat split; auto.
      * rewrite <- M. apply mergeable_ext; auto.
      * rewrite !last_cons. exact H5.
      * rewrite !last_cons. exact H6.
      * simpl. lia.
Qed.

(** X12.  [_merge_stair_segments] on a non-empty list: the result is not
    longer than the input, starts where the first passage starts and ends
    where the last one ends, keeps the direction and the starting height of
    the first passage in its first entry, and no entry of the result could
    still be merged into the one before it. *)
Theorem merge_stair_segments_maximal :
  forall (first : Passage) (others : list Passage) (positions : list Point)
         (gap_threshold : Z),
  exists c out,
    _merge_stair_segments (first :: others) positions gap_threshold = c :: out
    /\ (length out <= length others)%nat
    /\ start_idx c = start_idx first
    /\ direction c = direction first
    /\ z_start c = z_start first
    /\ end_idx (last out c) = end_idx (last others first)
    /\ z_end (last out c) = z_end (last others first)
    /\ unmergeable gap_threshold c out.
Proof.
  intros first others positions gap.
  destruct others as [|seg rest].
  - exists first, []. simpl. repeat split; auto.
  - unfold _merge_stair_segments.
    destruct (merge_from_spec positions gap (seg :: rest) first)
      as [c [out [E [H1 [H2 [H3 [H4 [H5 [H6 H7]]]]]]]]].
    exists c, out. rewrite E. repeat split; auto.
Qed.

(** *** The nearest floor *)

Lemma nearest_floor_fold (z : Q) (l : list (Z * Q)) :
  forall seen best zm,
    (exists pre post,
        seen = pre ++ (best, zm) :: post
        /\ Forall (fun x => Qabs (zm - z) < Qabs (snd x - z)) pre
        /\ Forall (fun x => Qabs (zm - z) <= Qabs (snd x - z)) post) ->
    exists best' zm' pre post,
      fold_left
        (fun (best : Z * option Q) (entry : Z * Q) =>
           let dist := Qabs (snd entry - z) in
           match snd best with
           | None => (fst entry, Some dist)
           | Some best_dist =>
             if Qlt_bool dist best_dist then (fst entry, Some dist) else best
           end) l (best, Some (Qabs (zm - z)))
      = (best', Some (Qabs (zm' - z)))
      /\ seen ++ l = pre ++ (best', zm') :: post
      /\ Forall (fun x => Qabs (zm' - z) < Qabs (snd x - z)) pre
      /\ Forall (fun x => Qabs (zm' - z) <= Qabs (snd x - z)) post.
Proof.
  induction l as [|x l IH]; intros seen best zm [pre [post [E [Hpre Hpost]]]].
  - exists best, zm, pre, post. rewrite app_nil_r. auto.
  - cbn [fold_left snd fst].
    destruct (Qlt_bool (Qabs (snd x - z)) (Qabs (zm - z))) eqn:C.
    + apply Qlt_bool_iff in C.
      destruct (IH (seen ++ [x]) (fst x) (snd x)) as [b [m [pr [po H]]]].
      * exists seen, []. split; [destruct x; reflexivity|].
        split; [|constructor]. rewrite E. apply Forall_app. split.
        -- eapply Forall_impl; [|exact Hpre]. simpl. intros a Ha.
           apply (Qlt_trans _ _ _ C Ha).
        -- constructor; [exact C|].
           eapply Forall_impl; [|exact Hpost]. simpl. intros a Ha.
           apply (Qlt_le_trans _ _ _ C Ha).
      * exists b, m, pr, po. rewrite <- app_assoc in H. exact H.
    + assert (C' : Qabs (zm - z) <= Qabs (snd x - z)).
      { apply Qnot_lt_le. intro H. apply Qlt_bool_iff in H. congruence. }
      destruct (IH (seen ++ [x]) best zm) as [b [m [pr [po H]]]].
      * exists pre, (post ++ [x]). split.
        -- rewrite E, <- app_assoc. reflexivity.
        -- split; [exact Hpre|]. apply Forall_app. split; [exact Hpost|].
           constructor; [exact C'|constructor].
      * exists b, m, pr, po. rewrite <- app_assoc in H. exact H.
Qed.

(** X13.  [_find_nearest_floor] answers 0 for an empty floor table.
    Otherwise it answers the number of a floor of the table whose mean
    height is nearest to the given height, and of several equally near
    floors the first in the table's order. *)
Theorem find_nearest_floor_nearest :
  forall (z_value : Q) (entry : Z * Q) (others : FloorsData),
    _find_nearest_floor z_value [] = 0%Z
    /\ exists z_mean before after,
         entry :: others
         = before ++ (_find_nearest_floor z_value (entry :: others), z_mean)
                     :: after
         /\ Forall (fun x => Qabs (z_mean - z_value) < Qabs (snd x - z_value))
                   before
         /\ Forall (fun x => Qabs (z_mean - z_value) <= Qabs (snd x - z_value))
                   after.
Proof.
  intros z [f zm] others. split; [reflexivity|].
  unfold _find_nearest_floor. cbn [fold_left snd fst].
  destruct (nearest_floor_fold z others [(f, zm)] f zm)
    as [b [m [pre [post [E [H1 [H2 H3]]]]]]].
  { exists [], []. split; [reflexivity|]. split; constructor. }
  cbv zeta in E. rewrite E. cbn [fst]. exists m, pre, post. auto.
Qed.

(** *** Levels from peaks *)

Lemma argmin_fold (z : Q) (l : list Q) :
  forall seen best,
    (best < length seen)%nat ->
    (forall j, (j < best)%nat ->
       Qabs (nth best seen 0 - z) < Qabs (nth j seen 0 - z)) ->
    (forall j, (best <= j < length seen)%nat ->
       Qabs (nth best seen 0 - z) <= Qabs (nth j seen 0 - z)) ->
    is_argmin (seen ++ l) z
      (fst (fst (fold_left
         (fun (acc : nat * Q * nat) p =>
            let '(best, best_d, i) := acc in
            let d := Qabs (p - z) in
            if Qlt_bool d best_d then (i, d, S i) else (best, best_d, S i))
         l (best, Qabs (nth best seen 0 - z), length seen)))).
Proof.
  induction l as [|p l IH]; intros seen best Hb Hlt Hle.
  - rewrite app_nil_r. simpl. split; [exact Hb|]. split; assumption.
  - cbn [fold_left].
    assert (Nold : forall j, (j < length seen)%nat ->
              nth j (seen ++ [p]) 0 = nth j seen 0).
    { intros j Hj. apply app_nth1. exact Hj. }
    assert (Nnew : nth (length seen) (seen ++ [p]) 0 = p).
    { rewrite app_nth2 by lia. rewrite Nat.sub_diag. reflexivity. }
    assert (L : length (seen ++ [p]) = S (length seen)).
    { rewrite length_app. simpl. lia. }
    replace (seen ++ p :: l) with ((seen ++ [p]) ++ l)
      by (rewrite <- app_assoc; reflexivity).
    destruct (Qlt_bool (Qabs (p - z)) (Qabs (nth best seen 0 - z))) eqn:C.
    + apply Qlt_bool_iff in C.
      rewrite <- Nnew at 2. rewrite <- L.
      apply IH.
      * lia.
      * intros j Hj. rewrite Nnew, (Nold j) by lia.
        destruct (Nat.lt_ge_cases j best) as [H|H].
        -- apply (Qlt_trans _ _ _ C). apply Hlt. exact H.
        -- apply (Qlt_le_trans _ _ _ C). apply Hle. lia.
      * intros j Hj. assert (j = length seen) by lia. subst j.
        apply Qle_refl.
    + assert (C' : Qabs (nth best seen 0 - z) <= Qabs (p - z)).
      { apply Qnot_lt_le. intro H. apply Qlt_bool_iff in H. congruence. }
      rewrite <- (Nold best Hb). rewrite <- L.
      apply IH.
      * lia.
      * intros j Hj. rewrite (Nold best Hb), (Nold j) by lia.
        apply Hlt. exact Hj.
      * intros j Hj. rewrite (Nold best Hb).
        destruct (Nat.eq_dec j (length seen)) as [->|Hne].
        -- rewrite Nnew. exact C'.
        -- rewrite (Nold j) by lia. apply Hle. lia.
Qed.

Lemma argmin_dist_spec (peaks : list Q) (z : Q) :
  peaks <> [] -> is_argmin peaks z (argmin_dist peaks z).
Proof.
  destruct peaks as [|p0 rest]; [congruence|]. intros _.
  unfold argmin_dist.
  pose proof (argmin_fold z rest [p0] O) as H. simpl in H.
  apply H.
  - lia.
  - intros j Hj. lia.
  - intros j Hj. assert (j = O) by lia. subst j. apply Qle_refl.
Qed.

Lemma insert_sorted_spec (x : Q) (l : list Q) :
  StronglySorted Qle l ->
  StronglySorted Qle (insert_sorted x l)
  /\ length (insert_sorted x l) = S (length l)
  /\ forall y, In y (insert_sorted x l) <-> y = x \/ In y l.
Proof.
  induction 1 as [|a l Hs IH Ha]; simpl.
  - split; [repeat constructor|]. split; [reflexivity|]. intro y.
    intuition congruence.
  - destruct (Qle_bool x a) eqn:C.
    + apply Qle_bool_iff in C. split; [|split; [reflexivity|]].
      * constructor; [constructor; assumption|].
        constructor; [exact C|].
        eapply Forall_impl; [|exact Ha]. simpl. intros b Hb.
        apply (Qle_trans _ _ _ C Hb).
      * intro y. simpl. intuition congruence.
    + assert (C' : a <= x).
      { apply Qlt_le_weak. apply Qnot_le_lt. intro H.
        apply Qle_bool_iff in H. congruence. }
      destruct IH as [I1 [I2 I3]]. split; [|split].
      * constructor; [exact I1|].
        apply Forall_forall. intros y Hy. apply I3 in Hy.
        destruct Hy as [-> | Hy]; [exact C'|].
        rewrite Forall_forall in Ha. apply Ha. exact Hy.
      * simpl. rewrite I2. reflexivity.
      * intro y. simpl. rewrite I3. intuition congruence.
Qed.

Lemma sorted_spec (l : list Q) :
  StronglySorted Qle (sorted l) /\ length (sorted l) = length l.
Proof.
  unfold sorted. induction l as [|x l [IH1 IH2]]; simpl.
  - split; [constructor|reflexivity].
  - destruct (insert_sorted_spec x _ IH1) as [H1 [H2 _]].
    split; [exact H1|]. rewrite H2, IH2. reflexivity.
Qed.

Lemma sorted_nth_le (l : list Q) :
  StronglySorted Qle l ->
  forall j k, (j < k < length l)%nat -> nth j l 0 <= nth k l 0.
Proof.
  induction 1 as [|a l Hs IH Ha]; intros j k Hjk; [simpl in Hjk; lia|].
  destruct k as [|k]; [lia|]. destruct j as [|j]; simpl.
  - rewrite Forall_forall in Ha. apply Ha. apply nth_In. simpl in Hjk. lia.
  - apply IH. simpl in Hjk. lia.
Qed.

Lemma argmin_monotone (peaks : list Q) (z1 z2 : Q) (k1 k2 : nat) :
  StronglySorted Qle peaks ->
  is_argmin peaks z1 k1 -> is_argmin peaks z2 k2 ->
  z1 <= z2 -> (k1 <= k2)%nat.
Proof.
  intros Hs [L1 [A1 _]] [L2 [_ B2]] Hz.
  destruct (Nat.le_gt_cases k1 k2) as [H|H]; [exact H|]. exfalso.
  specialize (A1 k2 H). specialize (B2 k1 (conj (Nat.lt_le_incl _ _ H) L1)).
  pose proof (sorted_nth_le peaks Hs k2 k1 (conj H L1)) as Hab.
  revert A1 B2. set (a := nth k2 peaks 0) in *. set (b := nth k1 peaks 0) in *.
  apply (Qabs_case (b - z1)); apply (Qabs_case (a - z1));
    apply (Qabs_case (a - z2)); apply (Qabs_case (b - z2)); intros; lra.
Qed.

Lemma cluster_levels_order (kernel z_values : list Q) (threshold : Q) :
  exists level_of : Q -> nat,
    _cluster_z_values kernel z_values threshold = map level_of z_values
    /\ forall z1 z2, z1 <= z2 -> (level_of z1 <= level_of z2)%nat.
Proof.
  unfold _cluster_z_values.
  destruct (Qlt_bool (list_max z_values - list_min z_values) threshold).
  - exists (fun _ => O). split; [|intros; lia].
    induction z_values as [|z l IH]; simpl; [reflexivity|].
    rewrite IH. reflexivity.
  - set (peaks := cluster_peaks kernel z_values threshold).
    exists (argmin_dist peaks). split; [reflexivity|].
    assert (Hs : StronglySorted Qle peaks)
      by (unfold peaks, cluster_peaks; apply sorted_spec).
    assert (Hne : peaks <> []).
    { unfold peaks, cluster_peaks. intro E.
      apply (f_equal (@length Q)) in E.
      rewrite (proj2 (sorted_spec _)) in E.
      destruct (histogram_peaks kernel z_values threshold) as [|p ps];
        [|discriminate].
      rewrite ClusterFacts.uniform_peaks_length in E.
      unfold fallback_floors in E. simpl in E. lia. }
    intros z1 z2 Hz.
    apply (argmin_monotone peaks z1 z2); auto;
      apply argmin_dist_spec; exact Hne.
Qed.

(** X14.  [_cluster_z_values] returns one level per height.  On a range
    shorter than the threshold every level is 0.  Otherwise the peaks are
    in ascending order and not empty, each level is the first index of a
    peak nearest to its height, and a height that is not lower never gets a
    lower level. *)
Theorem cluster_z_values_levels :
  forall (kernel z_values : list Q) (threshold : Q),
    let levels := _cluster_z_values kernel z_values threshold in
    let peaks := cluster_peaks kernel z_values threshold in
    length levels = length z_values
    /\ (ClusterSpec.z_range z_values < threshold ->
        levels = repeat O (length z_values))
    /\ (threshold <= ClusterSpec.z_range z_values ->
        peaks <> [] /\ StronglySorted Qle peaks
        /\ levels = map (argmin_dist peaks) z_values
        /\ (forall z, is_argmin peaks z (argmin_dist peaks z))
        /\ (forall z1 z2, z1 <= z2 ->
              (argmin_dist peaks z1 <= argmin_dist peaks z2)%nat)).
Proof.
  intros kernel z_values threshold levels peaks.
  subst levels. unfold _cluster_z_values, ClusterSpec.z_range.
  destruct (Qlt_bool (list_max z_values - list_min z_values) threshold)
    eqn:C.
  - apply Qlt_bool_iff in C. split; [apply repeat_length|].
    split; [reflexivity|]. intro H. exfalso. apply (Qlt_not_le _ _ C H).
  - split; [apply length_map|]. split.
    + intro H. apply Qlt_bool_iff in H. congruence.
    + intros _. fold peaks.
      assert (Hs : StronglySorted Qle peaks)
        by (unfold peaks, cluster_peaks; apply sorted_spec).
      assert (Hne : peaks <> []).
      { unfold peaks, cluster_peaks. intro E.
        apply (f_equal (@length Q)) in E.
        rewrite (proj2 (sorted_spec _)) in E.
        destruct (histogram_peaks kernel z_values threshold) as [|p ps];
          [|discriminate].
        rewrite ClusterFacts.uniform_peaks_length in E.
        unfold fallback_floors in E. simpl in E. lia. }
      split; [exact Hne|]. split; [exact Hs|]. split; [reflexivity|].
      split.
      * intro z. apply argmin_dist_spec. exact Hne.
      * intros z1 z2 Hz.
        apply (argmin_monotone peaks z1 z2); auto;
          apply argmin_dist_spec; exact Hne.
Qed.

(** *** Peaks of the histogram *)

Lemma region_peaks_apart (smoothed_hist : list Q) (edge : nat -> Q)
    (threshold : Q) (regions : list (list nat)) :
  forall peaks,
    ForallOrdPairs (fun a b => threshold * (7 # 10) <= Qabs (b - a)) peaks ->
    ForallOrdPairs (fun a b => threshold * (7 # 10) <= Qabs (b - a))
      (region_peaks smoothed_hist edge threshold regions peaks).
Proof.
  induction regions as [|region rest IH]; intros peaks Hp; [exact Hp|].
  cbn [region_peaks]. cbv zeta.
  destruct (Qlt_bool 0 _); [|apply IH; exact Hp].
  match goal with
  | |- context [forallb ?f peaks] => destruct (forallb f peaks) eqn:F
  end; [|apply IH; exact Hp].
  apply IH. apply FOP_snoc; [exact Hp|].
  apply Forall_forall. intros a Ha.
  rewrite forallb_forall in F. specialize (F a Ha).
  apply negb_true_iff in F.
  apply Qnot_lt_le. intro H. apply Qlt_bool_iff in H. congruence.
Qed.

(** X15.  Any two peaks returned by [_find_histogram_peaks] are at least
    [0.7 * threshold] apart; so are the peaks found on the smoothed
    histogram of a set of heights. *)
Theorem histogram_peaks_apart :
  forall (smoothed_hist : list Q) (edge : nat -> Q) (min_count threshold : Q)
         (kernel z_values : list Q),
    ForallOrdPairs (fun a b => threshold * (7 # 10) <= Qabs (b - a))
      (_find_histogram_peaks smoothed_hist edge min_count threshold)
    /\ ForallOrdPairs (fun a b => threshold * (7 # 10) <= Qabs (b - a))
         (histogram_peaks kernel z_values threshold).
Proof.
  assert (G : forall smoothed_hist edge min_count threshold,
    ForallOrdPairs (fun a b => threshold * (7 # 10) <= Qabs (b - a))
      (_find_histogram_peaks smoothed_hist edge min_count threshold)).
  { intros. unfold _find_histogram_peaks.
    destruct (filter _ _); [constructor|].
    apply region_peaks_apart. constructor. }
  intros. split; [apply G|]. unfold histogram_peaks. apply G.
Qed.

End VerticalProps.

Module RangeProps.
Import Geom Vertical.
Local Open Scope Q_scope.

Lemma qmin_le_l (a b : Q) : qmin a b <= a.
Proof.
  unfold qmin. destruct (Qle_bool a b) eqn:E; [apply Qle_refl|].
  apply Qlt_le_weak. apply Qnot_le_lt. intro H.
  apply Qle_bool_iff in H. congruence.
Qed.

Lemma qmin_le_r (a b : Q) : qmin a b <= b.
Proof.
  unfold qmin. destruct (Qle_bool a b) eqn:E; [|apply Qle_refl].
  apply Qle_bool_iff. exact E.
Qed.

Lemma qmax_ge_l (a b : Q) : a <= qmax a b.
Proof.
  unfold qmax. destruct (Qle_bool a b) eqn:E; [|apply Qle_refl].
  apply Qle_bool_iff. exact E.
Qed.

Lemma qmax_ge_r (a b : Q) : b <= qmax a b.
Proof.
  unfold qmax. destruct (Qle_bool a b) eqn:E; [apply Qle_refl|].
  apply Qlt_le_weak. apply Qnot_le_lt. intro H.
  apply Qle_bool_iff in H. congruence.
Qed.

Lemma fold_qmin (l : list Q) :
  forall x,
    fold_left qmin l x <= x
    /\ (forall y, In y l -> fold_left qmin l x <= y)
    /\ (fold_left qmin l x = x \/ In (fold_left qmin l x) l).
Proof.
  induction l as [|a l IH]; intros x; simpl.
  - split; [apply Qle_refl|]. split; [intros y []|left; reflexivity].
  - destruct (IH (qmin x a)) as [H1 [H2 H3]].
    split; [eapply Qle_trans; [exact H1|apply qmin_le_l]|].
    split.
    + intros y [<-|Hy]; [eapply Qle_trans; [exact H1|apply qmin_le_r]|].
      apply H2. exact Hy.
    + destruct H3 as [H3|H3]; [|right; right; exact H3].
      rewrite H3. unfold qmin. destruct (Qle_bool x a); auto.
Qed.

Lemma fold_qmax (l : list Q) :
  forall x,
    x <= fold_left qmax l x
    /\ (forall y, In y l -> y <= fold_left qmax l x)
    /\ (fold_left qmax l x = x \/ In (fold_left qmax l x) l).
Proof.
  induction l as [|a l IH]; intros x; simpl.
  - split; [apply Qle_refl|]. split; [intros y []|left; reflexivity].
  - destruct (IH (qmax x a)) as [H1 [H2 H3]].
    split; [eapply Qle_trans; [apply qmax_ge_l|exact H1]|].
    split.
    + intros y [<-|Hy]; [eapply Qle_trans; [apply qmax_ge_r|exact H1]|].
      apply H2. exact Hy.
    + destruct H3 as [H3|H3]; [|right; right; exact H3].
      rewrite H3. unfold qmax. destruct (Qle_bool x a); auto.
Qed.

Lemma list_min_le (l : list Q) (y : Q) : In y l -> list_min l <= y.
Proof.
  destruct l as [|x l]; [intros []|]. simpl.
  destruct (fold_qmin l x) as [H1 [H2 _]].
  intros [<-|Hy]; [exact H1|apply H2; exact Hy].
Qed.

Lemma list_max_ge (l : list Q) (y : Q) : In y l -> y <= list_max l.
Proof.
  destruct l as [|x l]; [intros []|]. simpl.
  destruct (fold_qmax l x) as [H1 [H2 _]].
  intros [<-|Hy]; [exact H1|apply H2; exact Hy].
Qed.

Lemma list_min_In (l : list Q) : l <> [] -> In (list_min l) l.
Proof.
  destruct l as [|x l]; [congruence|]. intros _. simpl.
  destruct (fold_qmin l x) as [_ [_ [H|H]]]; [left; symmetry; exact H|].
  right. exact H.
Qed.

Lemma list_max_In (l : list Q) : l <> [] -> In (list_max l) l.
Proof.
  destruct l as [|x l]; [congruence|]. intros _. simpl.
  destruct (fold_qmax l x) as [_ [_ [H|H]]]; [left; symmetry; exact H|].
  right. exact H.
Qed.

Lemma qsum_fold (l : list Q) :
  forall a, fold_left Qplus l a == a + qsum l.
Proof.
  unfold qsum. induction l as [|x l IH]; intros a; simpl.
  - ring.
  - rewrite (IH (a + x)), (IH (0 + x)). ring.
Qed.

Lemma qsum_cons (x : Q) (l : list Q) : qsum (x :: l) == x + qsum l.
Proof. unfold qsum at 1. simpl. rewrite qsum_fold. ring. Qed.

Lemma nq_cons_length {A : Type} (x : A) (l : list A) :
  nq (length (x :: l)) == nq (length l) + 1.
Proof. simpl length. apply ClusterFacts.nq_S. Qed.

Lemma nq_nonneg (n : nat) : 0 <= nq n.
Proof.
  unfold nq. change 0 with (inject_Z 0). rewrite <- Zle_Qle. lia.
Qed.

Lemma qsum_lower (a : Q) (l : list Q) :
  (forall z, In z l -> a <= z) -> a * nq (length l) <= qsum l.
Proof.
  induction l as [|x l IH]; intro H.
  - unfold qsum. simpl. unfold nq. simpl. ring_simplify. apply Qle_refl.
  - rewrite qsum_cons, nq_cons_length.
    assert (Hx : a <= x) by (apply H; left; reflexivity).
    assert (Hl : a * nq (length l) <= qsum l)
      by (apply IH; intros; apply H; right; assumption).
    lra.
Qed.

Lemma qsum_upper (b : Q) (l : list Q) :
  (forall z, In z l -> z <= b) -> qsum l <= b * nq (length l).
Proof.
  induction l as [|x l IH]; intro H.
  - unfold qsum. simpl. unfold nq. simpl. ring_simplify. apply Qle_refl.
  - rewrite qsum_cons, nq_cons_length.
    assert (Hx : x <= b) by (apply H; left; reflexivity).
    assert (Hl : qsum l <= b * nq (length l))
      by (apply IH; intros; apply H; right; assumption).
    lra.
Qed.

Lemma nq_pos (n : nat) : (0 < n)%nat -> 0 < nq n.
Proof.
  intro H. unfold nq. change 0 with (inject_Z 0). rewrite <- Zlt_Qlt. lia.
Qed.

End RangeProps.

Module GraphProps.
Import Geom Vertical Graph GraphQueries Main.
Import GeomFacts ListFacts GraphSpec GraphFacts.
Import NetworkSpec ListSpec ListProps.
Local Open Scope Q_scope.

Lemma first_scan (target : Point) (floor : option Z) (l : list PathNode) :
  forall seen st,
    first_so_far target floor seen st ->
    first_so_far target floor (seen ++ l)
      (fold_left
         (fun (st : option PathNode * option Q) node =>
            if (match floor with Some _ => true | None => false end)
               && negb (option_Z_eqb (floor_level node) floor)
            then st
            else
              let dist2 := sqdist target (node_point node) in
              match snd st with
              | None => (Some node, Some dist2)
              | Some min_dist2 =>
                if Qlt_bool dist2 min_dist2 then (Some node, Some dist2)
                else st
              end)
         l st).
Proof.
  induction l as [|node l IH]; intros seen st H.
  - rewrite app_nil_r. exact H.
  - replace (seen ++ node :: l) with ((seen ++ [node]) ++ l)
      by (rewrite <- app_assoc; reflexivity).
    cbn [fold_left]. apply IH.
    assert (Hf : (match floor with Some _ => true | None => false end)
                 && negb (option_Z_eqb (floor_level node) floor)
                 = negb (on_floor floor node)).
    { unfold on_floor. destruct floor; reflexivity. }
    rewrite Hf.
    destruct (on_floor floor node) eqn:Eon; simpl.
    + destruct st as [[best|] [d|]]; simpl in *; try contradiction.
      * destruct H as [Hd [Hb [l1 [l2 [Hs [H1 H2]]]]]].
        destruct (Qlt_bool (sqdist target (node_point node)) d) eqn:Elt; simpl.
        -- apply Qlt_bool_iff in Elt.
           split; [reflexivity|]. split; [exact Eon|].
           exists seen, []. split; [reflexivity|].
           split; [|intros nd []].
           intros nd Hnd Hon. rewrite Hs in Hnd. apply in_app_or in Hnd.
           destruct Hnd as [Hnd|[<-|Hnd]].
           ++ apply Qlt_trans with d; [exact Elt|]. apply H1; assumption.
           ++ rewrite <- Hd. exact Elt.
           ++ apply Qlt_le_trans with d; [exact Elt|]. apply H2; assumption.
        -- split; [exact Hd|]. split; [exact Hb|].
           exists l1, (l2 ++ [node]). split.
           { rewrite Hs, <- app_assoc. reflexivity. }
           split; [exact H1|].
           intros nd Hnd Hon. apply in_app_or in Hnd.
           destruct Hnd as [Hnd|[<-|[]]]; [apply H2; assumption|].
           unfold Qlt_bool in Elt. apply negb_false_iff in Elt.
           apply Qle_bool_iff in Elt. exact Elt.
      * split; [reflexivity|]. split; [exact Eon|].
        exists seen, []. split; [reflexivity|].
        split; [|intros nd []].
        intros nd Hnd Hon. rewrite (H nd Hnd) in Hon. discriminate.
    + destruct st as [[best|] [d|]]; simpl in *; try contradiction.
      * destruct H as [Hd [Hb [l1 [l2 [Hs [H1 H2]]]]]].
        split; [exact Hd|]. split; [exact Hb|].
        exists l1, (l2 ++ [node]). split.
        { rewrite Hs, <- app_assoc. reflexivity. }
        split; [exact H1|].
        intros nd Hnd Hon. apply in_app_or in Hnd.
        destruct Hnd as [Hnd|[<-|[]]]; [apply H2; assumption|].
        rewrite Eon in Hon. discriminate.
      * intros nd Hnd. apply in_app_or in Hnd.
        destruct Hnd as [Hnd|[<-|[]]]; [apply H; exact Hnd|exact Eon].
Qed.

(** X16.  [_find_nearest_node_to_position] returns nothing exactly when
    the position is missing or no node passes the floor filter; otherwise
    it returns the first node of the list, among those passing the filter,
    at the least distance from the position: every earlier such node is
    strictly farther, every later one at least as far. *)
Theorem find_nearest_node_first_least :
  forall (nodes : list PathNode) (position : option Point)
         (floor : option Z),
    match _find_nearest_node_to_position nodes position floor with
    | Some best =>
      exists target,
        position = Some target /\ first_nearest target floor nodes best
    | None =>
      position = None
      \/ forall nd, In nd nodes -> on_floor floor nd = false
    end.
Proof.
  intros nodes [target|] floor; [|left; reflexivity].
  unfold _find_nearest_node_to_position.
  destruct nodes as [|n0 nodes]; [right; intros nd []|].
  pose proof (first_scan target floor (n0 :: nodes) [] (None, None)) as H.
  simpl app in H. specialize (H ltac:(intros nd [])).
  destruct (fold_left _ (n0 :: nodes) (None, None)) as [[best|] [d|]];
    simpl in H; try contradiction; cbn [fst].
  - destruct H as [Hd [Hb [l1 [l2 [Hs [H1 H2]]]]]].
    exists target. split; [reflexivity|]. split; [exact Hb|].
    exists l1, l2. split; [exact Hs|]. split.
    + intros nd Hnd Hon. unfold norm. apply sqrt_lt_1_alt.
      split; [apply Q2R_sqdist_nonneg|].
      apply Qlt_Rlt. rewrite <- Hd. apply H1; assumption.
    + intros nd Hnd Hon. unfold norm. apply sqrt_le_1_alt.
      apply Qle_Rle. rewrite <- Hd. apply H2; assumption.
  - right. exact H.
Qed.

Lemma path_sum_none (positions : list Point) (len : nat) :
  forall start_,
    path_sum positions start_ len = None
    <-> (0 < len /\ length positions <= start_ + len)%nat.
Proof.
  induction len as [|len IH]; intros s; cbn [path_sum].
  - split; [discriminate|intros [H _]; lia].
  - destruct (nth_error positions s) as [p|] eqn:Ep.
    + destruct (nth_error positions (S s)) as [q|] eqn:Eq.
      * assert (Hs : (S s < length positions)%nat).
        { apply nth_error_Some. rewrite Eq. discriminate. }
        destruct (path_sum positions (S s) len) as [d|] eqn:Ed.
        -- split; [discriminate|]. intros [_ H].
           assert (Hn : path_sum positions (S s) len = None)
             by (apply IH; lia).
           congruence.
        -- apply IH in Ed. split; [intros _; lia|reflexivity].
      * apply nth_error_None in Eq. split; [intros _; lia|reflexivity].
    + apply nth_error_None in Ep. split; [intros _; lia|reflexivity].
Qed.

(** X17.  [_calculate_path_distance] fails with an index error exactly
    when the end index lies after the start index and past the last
    point. *)
Theorem calculate_path_distance_index_error :
  forall (positions : list Point) (start_idx end_idx : nat),
    _calculate_path_distance positions start_idx end_idx = None
    <-> (start_idx < end_idx /\ length positions <= end_idx)%nat.
Proof.
  intros positions s e. unfold _calculate_path_distance.
  destruct (e <=? s)%nat eqn:E.
  - apply Nat.leb_le in E. split; [discriminate|lia].
  - apply Nat.leb_gt in E. rewrite path_sum_none.
    replace (s + (e - s))%nat with e by lia. lia.
Qed.

Lemma calculate_path_distance_plen (positions : list Point) (a b : nat) :
  (a <= b)%nat -> (b < length positions)%nat ->
  _calculate_path_distance positions a b = Some (plen positions a (b - a)).
Proof.
  intros Hab Hb. unfold _calculate_path_distance.
  destruct (b <=? a)%nat eqn:E.
  - apply Nat.leb_le in E. replace (b - a)%nat with 0%nat by lia.
    reflexivity.
  - apply path_sum_plen. right. apply Nat.leb_gt in E. lia.
Qed.



Lemma consecutive_length {A : Type} (l : list A) :
  length (consecutive l) = (length l - 1)%nat.
Proof.
  induction l as [|a [|b l] IH]; [reflexivity|reflexivity|].
  change (consecutive (a :: b :: l)) with ((a, b) :: consecutive (b :: l)).
  simpl length in *. lia.
Qed.

Lemma connect_chain (positions : list Point) (max_distance : R)
    (sorted_nodes : list PathNode) :
  StronglySorted lt_node sorted_nodes ->
  Forall (fun nd => (original_index nd < length positions)%nat) sorted_nodes ->
  forall next,
  exists edges next',
    connect sorted_nodes positions max_distance next = Some (edges, next')
    /\ map edge_ends edges
       = map (fun ab => (node_id (fst ab), node_id (snd ab),
                         path_between positions ab))
           (filter (within_radius positions max_distance)
                   (consecutive sorted_nodes))
    /\ Forall (fun e => edge_type e = HORIZONTAL
                        /\ is_bidirectional e = true
                        /\ (0 <= distance e <= max_distance)%R) edges.
Proof.
  induction sorted_nodes as [|n1 [|n2 rest] IH]; intros Hs Hf next.
  - exists [], next. repeat split. constructor.
  - exists [], next. repeat split. constructor.
  - rewrite connect_cons.
    change (consecutive (n1 :: n2 :: rest))
      with ((n1, n2) :: consecutive (n2 :: rest)).
    assert (Hlt : lt_node n1 n2).
    { inversion Hs as [|? ? _ Hall]; subst. exact (Forall_inv Hall). }
    assert (H2 : (original_index n2 < length positions)%nat).
    { exact (Forall_inv (Forall_inv_tail Hf)). }
    rewrite calculate_path_distance_plen by (destruct Hlt; lia).
    cbn [filter]. unfold within_radius at 1, path_between at 1. cbn [fst snd].
    assert (Hs' : StronglySorted lt_node (n2 :: rest))
      by (inversion Hs; assumption).
    destruct (Rle_bool _ max_distance) eqn:Er.
    + destruct (IH Hs' (Forall_inv_tail Hf) (S next))
        as [edges [next' [E [Hm Hall]]]].
      rewrite E. eexists _, next'. split; [reflexivity|]. split.
      * cbn [map]. rewrite Hm. reflexivity.
      * constructor; [|exact Hall]. cbn. repeat split.
        -- apply plen_nonneg.
        -- unfold Rle_bool in Er. destruct (Rle_dec _ _); [assumption|].
           discriminate.
    + destruct (IH Hs' (Forall_inv_tail Hf) next)
        as [edges [next' [E [Hm Hall]]]].
      exists edges, next'. repeat split; assumption.
Qed.

Lemma build_path_graph_edges (positions : list Point) (floor : option Z)
    (next_id : nat) :
  exists nodes edges next',
    build_path_graph positions floor next_id = Some (nodes, edges, next')
    /\ nodes = fst (extract_path_nodes positions (detect_junctions positions)
                      NODE_SPACING floor next_id)
    /\ StronglySorted lt_node nodes
    /\ map edge_ends edges
       = map (fun ab => (node_id (fst ab), node_id (snd ab),
                         path_between positions ab))
           (filter (within_radius positions EDGE_CONNECTION_RADIUS)
                   (consecutive nodes))
    /\ Forall (fun e => edge_type e = HORIZONTAL
                        /\ is_bidirectional e = true
                        /\ (0 <= distance e <= EDGE_CONNECTION_RADIUS)%R)
         edges.
Proof.
  unfold build_path_graph.
  pose proof (extract_path_nodes_sorted positions
                (detect_junctions positions) NODE_SPACING floor next_id)
    as [Hs Hf].
  destruct (extract_path_nodes positions (detect_junctions positions)
              NODE_SPACING floor next_id) as [nodes next1] eqn:En.
  cbn [fst] in Hs, Hf.
  assert (Hf' : Forall (fun nd => (original_index nd < length positions)%nat)
                  nodes).
  { eapply Forall_impl; [|exact Hf]. intros nd [H _]. exact H. }
  unfold extract_path_edges.
  destruct (length nodes <? 2)%nat eqn:El.
  - apply Nat.ltb_lt in El. exists nodes, [], next1.
    split; [reflexivity|]. split; [reflexivity|]. split; [exact Hs|].
    assert (Hc : consecutive nodes = []).
    { destruct nodes as [|a [|b l]]; [reflexivity|reflexivity|].
      simpl in El. lia. }
    rewrite Hc. split; [reflexivity|constructor].
  - rewrite (sort_nodes_sorted nodes Hs).
    destruct (connect_chain positions EDGE_CONNECTION_RADIUS nodes Hs Hf'
                next1) as [edges [next' [E [Hm Hall]]]].
    rewrite E. exists nodes, edges, next'. split; [reflexivity|].
    split; [reflexivity|]. split; [exact Hs|]. split; assumption.
Qed.

(** X19.  [build_path_graph] never fails.  Its edges form a chain along
    the node list: there is one edge for each pair of neighbouring nodes
    whose path distance is at most [EDGE_CONNECTION_RADIUS] (3 m), in the
    order of the nodes, carrying that path distance, and no other edge;
    every edge is horizontal and bidirectional, and there are fewer edges
    than nodes. *)
Theorem build_path_graph_chain :
  forall (positions : list Point) (floor : option Z) (next_id : nat),
  exists nodes edges next',
    build_path_graph positions floor next_id = Some (nodes, edges, next')
    /\ map edge_ends edges
       = map (fun ab => (node_id (fst ab), node_id (snd ab),
                         path_between positions ab))
           (filter (within_radius positions EDGE_CONNECTION_RADIUS)
                   (consecutive nodes))
    /\ Forall (fun e => edge_type e = HORIZONTAL
                        /\ is_bidirectional e = true
                        /\ (0 <= distance e <= EDGE_CONNECTION_RADIUS)%R)
         edges
    /\ (length edges <= length nodes - 1)%nat.
Proof.
  intros positions floor next.
  destruct (build_path_graph_edges positions floor next)
    as [nodes [edges [next' [E [_ [_ [Hm Hall]]]]]]].
  exists nodes, edges, next'. split; [exact E|].
  split; [exact Hm|]. split; [exact Hall|].
  rewrite <- (length_map edge_ends), Hm, length_map.
  rewrite <- (consecutive_length nodes). apply filter_length_le.
Qed.

Lemma gather_unused (r : Q) (pos1 : Point) (l : list (nat * Junction)) :
  forall used group,
    let res :=
      fold_left
        (fun (st : list bool * list Junction) (kj : nat * Junction) =>
           let (used, group) := st in
           if nth (fst kj) used false then st
           else if norm_lt pos1 (j_position (snd kj)) r
                then (Dedup.set_nth (fst kj) true used, group ++ [snd kj])
                else st)
        l (used, group) in
    length (fst res) = length used
    /\ (forall k, nth k used false = true -> nth k (fst res) false = true)
    /\ (forall kj, In kj l -> (fst kj < length used)%nat ->
          nth (fst kj) (fst res) false = false ->
          norm_lt pos1 (j_position (snd kj)) r = false).
Proof.
  induction l as [|kj l IH]; intros used group; cbn zeta.
  - simpl. repeat split; auto. intros kj [].
  - cbn [fold_left].
    destruct (nth (fst kj) used false) eqn:Eu.
    + destruct (IH used group) as [L [M F]]. cbn zeta in L, M, F.
      split; [exact L|]. split; [exact M|].
      intros kj' [<-|Hin] Hk Hn.
      * rewrite (M _ Eu) in Hn. discriminate.
      * apply F; assumption.
    + destruct (norm_lt pos1 (j_position (snd kj)) r) eqn:En.
      * destruct (IH (Dedup.set_nth (fst kj) true used) (group ++ [snd kj]))
          as [L [M F]]. cbn zeta in L, M, F.
        rewrite DedupFacts.set_nth_length in L, F.
        split; [exact L|]. split.
        -- intros k Hk. apply M. rewrite DedupFacts.nth_set_nth, Hk.
           destruct (_ && _); reflexivity.
        -- intros kj' [<-|Hin] Hk Hn.
           ++ rewrite M in Hn; [discriminate|].
              rewrite DedupFacts.nth_set_nth, Nat.eqb_refl.
              apply Nat.ltb_lt in Hk. rewrite Hk. reflexivity.
           ++ apply F; assumption.
      * destruct (IH used group) as [L [M F]]. cbn zeta in L, M, F.
        split; [exact L|]. split; [exact M|].
        intros kj' [<-|Hin] Hk Hn; [exact En|apply F; assumption].
Qed.

Lemma In_combine_seq {A : Type} (l : list A) (d : A) :
  forall a k, (k < length l)%nat ->
    In ((a + k)%nat, nth k l d) (combine (seq a (length l)) l).
Proof.
  induction l as [|x l IH]; intros a k Hk; simpl in Hk; [lia|].
  destruct k as [|k]; simpl.
  - left. rewrite Nat.add_0_r. reflexivity.
  - right. replace (a + S k)%nat with (S a + k)%nat by lia.
    apply IH. lia.
Qed.

Lemma combine_seq_snd {A : Type} (l : list A) :
  forall a, map snd (combine (seq a (length l)) l) = l.
Proof.
  induction l as [|x l IH]; intros a; simpl; [reflexivity|].
  rewrite IH. reflexivity.
Qed.

Lemma combine_seq_nth {A : Type} (l0 l : list A) (d : A) :
  Forall (fun ij => (fst ij < length (l0 ++ l))%nat
                    /\ nth (fst ij) (l0 ++ l) d = snd ij)
         (combine (seq (length l0) (length l)) l).
Proof.
  revert l0. induction l as [|x l IH]; intros l0; simpl; [constructor|].
  constructor.
  - cbn [fst snd]. split.
    + rewrite length_app. simpl. lia.
    + rewrite app_nth2 by lia. rewrite Nat.sub_diag. reflexivity.
  - specialize (IH (l0 ++ [x])).
    rewrite <- app_assoc in IH. cbn [app] in IH.
    replace (length (l0 ++ [x])) with (S (length l0)) in IH
      by (rewrite length_app; simpl; lia).
    exact IH.
Qed.

Lemma merge_fold (junctions : list Junction) (r : Q)
    (l : list (nat * Junction)) :
  forall used merged seeds,
    length used = length junctions ->
    map j_index merged = map j_index seeds ->
    (forall k, (k < length junctions)%nat -> nth k used false = false ->
       Forall (fun s => apart r s (nth k junctions no_junction)) seeds) ->
    ForallOrdPairs (apart r) seeds ->
    Forall (fun ij => (fst ij < length junctions)%nat
                      /\ nth (fst ij) junctions no_junction = snd ij) l ->
    exists seeds',
      map j_index
        (snd (fold_left
          (fun (st : list bool * list Junction) (ij : nat * Junction) =>
             let (used, merged) := st in
             if nth (fst ij) used false then st
             else
               let j1 := snd ij in
               let (used', group) :=
                 gather junctions r (j_position j1)
                        (Dedup.set_nth (fst ij) true used) [j1] in
               match group with
               | [g] => (used', merged ++ [g])
               | _ => (used', merged ++ [mkJunction (j_index (hd j1 group))
                                                    (mean_position group)])
               end)
          l (used, merged)))
      = map j_index (seeds ++ seeds')
      /\ Subseq seeds' (map snd l)
      /\ ForallOrdPairs (apart r) (seeds ++ seeds').
Proof.
  induction l as [|ij l IH]; intros used merged seeds Hlen Hm Hun Hfop Hl.
  - exists []. simpl. rewrite app_nil_r. repeat split; auto. constructor.
  - cbn [fold_left].
    pose proof (Forall_inv Hl) as [Hi Hnth].
    destruct (nth (fst ij) used false) eqn:Eu.
    + destruct (IH used merged seeds Hlen Hm Hun Hfop (Forall_inv_tail Hl))
        as [seeds' [E [Hsub Hf]]].
      exists seeds'. split; [exact E|]. split; [|exact Hf].
      simpl. constructor. exact Hsub.
    + cbn zeta.
      destruct (gather junctions r (j_position (snd ij))
                  (Dedup.set_nth (fst ij) true used) [snd ij])
        as [used' group] eqn:Eg.
      assert (Hhd : exists tl', group = snd ij :: tl').
      { pose proof (gather_head junctions r (j_position (snd ij))
                      (combine (seq 0 (length junctions)) junctions)
                      (Dedup.set_nth (fst ij) true used) [snd ij]
                      (snd ij) [] eq_refl) as [tl' Htl].
        unfold gather in Eg. rewrite Eg in Htl. simpl in Htl. eauto. }
      destruct Hhd as [tl' ->].
      pose proof (gather_unused r (j_position (snd ij))
                    (combine (seq 0 (length junctions)) junctions)
                    (Dedup.set_nth (fst ij) true used) [snd ij]) as G.
      cbn zeta in G. unfold gather in Eg. rewrite Eg in G. cbn [fst] in G.
      rewrite DedupFacts.set_nth_length in G.
      destruct G as [L [M F]].
      assert (Hback : forall k, nth k used' false = false ->
                                nth k used false = false).
      { intros k Hk. destruct (nth k used false) eqn:Ek; [|reflexivity].
        rewrite M in Hk; [discriminate|].
        rewrite DedupFacts.nth_set_nth, Ek. destruct (_ && _); reflexivity. }
      set (g := match tl' with
                | [] => snd ij
                | _ => mkJunction (j_index (hd (snd ij) (snd ij :: tl')))
                         (mean_position (snd ij :: tl'))
                end).
      assert (Hg : j_index g = j_index (snd ij)).
      { unfold g. destruct tl'; reflexivity. }
      assert (Est :
        match snd ij :: tl' with
        | [g0] => (used', merged ++ [g0])
        | _ => (used', merged ++ [mkJunction
                                    (j_index (hd (snd ij) (snd ij :: tl')))
                                    (mean_position (snd ij :: tl'))])
        end = (used', merged ++ [g])).
      { unfold g. destruct tl'; reflexivity. }
      rewrite Est.
      destruct (IH used' (merged ++ [g]) (seeds ++ [snd ij]))
        as [seeds' [E [Hsub Hf]]].
      * congruence.
      * rewrite !map_app, Hm. simpl. rewrite Hg. reflexivity.
      * intros k Hk Hku. apply Forall_app. split.
        -- apply Hun; [exact Hk|]. apply Hback. exact Hku.
        -- constructor; [|constructor]. unfold apart.
           apply (F (k, nth k junctions no_junction)).
           ++ apply (In_combine_seq junctions no_junction 0 k Hk).
           ++ cbn [fst]. lia.
           ++ exact Hku.
      * apply FOP_snoc; [exact Hfop|].
        rewrite <- Hnth. apply Hun; assumption.
      * exact (Forall_inv_tail Hl).
      * exists (snd ij :: seeds').
        rewrite <- app_assoc in E, Hf. simpl in E, Hf.
        split; [exact E|]. split; [|exact Hf].
        simpl. constructor. exact Hsub.
Qed.

Lemma merge_nearby_seeds (junctions : list Junction) (r : Q) :
  exists seeds,
    map j_index (_merge_nearby_junctions junctions r) = map j_index seeds
    /\ Subseq seeds junctions
    /\ ForallOrdPairs (apart r) seeds.
Proof.
  unfold _merge_nearby_junctions.
  destruct (length junctions <? 2)%nat eqn:El.
  - apply Nat.ltb_lt in El. exists junctions.
    split; [reflexivity|]. split; [apply Subseq_refl|].
    destruct junctions as [|a [|b l]]; [constructor| |simpl in El; lia].
    constructor; constructor.
  - destruct (merge_fold junctions r
                (combine (seq 0 (length junctions)) junctions)
                (repeat false (length junctions)) [] [])
      as [seeds [E [Hsub Hf]]].
    + apply repeat_length.
    + reflexivity.
    + intros; constructor.
    + constructor.
    + exact (combine_seq_nth [] junctions no_junction).
    + exists seeds. simpl in E, Hf. rewrite combine_seq_snd in Hsub.
      repeat split; assumption.
Qed.

Lemma candidates_sorted (positions : list Point) (mb n : nat) (len : nat) :
  forall a,
    let l :=
      flat_map
        (fun i =>
           if turn_at_least_45 (point_at positions (i - 1))
                (point_at positions i) (point_at positions (i + 1))
              && (mb <=? i)%nat && (mb <=? n - i - 1)%nat
           then [mkJunction i (point_at positions i)]
           else [])
        (seq a len) in
    StronglySorted lt (map j_index l)
    /\ Forall (fun j => (a <= j_index j)%nat
                        /\ j_position j = point_at positions (j_index j)
                        /\ sharp_turn_at positions (j_index j) = true) l.
Proof.
  induction len as [|len IH]; intros a; cbn zeta.
  - simpl. split; constructor.
  - cbn [seq flat_map]. destruct (IH (S a)) as [Hs Hf]. cbn zeta in Hs, Hf.
    assert (Hf' : Forall (fun j => (a <= j_index j)%nat
                        /\ j_position j = point_at positions (j_index j)
                        /\ sharp_turn_at positions (j_index j) = true)
                    (flat_map
        (fun i =>
           if turn_at_least_45 (point_at positions (i - 1))
                (point_at positions i) (point_at positions (i + 1))
              && (mb <=? i)%nat && (mb <=? n - i - 1)%nat
           then [mkJunction i (point_at positions i)]
           else [])
        (seq (S a) len))).
    { eapply Forall_impl; [|exact Hf]. cbn beta. intros j [H1 H2].
      split; [lia|exact H2]. }
    destruct (turn_at_least_45 _ _ _ && _ && _) eqn:Et.
    + cbn [app map j_index]. split.
      * constructor; [exact Hs|]. apply Forall_map.
        eapply Forall_impl; [|exact Hf]. cbn beta. intros j [H1 _]. lia.
      * constructor; [|exact Hf']. cbn. split; [lia|]. split; [reflexivity|].
        apply andb_true_iff in Et. destruct Et as [Et _].
        apply andb_true_iff in Et. destruct Et as [Et _]. exact Et.
    + cbn [app]. split; [exact Hs|exact Hf'].
Qed.

Lemma FOP_map_index (R : nat -> nat -> Prop) (l : list Junction) :
  ForallOrdPairs (fun a b => R (j_index a) (j_index b)) l ->
  ForallOrdPairs R (map j_index l).
Proof.
  induction 1 as [|a l Ha Hl IH]; simpl; constructor.
  - apply Forall_map. exact Ha.
  - exact IH.
Qed.

(** X20.  The junctions reported by [detect_junctions] have strictly
    increasing indices; each index has at least three points before it
    and three after it, and the path turns there by 45 degrees or more;
    the path points at two reported indices are at least
    [JUNCTION_MERGE_RADIUS] (1.5 m) apart.  A path of fewer than seven
    points has no junction. *)
Theorem detect_junctions_separated :
  forall (positions : list Point),
    let idxs := map j_index (detect_junctions positions) in
    let n := length positions in
    StronglySorted lt idxs
    /\ Forall (fun i => (3 <= i)%nat /\ (i + 4 <= n)%nat
                        /\ sharp_turn_at positions i = true) idxs
    /\ ForallOrdPairs
         (fun a b => (Q2R JUNCTION_MERGE_RADIUS
                      <= norm (point_at positions a) (point_at positions b))%R)
         idxs
    /\ ((n < 7)%nat -> detect_junctions positions = []).
Proof.
  intros positions idxs n.
  assert (Main :
    StronglySorted lt idxs
    /\ Forall (fun i => (3 <= i)%nat /\ (i + 4 <= n)%nat
                        /\ sharp_turn_at positions i = true) idxs
    /\ ForallOrdPairs
         (fun a b => (Q2R JUNCTION_MERGE_RADIUS
                      <= norm (point_at positions a) (point_at positions b))%R)
         idxs).
  { unfold idxs, detect_junctions.
    destruct (length positions <? 5)%nat.
    { simpl. repeat split; constructor. }
    destruct (merge_nearby_seeds
                (junction_candidates positions MIN_BRANCH_LENGTH)
                JUNCTION_MERGE_RADIUS) as [seeds [E [Hsub Hf]]].
    rewrite E.
    pose proof (candidates_sorted positions MIN_BRANCH_LENGTH
                  (length positions) (length positions - 1 - 2) 1)
      as [Hs Hc].
    cbn zeta in Hs, Hc.
    change (flat_map _ (seq 1 (length positions - 1 - 2)))
      with (junction_candidates positions MIN_BRANCH_LENGTH) in Hs, Hc.
    rewrite Forall_forall in Hc.
    split; [|split].
    - eapply Subseq_sorted; [apply Subseq_map; exact Hsub|exact Hs].
    - apply Forall_map. apply Forall_forall. intros j Hj.
      pose proof (Subseq_In _ _ _ Hsub Hj) as Hin.
      destruct (Hc j Hin) as [_ [_ Ht]].
      pose proof (junction_candidates_interior positions MIN_BRANCH_LENGTH
                    j Hin) as [H1 [H2 [H3 H4]]].
      unfold MIN_BRANCH_LENGTH in H1, H2. fold n in H2, H4.
      repeat split; [exact H1|lia|exact Ht].
    - apply FOP_map_index.
      eapply FOP_impl_In; [|exact Hf].
      intros a b Ha Hb Hab. unfold apart in Hab.
      destruct (Hc a (Subseq_In _ _ _ Hsub Ha)) as [_ [Pa _]].
      destruct (Hc b (Subseq_In _ _ _ Hsub Hb)) as [_ [Pb _]].
      rewrite Pa, Pb in Hab.
      apply norm_ge_spec. unfold norm_ge. rewrite Hab. reflexivity. }
  destruct Main as [M1 [M2 M3]].
  split; [exact M1|]. split; [exact M2|]. split; [exact M3|].
  intro Hn. unfold idxs in M2.
  destruct (detect_junctions positions) as [|j l]; [reflexivity|].
  simpl in M2. pose proof (Forall_inv M2) as [H1 [H2 _]]. lia.
Qed.

Lemma zero_counts_fold (nodes : list PathNode) :
  forall cc id,
    fold_left (fun cc n => counts_set cc (node_id n) 0) nodes cc id
    = if known nodes id then Some 0%nat else cc id.
Proof.
  induction nodes as [|n nodes IH]; intros cc id; [reflexivity|].
  cbn [fold_left]. rewrite IH. unfold known. cbn [existsb].
  fold (known nodes id). destruct (known nodes id).
  - rewrite orb_true_r. reflexivity.
  - rewrite orb_false_r. unfold counts_set. rewrite Nat.eqb_sym.
    destruct (node_id n =? id)%nat eqn:E; reflexivity.
Qed.

Lemma zero_counts_holds (nodes : list PathNode) :
  holds nodes (zero_counts nodes) (fun _ => 0%nat).
Proof.
  intro id. unfold zero_counts. rewrite zero_counts_fold.
  destruct (known nodes id); reflexivity.
Qed.

Lemma increment_holds (nodes : list PathNode) (cc : Counts)
    (c : nat -> nat) (k : nat) :
  holds nodes cc c ->
  match increment cc k with
  | Some cc' =>
    known nodes k = true
    /\ holds nodes cc' (fun id => (c id + if (id =? k)%nat then 1 else 0)%nat)
  | None => known nodes k = false
  end.
Proof.
  intro H. unfold increment. rewrite (H k).
  destruct (known nodes k) eqn:Ek; [|reflexivity].
  split; [reflexivity|]. intro id. unfold counts_set.
  destruct (id =? k)%nat eqn:E.
  - apply Nat.eqb_eq in E. subst id. rewrite Ek. f_equal. lia.
  - rewrite (H id). destruct (known nodes id); [f_equal; lia|reflexivity].
Qed.

Lemma count_edge_none (edges : list PathEdge) :
  fold_left count_edge edges None = None.
Proof. induction edges; simpl; auto. Qed.

Lemma holds_ext (nodes : list PathNode) (cc : Counts) (c c' : nat -> nat) :
  holds nodes cc c -> (forall id, c id = c' id) -> holds nodes cc c'.
Proof. intros H E id. rewrite (H id), (E id). reflexivity. Qed.

Lemma count_edges_holds (nodes : list PathNode) (edges : list PathEdge) :
  forall cc c,
    holds nodes cc c ->
    match fold_left count_edge edges (Some cc) with
    | Some cc' =>
      existsb (dangling nodes) edges = false
      /\ holds nodes cc' (fun id => (c id + degree edges id)%nat)
    | None => existsb (dangling nodes) edges = true
    end.
Proof.
  induction edges as [|e edges IH]; intros cc c H.
  - simpl. split; [reflexivity|]. eapply holds_ext; [exact H|].
    intro id. unfold degree. simpl. lia.
  - cbn [fold_left existsb].
    assert (Hd : dangling nodes e
                 = negb (known nodes (from_node_id e))
                   || (is_bidirectional e
                       && negb (known nodes (to_node_id e))))
      by reflexivity.
    rewrite Hd. clear Hd.
    assert (Hc : count_edge (Some cc) e
                 = match increment cc (from_node_id e) with
                   | None => None
                   | Some cc1 =>
                     if is_bidirectional e
                     then increment cc1 (to_node_id e) else Some cc1
                   end) by reflexivity.
    rewrite Hc. clear Hc.
    pose proof (increment_holds nodes cc c (from_node_id e) H) as H1.
    destruct (increment cc (from_node_id e)) as [cc1|].
    + destruct H1 as [K1 H1]. rewrite K1. cbn [negb orb].
      destruct (is_bidirectional e) eqn:Eb; cbn [andb].
      * pose proof (increment_holds nodes cc1 _ (to_node_id e) H1) as H2.
        destruct (increment cc1 (to_node_id e)) as [cc2|].
        -- destruct H2 as [K2 H2]. rewrite K2. cbn [negb orb].
           specialize (IH cc2 _ H2).
           destruct (fold_left count_edge edges (Some cc2)); [|exact IH].
           destruct IH as [D IH]. split; [exact D|].
           eapply holds_ext; [exact IH|]. intro id. cbv beta.
           unfold degree. cbn [filter]. rewrite Eb. cbn [andb].
           rewrite (Nat.eqb_sym id (from_node_id e)).
           rewrite (Nat.eqb_sym id (to_node_id e)).
           destruct (from_node_id e =? id)%nat;
             destruct (to_node_id e =? id)%nat; simpl; lia.
        -- rewrite H2. rewrite count_edge_none. reflexivity.
      * specialize (IH cc1 _ H1).
        destruct (fold_left count_edge edges (Some cc1)); [|exact IH].
        destruct IH as [D IH]. split; [exact D|].
        eapply holds_ext; [exact IH|]. intro id. cbv beta.
        unfold degree. cbn [filter]. rewrite Eb. cbn [andb].
        rewrite (Nat.eqb_sym id (from_node_id e)).
        destruct (from_node_id e =? id)%nat; simpl; lia.
    + rewrite H1. rewrite count_edge_none. reflexivity.
Qed.

Lemma collect_single_holds (nodes : list PathNode) (cc : Counts)
    (c : nat -> nat) :
  holds nodes cc c ->
  forall l, (forall n, In n l -> In n nodes) ->
    collect_single cc l
    = Some (filter (fun n => (c (node_id n) =? 1)%nat) l).
Proof.
  intros H. induction l as [|n l IH]; intros Hin; [reflexivity|].
  cbn [collect_single filter]. rewrite (H (node_id n)).
  assert (K : known nodes (node_id n) = true).
  { apply existsb_exists. exists n. split; [apply Hin; left; reflexivity|].
    apply Nat.eqb_refl. }
  rewrite K, IH by (intros; apply Hin; right; assumption).
  destruct (c (node_id n) =? 1)%nat; reflexivity.
Qed.

Lemma find_dead_ends_degrees (nodes : list PathNode)
    (edges : list PathEdge) :
  find_dead_ends nodes edges
  = if existsb (dangling nodes) edges then None
    else Some (filter (fun n => (degree edges (node_id n) =? 1)%nat) nodes).
Proof.
  unfold find_dead_ends.
  pose proof (count_edges_holds nodes edges _ _ (zero_counts_holds nodes))
    as H.
  destruct (fold_left count_edge edges (Some (zero_counts nodes))) as [cc|].
  - destruct H as [D H]. rewrite D.
    apply (collect_single_holds nodes cc _ H nodes). auto.
  - rewrite H. reflexivity.
Qed.

(** X21.  [find_dead_ends] fails with a key error exactly when some edge
    starts at an identifier that is no node's, or is bidirectional and
    ends at one.  Otherwise it returns, in the order of the node list, the
    nodes at which exactly one edge end is counted: edges leaving the node
    plus bidirectional edges arriving at it. *)
Theorem find_dead_ends_degree_one :
  forall (nodes : list PathNode) (edges : list PathEdge),
    find_dead_ends nodes edges
    = if existsb (dangling nodes) edges then None
      else Some (filter (fun n => (degree edges (node_id n) =? 1)%nat) nodes).
Proof. exact find_dead_ends_degrees. Qed.

Lemma filter_all_length {A : Type} (f : A -> bool) (l : list A) :
  length (filter f l) = length l -> filter f l = l.
Proof.
  induction l as [|x l IH]; [reflexivity|]. simpl.
  pose proof (filter_length_le f l) as Hle.
  destruct (f x); simpl; intro H.
  - f_equal. apply IH. lia.
  - lia.
Qed.

Lemma consecutive_fst {A : Type} (l : list A) :
  map fst (consecutive l) = removelast l.
Proof.
  induction l as [|a [|b l] IH]; [reflexivity|reflexivity|].
  change (consecutive (a :: b :: l)) with ((a, b) :: consecutive (b :: l)).
  cbn [map fst]. rewrite IH. reflexivity.
Qed.

Lemma consecutive_snd {A : Type} (l : list A) :
  map snd (consecutive l) = tl l.
Proof.
  induction l as [|a [|b l] IH]; [reflexivity|reflexivity|].
  change (consecutive (a :: b :: l)) with ((a, b) :: consecutive (b :: l)).
  cbn [map snd tl]. rewrite IH. reflexivity.
Qed.

Lemma count_absent (x : nat) (l : list nat) :
  ~ In x l -> length (filter (fun y => (y =? x)%nat) l) = 0%nat.
Proof.
  induction l as [|y l IH]; intro H; [reflexivity|]. simpl.
  destruct (y =? x)%nat eqn:E.
  - apply Nat.eqb_eq in E. exfalso. apply H. left. exact E.
  - apply IH. intro Hin. apply H. right. exact Hin.
Qed.

Lemma count_sorted (x : nat) (l : list nat) :
  StronglySorted lt l -> In x l ->
  length (filter (fun y => (y =? x)%nat) l) = 1%nat.
Proof.
  induction 1 as [|y l Hs IH Hall]; intros Hin; [contradiction|].
  simpl. rewrite Forall_forall in Hall.
  destruct (y =? x)%nat eqn:E.
  - apply Nat.eqb_eq in E. subst y. simpl. f_equal.
    apply count_absent. intro Hx. specialize (Hall x Hx). lia.
  - destruct Hin as [->|Hin]; [rewrite Nat.eqb_refl in E; discriminate|].
    apply IH. exact Hin.
Qed.

Lemma degree_counts (edges : list PathEdge) (id : nat) :
  Forall (fun e => is_bidirectional e = true) edges ->
  degree edges id
  = (length (filter (fun y => (y =? id)%nat) (map from_node_id edges))
     + length (filter (fun y => (y =? id)%nat) (map to_node_id edges)))%nat.
Proof.
  unfold degree. induction 1 as [|e edges Hb Hall IH]; [reflexivity|].
  cbn [filter map]. rewrite Hb. cbn [andb].
  destruct (from_node_id e =? id)%nat; destruct (to_node_id e =? id)%nat;
    cbn [length]; lia.
Qed.

Lemma sorted_ids (nodes : list PathNode) :
  StronglySorted lt_node nodes -> StronglySorted lt (map node_id nodes).
Proof.
  induction 1 as [|n l Hs IH Hall]; simpl; constructor; [exact IH|].
  apply Forall_map. eapply Forall_impl; [|exact Hall].
  intros m [_ H]. exact H.
Qed.

(** X22.  On a floor graph built by [build_path_graph] from two or more
    points in which every two neighbouring nodes are joined (it has one
    edge fewer than nodes), [find_dead_ends] returns exactly the first and
    the last node of the floor, both of type ENDPOINT. *)
Theorem find_dead_ends_floor_graph :
  forall (positions : list Point) (floor : option Z) (next_id : nat)
         (nodes : list PathNode) (edges : list PathEdge) (next' : nat),
    build_path_graph positions floor next_id = Some (nodes, edges, next') ->
    (2 <= length positions)%nat ->
    length edges = (length nodes - 1)%nat ->
    exists first middle final,
      nodes = first :: middle ++ [final]
      /\ node_type first = ENDPOINT /\ node_type final = ENDPOINT
      /\ find_dead_ends nodes edges = Some [first; final].
Proof.
  intros positions floor next nodes edges next' Hb Hlen Hfull.
  destruct (build_path_graph_edges positions floor next)
    as [nodes0 [edges0 [next0 [E [Hn [Hs [Hm Hall]]]]]]].
  rewrite Hb in E. injection E as <- <- <-.
  assert (Hshape : exists first middle final,
             nodes = first :: middle ++ [final]
             /\ node_type first = ENDPOINT /\ node_type final = ENDPOINT).
  { rewrite Hn. unfold extract_path_nodes.
    destruct (length positions <? 2)%nat eqn:El;
      [apply Nat.ltb_lt in El; lia|].
    destruct (interior_nodes _ _ _ _ _ _ _) as [middle next1].
    cbn [fst]. eexists _, middle, _. split; [reflexivity|].
    split; reflexivity. }
  destruct Hshape as [first [middle [final [Hshape [T1 T2]]]]].
  exists first, middle, final. split; [exact Hshape|].
  split; [exact T1|]. split; [exact T2|].
  assert (Hfilter : filter (within_radius positions EDGE_CONNECTION_RADIUS)
                      (consecutive nodes) = consecutive nodes).
  { apply filter_all_length. rewrite consecutive_length, <- Hfull.
    rewrite <- (length_map edge_ends edges), Hm, length_map. reflexivity. }
  rewrite Hfilter in Hm.
  assert (Hfrom : map from_node_id edges = map node_id (removelast nodes)).
  { rewrite <- consecutive_fst, map_map.
    transitivity (map (fun t => fst (fst t)) (map edge_ends edges)).
    - rewrite map_map. reflexivity.
    - rewrite Hm, map_map. reflexivity. }
  assert (Hto : map to_node_id edges = map node_id (tl nodes)).
  { rewrite <- consecutive_snd, map_map.
    transitivity (map (fun t => snd (fst t)) (map edge_ends edges)).
    - rewrite map_map. reflexivity.
    - rewrite Hm, map_map. reflexivity. }
  assert (Hbi : Forall (fun e => is_bidirectional e = true) edges).
  { eapply Forall_impl; [|exact Hall]. intros e [_ [H _]]. exact H. }
  pose proof (sorted_ids nodes Hs) as Hids.
  assert (Hrl : removelast nodes = first :: middle).
  { rewrite Hshape.
    change (first :: middle ++ [final]) with ((first :: middle) ++ [final]).
    apply removelast_last. }
  assert (Htl : tl nodes = middle ++ [final]) by (rewrite Hshape; reflexivity).
  rewrite Hrl in Hfrom. rewrite Htl in Hto.
  rewrite Hshape in Hids. cbn [map] in Hids. rewrite map_app in Hids.
  cbn [map] in Hids.
  assert (Hs1 : StronglySorted lt (node_id first :: map node_id middle)).
  { eapply Subseq_sorted; [|exact Hids].
    constructor. rewrite <- (app_nil_r (map node_id middle)) at 1.
    apply Subseq_app; [apply Subseq_refl|constructor; constructor]. }
  assert (Hs2 : StronglySorted lt (map node_id middle ++ [node_id final])).
  { inversion Hids; assumption. }
  assert (Hfirst_lt : Forall (fun y => (node_id first < y)%nat)
                        (map node_id middle ++ [node_id final])).
  { inversion Hids; assumption. }
  rewrite Forall_forall in Hfirst_lt.
  assert (Hlast_gt : forall y, In y (node_id first :: map node_id middle) ->
                               (y < node_id final)%nat).
  { intros y [<-|Hy].
    - apply Hfirst_lt. apply in_or_app. right. left. reflexivity.
    - inversion Hids as [|? ? Hs' _]; subst.
      pose proof (StronglySorted_before lt (map node_id middle) []
                    (node_id final) Hs') as Hb'.
      rewrite Forall_forall in Hb'. apply Hb'. exact Hy. }
  assert (Hdeg : forall id,
             degree edges id
             = (length (filter (fun y => (y =? id)%nat)
                          (node_id first :: map node_id middle))
                + length (filter (fun y => (y =? id)%nat)
                            (map node_id middle ++ [node_id final])))%nat).
  { intro id. rewrite (degree_counts edges id Hbi), Hfrom, Hto.
    rewrite map_app. reflexivity. }
  rewrite find_dead_ends_degrees.
  assert (Hd : existsb (dangling nodes) edges = false).
  { apply not_true_is_false. intro Hex. apply existsb_exists in Hex.
    destruct Hex as [e [He Hdang]]. unfold dangling in Hdang.
    assert (K1 : known nodes (from_node_id e) = true).
    { assert (Hin : In (from_node_id e) (map from_node_id edges))
        by (apply in_map; exact He).
      rewrite Hfrom in Hin. apply in_map_iff in Hin.
      destruct Hin as [n [Hid Hin]]. apply existsb_exists. exists n.
      split; [|apply Nat.eqb_eq; exact Hid].
      rewrite Hshape. destruct Hin as [<-|Hin]; [left; reflexivity|].
      right. apply in_or_app. left. exact Hin. }
    assert (K2 : known nodes (to_node_id e) = true).
    { assert (Hin : In (to_node_id e) (map to_node_id edges))
        by (apply in_map; exact He).
      rewrite Hto in Hin. apply in_map_iff in Hin.
      destruct Hin as [n [Hid Hin]]. apply existsb_exists. exists n.
      split; [|apply Nat.eqb_eq; exact Hid].
      rewrite Hshape. right. exact Hin. }
    rewrite K1, K2 in Hdang. rewrite andb_false_r in Hdang. discriminate. }
  rewrite Hd. f_equal. rewrite Hshape. cbn [filter].
  assert (D1 : degree edges (node_id first) = 1%nat).
  { rewrite Hdeg. rewrite (count_sorted _ _ Hs1) by (left; reflexivity).
    rewrite count_absent; [reflexivity|].
    intro Hin. specialize (Hfirst_lt _ Hin). lia. }
  rewrite D1. cbn [Nat.eqb]. f_equal.
  rewrite filter_app. cbn [filter].
  assert (D2 : degree edges (node_id final) = 1%nat).
  { rewrite Hdeg. rewrite count_absent.
    - rewrite (count_sorted _ _ Hs2); [reflexivity|].
      apply in_or_app. right. left. reflexivity.
    - intro Hin. specialize (Hlast_gt _ Hin). lia. }
  rewrite D2. cbn [Nat.eqb].
  assert (Dm : filter (fun n => (degree edges (node_id n) =? 1)%nat) middle
               = []).
  { assert (Hnone : forall l, (forall n, In n l -> In n middle) ->
              filter (fun n => (degree edges (node_id n) =? 1)%nat) l = []);
      [|apply Hnone; auto].
    induction l as [|n l IHl]; intros Hsub; [reflexivity|]. cbn [filter].
    rewrite IHl by (intros; apply Hsub; right; assumption).
    assert (Hn' : In n middle) by (apply Hsub; left; reflexivity).
    replace (degree edges (node_id n)) with 2%nat; [reflexivity|].
    rewrite Hdeg.
    rewrite (count_sorted _ _ Hs1) by (right; apply in_map; exact Hn').
    rewrite (count_sorted _ _ Hs2)
      by (apply in_or_app; left; apply in_map; exact Hn').
    lia. }
  rewrite Dm. reflexivity.
Qed.

Lemma find_dead_ends_three_points :
  exists nodes edges next' first middle final,
    build_path_graph three_points (Some 1%Z) 0 = Some (nodes, edges, next')
    /\ (2 <= length three_points)%nat
    /\ length edges = (length nodes - 1)%nat
    /\ nodes = first :: middle ++ [final]
    /\ find_dead_ends nodes edges = Some [first; final].
Proof.
  destruct three_points_graph as [e1 [e2 [Hg _]]].
  destruct (find_dead_ends_floor_graph three_points (Some 1%Z) 0 _ _ _ Hg)
    as [first [middle [final [Hn [_ [_ Hd]]]]]];
    [simpl; lia|reflexivity|].
  do 3 eexists. exists first, middle, final.
  split; [exact Hg|]. split; [simpl; lia|]. split; [reflexivity|].
  split; [exact Hn|exact Hd].
Defined.

Lemma connect_passages_edges (all_nodes : list PathNode)
    (passages : list Passage) :
  forall next,
    let vertical := fst (connect_passages all_nodes passages next) in
    (length vertical <= length passages)%nat
    /\ Forall (passage_edge all_nodes passages) vertical.
Proof.
  induction passages as [|p rest IH]; intros next; cbn zeta.
  - simpl. split; [lia|constructor].
  - cbn [connect_passages].
    assert (Hweak : forall es,
              Forall (passage_edge all_nodes rest) es ->
              Forall (passage_edge all_nodes (p :: rest)) es).
    { intros es. apply Forall_impl. intros e [q [en [ex [Hq H]]]].
      exists q, en, ex. split; [right; exact Hq|exact H]. }
    destruct (_find_nearest_node_to_position all_nodes (entry_point p)
                (from_floor p)) as [en|] eqn:Een.
    + destruct (_find_nearest_node_to_position all_nodes (exit_point p)
                  (to_floor p)) as [ex|] eqn:Eex.
      * destruct (IH (S next)) as [Hl Hf]. cbn zeta in Hl, Hf.
        destruct (connect_passages all_nodes rest (S next))
          as [edges next'].
        cbn [fst] in *. split; [simpl; lia|].
        constructor; [|apply Hweak; exact Hf].
        destruct (entry_point p) as [pe|] eqn:Epe; [|discriminate].
        destruct (exit_point p) as [pp|] eqn:Epp;
          [|destruct all_nodes; discriminate].
        pose proof (find_nearest_spec all_nodes pe (from_floor p)) as H1.
        pose proof (find_nearest_spec all_nodes pp (to_floor p)) as H2.
        rewrite Een in H1. rewrite Eex in H2.
        destruct H1 as [I1 [F1 _]]. destruct H2 as [I2 [F2 _]].
        exists p, en, ex. cbn. repeat split; auto.
      * destruct (IH next) as [Hl Hf]. cbn zeta in Hl, Hf.
        split; [simpl; lia|apply Hweak; exact Hf].
    + destruct (IH next) as [Hl Hf]. cbn zeta in Hl, Hf.
      split; [simpl; lia|apply Hweak; exact Hf].
Qed.

(** X23.  [merge_floor_graphs] keeps the nodes and the edges of the
    floors, in the order of the floors, and appends at most one edge for
    each passage.  An appended edge is bidirectional, of the vertical type
    of its passage, runs from a node on the floor the passage leaves to a
    node on the floor it reaches, and carries the signed height
    difference of the passage as its distance. *)
Theorem merge_floor_graphs_appends_passage_edges :
  forall (floor_graphs : list FloorGraph) (vertical_passages : list Passage)
         (next_id : nat),
    let merged := merge_floor_graphs floor_graphs vertical_passages next_id in
    let nodes := fst (fst merged) in
    let edges := snd (fst merged) in
    nodes = flat_map (fun fg => fst (snd fg)) floor_graphs
    /\ exists vertical,
         edges = flat_map (fun fg => snd (snd fg)) floor_graphs ++ vertical
         /\ (length vertical <= length vertical_passages)%nat
         /\ Forall (passage_edge nodes vertical_passages) vertical.
Proof.
  intros floor_graphs passages next. cbn zeta. unfold merge_floor_graphs.
  pose proof (connect_passages_edges
                (flat_map (fun fg => fst (snd fg)) floor_graphs)
                passages next) as [Hl Hf].
  cbn zeta in Hl, Hf.
  destruct (connect_passages _ passages next) as [vertical next'].
  cbn [fst snd] in *. split; [reflexivity|].
  exists vertical. repeat split; assumption.
Qed.

Lemma extract_path_nodes_floor (positions : list Point)
    (junctions : list Junction) (sp : Q) (fl : option Z) (next : nat) :
  Forall (fun nd => floor_level nd = fl)
    (fst (extract_path_nodes positions junctions sp fl next)).
Proof.
  unfold extract_path_nodes.
  destruct (length positions <? 2)%nat; [constructor|].
  destruct (interior_nodes _ _ _ _ _ _ _) as [middle next'] eqn:Ei.
  cbn [fst]. constructor; [reflexivity|].
  apply Forall_app. split; [|constructor; [reflexivity|constructor]].
  pose proof (interior_nodes_spec _ _ _ _ _ _ _ _ _ Ei) as [_ [Hf _]].
  eapply Forall_impl; [|exact Hf]. intros nd [_ [_ [H _]]]. exact H.
Qed.

Lemma joins_nodes_weaken (nodes1 nodes2 : list PathNode)
    (edges : list PathEdge) :
  (forall n, In n nodes1 -> In n nodes2) ->
  Forall (joins_nodes nodes1) edges -> Forall (joins_nodes nodes2) edges.
Proof.
  intro Hsub. apply Forall_impl.
  intros e [n1 [n2 [I1 [I2 H]]]]. exists n1, n2.
  split; [apply Hsub; exact I1|]. split; [apply Hsub; exact I2|exact H].
Qed.

Lemma build_path_graph_joins (positions : list Point) (floor : option Z)
    (next : nat) :
  exists nodes edges next',
    build_path_graph positions floor next = Some (nodes, edges, next')
    /\ Forall (joins_nodes nodes) edges.
Proof.
  destruct (build_path_graph_spec positions floor next)
    as [nodes [edges [next' [E [Hn Hj]]]]].
  exists nodes, edges, next'. split; [exact E|].
  pose proof (extract_path_nodes_floor positions
                (detect_junctions positions) NODE_SPACING floor next) as Hfl.
  rewrite <- Hn in Hfl. rewrite Forall_forall in Hfl.
  eapply Forall_impl; [|exact Hj].
  intros e [_ [n1 [n2 [I1 [I2 [F [T _]]]]]]].
  exists n1, n2. repeat split; auto.
  intros _. rewrite (Hfl n1 I1), (Hfl n2 I2). reflexivity.
Qed.

Lemma build_floor_graphs_joins (smoothed_floors : list (Z * list Point)) :
  forall next,
  exists graphs next',
    build_floor_graphs smoothed_floors next = Some (graphs, next')
    /\ Forall (joins_nodes (flat_map (fun fg => fst (snd fg)) graphs))
         (flat_map (fun fg => snd (snd fg)) graphs).
Proof.
  induction smoothed_floors as [|[level positions] rest IH]; intros next.
  - exists [], next. split; [reflexivity|constructor].
  - cbn [build_floor_graphs].
    destruct (build_path_graph_joins positions (Some level) next)
      as [nodes [edges [next1 [E Hj]]]].
    rewrite E.
    destruct (IH next1) as [graphs [next2 [E2 Hj2]]]. rewrite E2.
    eexists _, next2. split; [reflexivity|].
    cbn [flat_map fst snd]. apply Forall_app. split.
    + eapply joins_nodes_weaken; [|exact Hj].
      intros n Hn. apply in_or_app. left. exact Hn.
    + eapply joins_nodes_weaken; [|exact Hj2].
      intros n Hn. apply in_or_app. right. exact Hn.
Qed.

Lemma joins_nodes_not_dangling (nodes : list PathNode)
    (edges : list PathEdge) :
  Forall (joins_nodes nodes) edges ->
  existsb (dangling nodes) edges = false.
Proof.
  intro H. apply not_true_is_false. intro Hex.
  apply existsb_exists in Hex. destruct Hex as [e [He Hd]].
  rewrite Forall_forall in H.
  destruct (H e He) as [n1 [n2 [I1 [I2 [F [T _]]]]]].
  unfold dangling in Hd.
  assert (K1 : known nodes (from_node_id e) = true).
  { apply existsb_exists. exists n1. split; [exact I1|].
    apply Nat.eqb_eq. symmetry. exact F. }
  assert (K2 : known nodes (to_node_id e) = true).
  { apply existsb_exists. exists n2. split; [exact I2|].
    apply Nat.eqb_eq. symmetry. exact T. }
  rewrite K1, K2, andb_false_r in Hd. discriminate.
Qed.

(** X24.  The graph stage never fails, and the graph it hands to the
    result is well formed: every edge joins two nodes of the graph, a
    horizontal edge two nodes of the same floor; so [find_dead_ends] does
    not fail on it. *)
Theorem merged_graph_well_formed :
  forall (smoothed_floors : list (Z * list Point))
         (vertical_passages : list Passage) (next_id : nat),
  exists graphs next1,
    build_floor_graphs smoothed_floors next_id = Some (graphs, next1)
    /\ let merged := merge_floor_graphs graphs vertical_passages next1 in
       let nodes := fst (fst merged) in
       let edges := snd (fst merged) in
       Forall (joins_nodes nodes) edges
       /\ exists dead_ends, find_dead_ends nodes edges = Some dead_ends.
Proof.
  intros smoothed_floors passages next.
  destruct (build_floor_graphs_joins smoothed_floors next)
    as [graphs [next1 [E Hj]]].
  exists graphs, next1. split; [exact E|]. cbn zeta.
  unfold merge_floor_graphs.
  pose proof (connect_passages_edges
                (flat_map (fun fg => fst (snd fg)) graphs) passages next1)
    as [_ Hv].
  cbn zeta in Hv.
  destruct (connect_passages _ passages next1) as [vertical next'].
  cbn [fst snd] in *.
  assert (Hall : Forall (joins_nodes
                           (flat_map (fun fg => fst (snd fg)) graphs))
                   (flat_map (fun fg => snd (snd fg)) graphs ++ vertical)).
  { apply Forall_app. split; [exact Hj|].
    eapply Forall_impl; [|exact Hv].
    intros e [p [en [ex [_ [I1 [I2 [_ [_ [F [T [_ [_ Ty]]]]]]]]]]]].
    exists en, ex. repeat split; auto.
    intro Hh. rewrite Ty in Hh. destruct (p_type p); discriminate. }
  split; [exact Hall|].
  rewrite find_dead_ends_degrees, (joins_nodes_not_dangling _ _ Hall).
  eexists. reflexivity.
Qed.

End GraphProps.

Module FloorsProps.
Import Geom Dedup Vertical Floors.
Import GeomFacts ListFacts GraphFacts FloorsSpec ListSpec ListProps.
Import RangeProps VerticalProps.
Local Open Scope Q_scope.

Lemma select_map_mask {A B : Type} (f : A -> B) (g : A -> bool)
    (l : list A) :
  select (map f l) (map g l) = map f (filter g l).
Proof.
  induction l as [|a l IH]; simpl; [reflexivity|].
  destruct (g a); simpl; rewrite IH; reflexivity.
Qed.

Lemma select_seq_nth {A : Type} (d : A) (l : list A) :
  forall l0 mask,
    select l mask
    = map (fun i => nth i (l0 ++ l) d)
          (select (seq (length l0) (length l)) mask).
Proof.
  induction l as [|x l IH]; intros l0 [|b m]; try reflexivity.
  cbn [length seq select].
  assert (E : forall i, nth i ((l0 ++ [x]) ++ l) d = nth i (l0 ++ x :: l) d).
  { intro i. rewrite <- app_assoc. reflexivity. }
  specialize (IH (l0 ++ [x]) m).
  replace (length (l0 ++ [x])) with (S (length l0)) in IH
    by (rewrite length_app; simpl; lia).
  rewrite (map_ext _ _ E) in IH.
  destruct b; cbn [map]; rewrite <- IH; [|reflexivity].
  f_equal. rewrite app_nth2 by lia. rewrite Nat.sub_diag. reflexivity.
Qed.

Lemma select_seq_spec (k : nat) :
  forall a mask i,
    In i (select (seq a k) mask) ->
    (a <= i < a + k)%nat /\ nth (i - a) mask false = true.
Proof.
  induction k as [|k IH]; intros a [|b m] i Hin; try contradiction.
  cbn [seq select] in Hin.
  assert (Hrest : In i (select (seq (S a) k) m) ->
                  (a <= i < a + S k)%nat
                  /\ nth (i - a) (b :: m) false = true).
  { intro H. destruct (IH (S a) m i H) as [H1 H2]. split; [lia|].
    replace (i - a)%nat with (S (i - S a)) by lia. exact H2. }
  destruct b; [|apply Hrest; exact Hin].
  destruct Hin as [<-|Hin]; [|apply Hrest; exact Hin].
  split; [lia|]. rewrite Nat.sub_diag. reflexivity.
Qed.

Lemma map_nth_all {A : Type} (d : A) (l : list A) :
  forall l0,
    l = map (fun i => nth i (l0 ++ l) d) (seq (length l0) (length l)).
Proof.
  induction l as [|x l IH]; intros l0; [reflexivity|].
  cbn [length seq map]. f_equal.
  - rewrite app_nth2 by lia. rewrite Nat.sub_diag. reflexivity.
  - specialize (IH (l0 ++ [x])).
    replace (length (l0 ++ [x])) with (S (length l0)) in IH
      by (rewrite length_app; simpl; lia).
    rewrite IH at 1. apply map_ext. intro i.
    rewrite <- app_assoc. reflexivity.
Qed.

Lemma floor_points_spec (positions : list Point) (node_ids : list Z)
    (stair_mask : option (list bool)) :
  consistent positions node_ids stair_mask ->
  exists original_indices,
    floor_points positions node_ids stair_mask
    = Some (map (fun i => nth i positions (mkPoint 0 0 0)) original_indices,
            map (fun i => nth i node_ids 0%Z) original_indices,
            original_indices)
    /\ StronglySorted lt original_indices
    /\ Forall (fun i => (i < length positions)%nat
                        /\ on_stairs stair_mask i = false) original_indices.
Proof.
  intros [Hids Hmask]. unfold floor_points.
  destruct stair_mask as [mask|].
  - exists (where_true (map negb mask)).
    unfold bool_index, list_where. rewrite !length_map.
    rewrite Hmask, Nat.eqb_refl, Hids, Nat.leb_refl.
    unfold where_true. rewrite length_map, Hmask.
    rewrite (select_seq_nth (mkPoint 0 0 0) positions [] (map negb mask)).
    rewrite (select_seq_nth 0%Z node_ids [] (map negb mask)).
    cbn [length app]. rewrite Hids.
    split; [reflexivity|]. split.
    + eapply Subseq_sorted; [apply DedupProps.select_Subseq|apply seq_sorted].
    + apply Forall_forall. intros i Hi.
      apply select_seq_spec in Hi. destruct Hi as [H1 H2].
      split; [lia|]. rewrite Nat.sub_0_r in H2. cbn [on_stairs].
      destruct (Nat.lt_ge_cases i (length mask)) as [Hlt|Hge].
      * rewrite (nth_indep _ false (negb false)) in H2
          by (rewrite length_map; exact Hlt).
        rewrite map_nth in H2. apply negb_true_iff in H2. exact H2.
      * apply nth_overflow. exact Hge.
  - exists (seq 0 (length positions)). split; [|split].
    + pose proof (map_nth_all (mkPoint 0 0 0) positions []) as E1.
      pose proof (map_nth_all 0%Z node_ids []) as E2.
      cbn [app length] in E1, E2. rewrite Hids in E2.
      rewrite <- E1, <- E2. reflexivity.
    + apply seq_sorted.
    + apply Forall_forall. intros i Hi. apply in_seq in Hi.
      split; [lia|reflexivity].
Qed.

Lemma level_cluster_pure (positions : list Point) (node_ids : list Z)
    (level_of : Q -> nat) (oi : list nat) (min_points level : nat) :
  level_cluster (map (fun i => nth i positions (mkPoint 0 0 0)) oi)
    (map (fun i => nth i node_ids 0%Z) oi) oi
    (map level_of
       (map pz (map (fun i => nth i positions (mkPoint 0 0 0)) oi)))
    min_points level
  = Some (if (length (level_indices positions level_of oi level)
              <? min_points)%nat
          then None
          else Some (cluster_at positions node_ids level_of oi level)).
Proof.
  unfold level_cluster. cbn zeta.
  set (g := fun i => (level_of (pz (nth i positions (mkPoint 0 0 0)))
                      =? level)%nat).
  assert (Em : map (fun l => (l =? level)%nat)
                 (map level_of
                    (map pz (map (fun i => nth i positions (mkPoint 0 0 0))
                               oi)))
               = map g oi).
  { rewrite !map_map. reflexivity. }
  rewrite Em. unfold bool_index, list_where. rewrite !length_map.
  rewrite Nat.eqb_refl, Nat.leb_refl.
  rewrite !select_map_mask.
  assert (Es : select oi (map g oi) = filter g oi).
  { pose proof (select_map_mask (fun i : nat => i) g oi) as H.
    rewrite !map_id in H. exact H. }
  rewrite Es, length_map.
  change (filter g oi) with (level_indices positions level_of oi level).
  destruct (length (level_indices positions level_of oi level) <? min_points)%nat;
    [reflexivity|].
  unfold cluster_at. cbn zeta. rewrite length_map. reflexivity.
Qed.

Lemma valid_clusters_pure (positions : list Point) (node_ids : list Z)
    (level_of : Q -> nat) (oi : list nat) (min_points : nat)
    (levels : list nat) :
  valid_clusters_of (map (fun i => nth i positions (mkPoint 0 0 0)) oi)
    (map (fun i => nth i node_ids 0%Z) oi) oi
    (map level_of
       (map pz (map (fun i => nth i positions (mkPoint 0 0 0)) oi)))
    min_points levels
  = Some (map (cluster_at positions node_ids level_of oi)
            (filter (fun l => negb (length (level_indices positions level_of
                                              oi l) <? min_points)%nat)
                    levels)).
Proof.
  induction levels as [|l levels IH]; [reflexivity|].
  cbn [valid_clusters_of filter]. rewrite level_cluster_pure, IH.
  destruct (length (level_indices positions level_of oi l) <? min_points)%nat;
    reflexivity.
Qed.

Lemma insert_cluster_after (c : FloorCluster) (acc : list FloorCluster) :
  Forall (fun d => fc_z_mean d <= fc_z_mean c) acc ->
  insert_cluster c acc = acc ++ [c].
Proof.
  induction 1 as [|d acc Hd Hacc IH]; [reflexivity|].
  cbn [insert_cluster]. apply Qle_bool_iff in Hd. rewrite Hd, IH.
  reflexivity.
Qed.

Lemma sort_clusters_sorted (clusters : list FloorCluster) :
  StronglySorted (fun a b => fc_z_mean a <= fc_z_mean b) clusters ->
  sort_clusters clusters = clusters.
Proof.
  unfold sort_clusters. intro Hs.
  assert (G : forall l acc,
            StronglySorted (fun a b => fc_z_mean a <= fc_z_mean b)
              (acc ++ l) ->
            fold_left (fun acc c => insert_cluster c acc) l acc = acc ++ l).
  { induction l as [|c l IH]; intros acc H; simpl.
    - rewrite app_nil_r. reflexivity.
    - rewrite insert_cluster_after
        by (exact (StronglySorted_before
                     (fun a b => fc_z_mean a <= fc_z_mean b) acc l c H)).
      rewrite IH; rewrite <- app_assoc; [reflexivity|exact H]. }
  apply (G clusters []). exact Hs.
Qed.

Lemma unique_spec (levels : list nat) :
  StronglySorted lt (unique levels)
  /\ forall l, In l (unique levels) -> In l levels.
Proof.
  unfold unique. split.
  - eapply Subseq_sorted; [apply Subseq_filter|apply seq_sorted].
  - intros l Hl. apply filter_In in Hl. destruct Hl as [_ Hl].
    apply existsb_exists in Hl. destruct Hl as [x [Hx E]].
    apply Nat.eqb_eq in E. subst x. exact Hx.
Qed.

Lemma mean_bounds (l : list Q) (a b : Q) :
  l <> [] ->
  (forall z, In z l -> a <= z) -> (forall z, In z l -> z <= b) ->
  a <= np_mean l <= b.
Proof.
  intros Hne Ha Hb. unfold np_mean.
  assert (Hn : 0 < nq (length l)).
  { apply nq_pos. destruct l; [congruence|simpl; lia]. }
  pose proof (qsum_lower a l Ha) as H1.
  pose proof (qsum_upper b l Hb) as H2.
  split.
  - apply Qle_shift_div_l; assumption.
  - apply Qle_shift_div_r; assumption.
Qed.

Lemma cluster_at_taken (positions : list Point) (node_ids : list Z)
    (stair_mask : option (list bool)) (level_of : Q -> nat)
    (oi : list nat) (level : nat) :
  StronglySorted lt oi ->
  Forall (fun i => (i < length positions)%nat
                   /\ on_stairs stair_mask i = false) oi ->
  taken_from positions node_ids stair_mask
    (cluster_at positions node_ids level_of oi level).
Proof.
  intros Hs Hf. unfold taken_from, cluster_at. cbn.
  split; [|split; [|split; [|split]]]; try reflexivity.
  - eapply Subseq_sorted; [apply Subseq_filter|exact Hs].
  - apply Forall_forall. intros i Hi. unfold level_indices in Hi.
    apply filter_In in Hi. rewrite Forall_forall in Hf. apply Hf. apply Hi.
  - apply length_map.
Qed.

Lemma cluster_at_summary (positions : list Point) (node_ids : list Z)
    (level_of : Q -> nat) (oi : list nat) (level : nat) :
  level_indices positions level_of oi level <> [] ->
  z_summary (cluster_at positions node_ids level_of oi level).
Proof.
  intro Hne. unfold z_summary, cluster_at. cbn.
  set (zs := map pz (map (fun i => nth i positions (mkPoint 0 0 0))
                       (level_indices positions level_of oi level))).
  split.
  - apply Forall_forall. intros p Hp.
    assert (Hz : In (pz p) zs) by (apply in_map; exact Hp).
    split; [apply list_min_le|apply list_max_ge]; exact Hz.
  - apply mean_bounds.
    + unfold zs. intro E. apply map_eq_nil in E. apply map_eq_nil in E.
      contradiction.
    + intros z Hz. apply list_min_le. exact Hz.
    + intros z Hz. apply list_max_ge. exact Hz.
Qed.

Lemma cluster_at_below (positions : list Point) (node_ids : list Z)
    (level_of : Q -> nat) (oi : list nat) (l1 l2 : nat) :
  (forall z1 z2, z1 <= z2 -> (level_of z1 <= level_of z2)%nat) ->
  (l1 < l2)%nat ->
  level_indices positions level_of oi l1 <> [] ->
  level_indices positions level_of oi l2 <> [] ->
  fc_z_max (cluster_at positions node_ids level_of oi l1)
  < fc_z_min (cluster_at positions node_ids level_of oi l2).
Proof.
  intros Hmono Hlt H1 H2. unfold cluster_at. cbn.
  set (P := fun i => nth i positions (mkPoint 0 0 0)).
  assert (Hin : forall l,
            level_indices positions level_of oi l <> [] ->
            forall z,
              In z (map pz (map P (level_indices positions level_of oi l))) ->
              level_of z = l).
  { intros l _ z Hz. apply in_map_iff in Hz. destruct Hz as [p [<- Hp]].
    apply in_map_iff in Hp. destruct Hp as [i [<- Hi]].
    unfold level_indices in Hi. apply filter_In in Hi.
    destruct Hi as [_ Hi]. apply Nat.eqb_eq in Hi. exact Hi. }
  assert (Hmax : level_of (list_max
                   (map pz (map P (level_indices positions level_of oi l1))))
                 = l1).
  { apply (Hin l1 H1). apply list_max_In. intro E.
    apply map_eq_nil in E. apply map_eq_nil in E. contradiction. }
  assert (Hmin : level_of (list_min
                   (map pz (map P (level_indices positions level_of oi l2))))
                 = l2).
  { apply (Hin l2 H2). apply list_min_In. intro E.
    apply map_eq_nil in E. apply map_eq_nil in E. contradiction. }
  apply Qnot_le_lt. intro Hle. apply Hmono in Hle.
  fold P in Hmax, Hmin. rewrite Hmax, Hmin in Hle. lia.
Qed.

Lemma separate_floors_shape (kernel : list Q) (positions : list Point)
    (node_ids : list Z) (height_threshold : Q) (min_points : nat)
    (stair_mask : option (list bool)) :
  consistent positions node_ids stair_mask ->
  exists floors,
    separate_floors kernel positions node_ids height_threshold min_points
      stair_mask = Some floors
    /\ map fst floors = map Z.of_nat (seq 1 (length floors))
    /\ Forall (fun c => taken_from positions node_ids stair_mask c
                        /\ z_summary c
                        /\ (1 <= fc_point_count c)%nat
                        /\ (min_points <= fc_point_count c)%nat)
         (map snd floors)
    /\ ForallOrdPairs (fun c1 c2 => fc_z_max c1 < fc_z_min c2)
         (map snd floors).
Proof.
  intro Hc. unfold separate_floors.
  destruct (floor_points_spec positions node_ids stair_mask Hc)
    as [oi [E [Hs Hf]]].
  rewrite E. rewrite length_map.
  destruct (length oi =? 0)%nat eqn:El.
  { exists []. split; [reflexivity|]. split; [reflexivity|].
    split; constructor. }
  cbn zeta.
  destruct (cluster_levels_order kernel
              (map pz (map (fun i => nth i positions (mkPoint 0 0 0)) oi))
              height_threshold) as [level_of [Elev Hmono]].
  rewrite Elev. rewrite valid_clusters_pure.
  destruct (unique_spec
              (map level_of
                 (map pz (map (fun i => nth i positions (mkPoint 0 0 0))
                            oi)))) as [Hus Huin].
  set (Ls := filter (fun l => negb (length (level_indices positions level_of
                                              oi l) <? min_points)%nat)
               (unique
                  (map level_of
                     (map pz (map (fun i => nth i positions (mkPoint 0 0 0))
                                oi))))).
  assert (HLs : StronglySorted lt Ls).
  { eapply Subseq_sorted; [apply Subseq_filter|exact Hus]. }
  assert (Hne : forall l, In l Ls ->
                  level_indices positions level_of oi l <> []
                  /\ (min_points
                      <= length (level_indices positions level_of oi l))%nat).
  { intros l Hl. unfold Ls in Hl. apply filter_In in Hl.
    destruct Hl as [Hl Hmin]. split.
    - apply Huin in Hl. rewrite !map_map in Hl. apply in_map_iff in Hl.
      destruct Hl as [i [Hi Hin]].
      assert (Hx : In i (level_indices positions level_of oi l)).
      { unfold level_indices. apply filter_In. split; [exact Hin|].
        apply Nat.eqb_eq. exact Hi. }
      intro E0. rewrite E0 in Hx. contradiction.
    - apply negb_true_iff in Hmin. apply Nat.ltb_ge in Hmin. exact Hmin. }
  set (clusters := map (cluster_at positions node_ids level_of oi) Ls).
  assert (Hbelow : ForallOrdPairs (fun c1 c2 => fc_z_max c1 < fc_z_min c2)
                     clusters).
  { unfold clusters. apply FOP_map.
    eapply FOP_impl_In; [|apply sorted_FOP; exact HLs].
    intros a b Ha Hb Hab. cbv beta.
    apply cluster_at_below; auto; apply Hne; assumption. }
  assert (Hall : Forall (fun c => taken_from positions node_ids stair_mask c
                        /\ z_summary c
                        /\ (1 <= fc_point_count c)%nat
                        /\ (min_points <= fc_point_count c)%nat) clusters).
  { unfold clusters. apply Forall_map. apply Forall_forall. intros l Hl.
    destruct (Hne l Hl) as [N1 N2].
    split; [apply cluster_at_taken; assumption|].
    split; [apply cluster_at_summary; exact N1|].
    unfold cluster_at. cbn. rewrite length_map.
    split; [|exact N2].
    destruct (level_indices positions level_of oi l); [congruence|].
    simpl. lia. }
  assert (Hmeans : StronglySorted
                     (fun a b => fc_z_mean a <= fc_z_mean b) clusters).
  { apply FOP_sorted.
    assert (Hsum : forall c, In c clusters -> z_summary c).
    { intros c Hcl. rewrite Forall_forall in Hall. apply Hall. exact Hcl. }
    eapply FOP_impl_In; [|exact Hbelow].
    intros a b Ha Hb Hab. cbv beta in *.
    destruct (Hsum a Ha) as [_ [_ A2]]. destruct (Hsum b Hb) as [_ [B1 _]].
    lra. }
  rewrite (sort_clusters_sorted clusters Hmeans).
  eexists. split; [reflexivity|].
  assert (Hlen : length (map (fun i => Z.of_nat (i + 1))
                           (seq 0 (length clusters))) = length clusters).
  { rewrite length_map, length_seq. reflexivity. }
  rewrite combine_fst by exact Hlen. rewrite combine_snd by exact Hlen.
  rewrite length_combine, Hlen, Nat.min_id.
  split; [|split; assumption].
  rewrite <- seq_shift, map_map. apply map_ext. intro i.
  rewrite Nat.add_1_r. reflexivity.
Qed.



(** X26.  The floors returned by [separate_floors] are stacked: every
    point of a floor lies strictly below every point of each floor with a
    larger number, so the mean heights increase strictly with the floor
    number. *)
Theorem separate_floors_stacked :
  forall (kernel : list Q) (positions : list Point) (node_ids : list Z)
         (height_threshold : Q) (min_points_per_floor : nat)
         (stair_mask : option (list bool)),
    0 < height_threshold ->
    consistent positions node_ids stair_mask ->
    exists floors,
      separate_floors kernel positions node_ids height_threshold
        min_points_per_floor stair_mask = Some floors
      /\ ForallOrdPairs
           (fun c1 c2 =>
              fc_z_max c1 < fc_z_min c2
              /\ fc_z_mean c1 < fc_z_mean c2
              /\ forall p1 p2, In p1 (fc_positions c1) ->
                               In p2 (fc_positions c2) -> pz p1 < pz p2)
           (map snd floors).
Proof.
  intros kernel positions node_ids ht mp sm _ Hc.
  destruct (separate_floors_shape kernel positions node_ids ht mp sm Hc)
    as [floors [E [_ [Hall Hb]]]].
  exists floors. split; [exact E|].
  rewrite Forall_forall in Hall.
  eapply FOP_impl_In; [|exact Hb].
  intros a b Ha Hb' Hab. cbv beta in *.
  destruct (Hall a Ha) as [_ [[A1 [_ A2]] _]].
  destruct (Hall b Hb') as [_ [[B1 [B2 _]] _]].
  split; [exact Hab|]. split; [lra|].
  intros p1 p2 H1 H2. rewrite Forall_forall in A1, B1.
  destruct (A1 p1 H1) as [_ U]. destruct (B1 p2 H2) as [L _]. lra.
Qed.

Lemma separate_floors_stacked_two_storeys :
  (0 < 3 /\ consistent two_storeys [1; 2; 3; 4; 5; 6; 7; 8]%Z
             (Some two_storeys_mask))
  /\ exists floors,
       separate_floors gauss_weights_1_5 two_storeys
         [1; 2; 3; 4; 5; 6; 7; 8]%Z 3 3 (Some two_storeys_mask)
       = Some floors
       /\ ForallOrdPairs (fun c1 c2 => fc_z_max c1 < fc_z_min c2)
            (map snd floors).
Proof.
  assert (H : 0 < 3 /\ consistent two_storeys [1; 2; 3; 4; 5; 6; 7; 8]%Z
                         (Some two_storeys_mask)).
  { split; [reflexivity|]. split; reflexivity. }
  split; [exact H|].
  destruct (separate_floors_stacked gauss_weights_1_5 two_storeys
              [1; 2; 3; 4; 5; 6; 7; 8]%Z 3 3 (Some two_storeys_mask)
              (proj1 H) (proj2 H)) as [floors [E Hf]].
  exists floors. split; [exact E|].
  eapply FOP_impl_In; [|exact Hf].
  intros a b _ _ [Hab _]. exact Hab.
Defined.

Example separate_floors_two_storeys_result :
  option_map
    (map (fun f => (fst f, fc_indices (snd f), Qred (fc_z_mean (snd f)))))
    (separate_floors gauss_weights_1_5 two_storeys
       [1; 2; 3; 4; 5; 6; 7; 8]%Z 3 3 (Some two_storeys_mask))
  = Some [ (1%Z, [0; 1; 2]%nat, 1 # 30); (2%Z, [5; 6; 7]%nat, 121 # 30) ].
Proof. vm_compute. reflexivity. Qed.

End FloorsProps.

Module SmoothingProps.
Import Geom Graph Smoothing GeomFacts SmoothingSpec.
Local Open Scope R_scope.












Lemma replace_outliers_shape (threshold : R) (rest : list Point) :
  forall prev,
    length (replace_outliers threshold prev rest) = length rest
    /\ last (replace_outliers threshold prev rest) prev = last rest prev
    /\ forall i, kept_or_averaged (prev :: rest)
                   (prev :: replace_outliers threshold prev rest) i.
Proof.
  induction rest as [|cur [|next rest] IH]; intros prev.
  - split; [reflexivity|]. split; [reflexivity|]. intro i. left. reflexivity.
  - split; [reflexivity|]. split; [reflexivity|]. intro i. left. reflexivity.
  - change (replace_outliers threshold prev (cur :: next :: rest))
      with ((if Rgt_bool (norm cur prev) threshold
                || Rgt_bool (norm next cur) threshold
             then midpoint prev next else cur)
            :: replace_outliers threshold cur (next :: rest)).
    destruct (IH cur) as [L [La Sh]].
    set (out := replace_outliers threshold cur (next :: rest)) in *.
    split; [simpl; rewrite L; reflexivity|]. split.
    + assert (Hne : out <> []).
      { intro E. rewrite E in L. discriminate. }
      destruct out as [|o out']; [congruence|].
      change (last (_ :: o :: out') prev) with (last (o :: out') prev).
      change (last (cur :: next :: rest) prev) with (last (next :: rest) prev).
      rewrite (ListProps.last_cons out' o prev).
      rewrite (ListProps.last_cons out' o cur) in La.
      rewrite La. rewrite (ListProps.last_cons rest next cur).
      rewrite (ListProps.last_cons rest next prev). reflexivity.
    + intros [|[|i]].
      * left. reflexivity.
      * destruct (Rgt_bool (norm cur prev) threshold
                  || Rgt_bool (norm next cur) threshold).
        -- right. split; [lia|]. split; [simpl; lia|]. reflexivity.
        -- left. reflexivity.
      * specialize (Sh (S i)). unfold kept_or_averaged in *.
        cbn [nth] in *.
        destruct Sh as [Sh|[S1 [S2 S3]]]; [left; exact Sh|].
        right. split; [lia|]. split; [simpl in *; lia|].
        replace (S (S i) - 1)%nat with (S i) by lia.
        replace (S i - 1)%nat with i in S3 by lia.
        replace (S (S i) + 1)%nat with (S (S (S i))) by lia.
        replace (S i + 1)%nat with (S (S i)) in S3 by lia.
        cbn [nth]. exact S3.
Qed.

(** X28.  [remove_outliers] returns as many points as it is given, keeps
    the first and the last point, and each point of the result is either
    the input point or, for an interior point, the middle of its two
    neighbours in the input. *)
Theorem remove_outliers_keeps_or_averages :
  forall (positions : list Point) (threshold_std : R),
    let out := remove_outliers positions threshold_std in
    length out = length positions
    /\ hd_error out = hd_error positions
    /\ last out (mkPoint 0 0 0) = last positions (mkPoint 0 0 0)
    /\ forall i, kept_or_averaged positions out i.
Proof.
  intros positions k. cbn zeta. unfold remove_outliers.
  destruct (length positions <? 5)%nat.
  { repeat split. intro i. left. reflexivity. }
  cbn zeta. destruct positions as [|first rest].
  { repeat split. intro i. left. reflexivity. }
  set (t := mean (step_lengths (first :: rest))
            + k * std (step_lengths (first :: rest))).
  destruct (replace_outliers_shape t rest first) as [L [La Sh]].
  split; [simpl; rewrite L; reflexivity|]. split; [reflexivity|].
  split; [|exact Sh].
  rewrite !ListProps.last_cons. exact La.
Qed.

End SmoothingProps.

Module ResultProps.
Import Geom Vertical Graph Main Smoothing TrajectoryStats.
Import GeomFacts ListFacts GraphSpec GraphFacts MainSpec MainFacts.
Import ResultSpec ListProps RangeProps SmoothingProps.
Local Open Scope Q_scope.

Lemma segments_from_nth (positions : list Point) :
  forall i,
    segments_from positions i
    = map (fun k => mkSegment (i + k) (point_at positions k)
                      (point_at positions (S k))
                      (norm (point_at positions (S k))
                            (point_at positions k)))
          (seq 0 (length positions - 1)).
Proof.
  induction positions as [|a [|b rest] IH]; intros i;
    [reflexivity|reflexivity|].
  change (segments_from (a :: b :: rest) i)
    with (mkSegment i a b (norm b a) :: segments_from (b :: rest) (S i)).
  rewrite IH.
  replace (length (a :: b :: rest) - 1)%nat
    with (S (length (b :: rest) - 1)) by (simpl; lia).
  cbn [seq map]. f_equal.
  - rewrite Nat.add_0_r. reflexivity.
  - rewrite <- seq_shift, map_map. apply map_ext. intro k.
    replace (S i + k)%nat with (i + S k)%nat by lia. reflexivity.
Qed.

Lemma bounds_of_encloses (positions : list Point) (b : Bounds) :
  bounds_of positions = Some b ->
  Forall (fun p => min_x b <= px p <= max_x b
                   /\ min_y b <= py p <= max_y b) positions.
Proof.
  intro E. destruct positions as [|p0 rest]; [discriminate|].
  injection E as <-. cbn [min_x max_x min_y max_y].
  apply Forall_forall. intros p Hp.
  assert (Hx : In (px p) (map px (p0 :: rest))) by (apply in_map; exact Hp).
  assert (Hy : In (py p) (map py (p0 :: rest))) by (apply in_map; exact Hp).
  repeat split;
    [apply (list_min_le (map px (p0 :: rest)))
    |apply (list_max_ge (map px (p0 :: rest)))
    |apply (list_min_le (map py (p0 :: rest)))
    |apply (list_max_ge (map py (p0 :: rest)))];
    assumption.
Qed.

Lemma floor_paths_of_spec (smoothed_floors : list (Z * list Point)) :
  forall t,
    match floor_paths_of smoothed_floors t with
    | None => Exists (fun f => snd f = []) smoothed_floors
    | Some (paths, _) =>
      Forall (fun f => snd f <> []) smoothed_floors
      /\ Forall2 floor_path_of smoothed_floors paths
    end.
Proof.
  induction smoothed_floors as [|[level positions] rest IH]; intros t.
  - simpl. split; constructor.
  - cbn [floor_paths_of]. cbn zeta.
    destruct (bounds_of positions) as [b|] eqn:Eb.
    + specialize (IH (fold_left (fun acc s => (acc + seg_length s)%R)
                        (segments_from positions 0) t)).
      destruct (floor_paths_of rest _) as [[paths total]|].
      * destruct IH as [Hne Hall]. split.
        -- constructor; [|exact Hne]. cbn [snd]. intro E. subst positions.
           discriminate.
        -- constructor; [|exact Hall].
           unfold floor_path_of. cbn.
           split; [reflexivity|]. split; [reflexivity|].
           split; [apply (segments_from_nth positions 0)|].
           split; [apply segments_length|].
           apply bounds_of_encloses. exact Eb.
      * right. exact IH.
    + left. cbn [snd]. destruct positions; [reflexivity|discriminate].
Qed.

Lemma passage_results_of_spec (passages : list Passage) :
  match passage_results_of passages with
  | None => Exists (fun p => p_positions p = []) passages
  | Some results =>
    Forall (fun p => p_positions p <> []) passages
    /\ length results = length passages
  end.
Proof.
  induction passages as [|p rest IH]; [split; [constructor|reflexivity]|].
  cbn [passage_results_of].
  destruct (p_positions p) as [|first ps] eqn:Ep.
  - left. exact Ep.
  - destruct (passage_results_of rest) as [results|].
    + destruct IH as [Hne Hl]. split.
      * constructor; [rewrite Ep; discriminate|exact Hne].
      * simpl. rewrite Hl. reflexivity.
    + right. exact IH.
Qed.

(** X29.  [_build_processing_result] fails exactly when a floor or a
    passage has no point.  Otherwise the result lists the floors in
    order: the segments of a floor join its consecutive points, numbered
    from 0, each with the distance between its two points; the floor's
    distance is the length of its polyline and its bounds enclose every
    point of the floor; the nodes and edges are passed on unchanged and
    [total_nodes] is the number of raw positions. *)
Theorem build_processing_result_floor_paths :
  forall (raw_positions : list Point)
         (smoothed_floors : list (Z * list Point))
         (vertical_passages : list Passage)
         (all_nodes : list PathNode) (all_edges : list PathEdge)
         (graph_stats : GraphStats),
    match _build_processing_result raw_positions smoothed_floors
            vertical_passages all_nodes all_edges graph_stats with
    | None =>
      Exists (fun f => snd f = []) smoothed_floors
      \/ Exists (fun p => p_positions p = []) vertical_passages
    | Some r =>
      Forall (fun f => snd f <> []) smoothed_floors
      /\ Forall (fun p => p_positions p <> []) vertical_passages
      /\ Forall2 floor_path_of smoothed_floors (r_floor_paths r)
      /\ length (r_vertical_passages r) = length vertical_passages
      /\ r_total_nodes r = length raw_positions
      /\ r_path_nodes r = all_nodes /\ r_path_edges r = all_edges
    end.
Proof.
  intros raw sf vp nodes edges stats. unfold _build_processing_result.
  pose proof (floor_paths_of_spec sf 0%R) as Hf.
  pose proof (passage_results_of_spec vp) as Hp.
  destruct (floor_paths_of sf 0%R) as [[paths total]|]; [|left; exact Hf].
  destruct (passage_results_of vp) as [results|]; [|right; exact Hp].
  destruct Hf as [F1 F2]. destruct Hp as [P1 P2]. cbn.
  repeat split; assumption.
Qed.






End ResultProps.
